(** * convert-to-tei.js: the structural extraction engine

    A shallow embedding of the segmentation code of [convert-to-tei.js]:
    the text normaliser ([cleanText], [normalizeText],
    [stripLeadingNumber]), the inline formatting extractor
    ([extractTextWithFormatting]), [parseDocument] with its two
    strategies, the explicit-anchor scan and the navigation-based
    segmentation with the grouping of questions and answers, and the
    serialiser of the body ([escapeXML], [generateTEIBody]).  The
    properties of the specification follow the definitions, and further
    properties of the code follow them.

    JavaScript strings are sequences of UTF-16 code units and are modelled
    as lists of code units, each an [N]; JavaScript integers are modelled
    in [Z].  The DOM tree is an inductive type, and a DOM node, which knows
    its parent and siblings, is a position in that tree.  Code that may
    throw is written in an error monad.  The parser is given twice: without
    the call stack of the engine, and, in the module [CallStack], with it,
    where the recursion of the extractor throws [RangeError] on markup
    that is nested too deep.

    Not modelled: the header template ([generateTEIHeader], which reads
    the clock), the driver, and the helper [collectSectionNodes], which
    [parseDocument] defines and never calls. *)

From Stdlib Require Import String Ascii.
From Stdlib Require Import List NArith ZArith Lia Bool DecimalString DecimalZ.
Import ListNotations.

Local Open Scope N_scope.
Local Open Scope list_scope.

(** ** JavaScript strings *)

Definition char := N.
Definition str := list char.

(** An ASCII literal as a JavaScript string. *)
Definition lit (s : string) : str := map N_of_ascii (list_ascii_of_string s).
Arguments lit s%_string.

Fixpoint str_eqb (a b : str) : bool :=
  match a, b with
  | [], [] => true
  | x :: a', y :: b' => (x =? y) && str_eqb a' b'
  | _, _ => false
  end.

(** [s.startsWith(p)] *)
Fixpoint startsWith (p s : str) : bool :=
  match p, s with
  | [], _ => true
  | x :: p', y :: s' => (x =? y) && startsWith p' s'
  | _ :: _, [] => false
  end.

(** JavaScript truthiness of a string: the empty string is falsy. *)
Definition truthy (s : str) : bool :=
  match s with [] => false | _ :: _ => true end.

(** ECMAScript [WhiteSpace] and [LineTerminator] code units: what [\s]
    matches and what [trim] removes. *)
Definition isWhiteSpace (c : char) : bool :=
  ((0x09 <=? c) && (c <=? 0x0D)) || (c =? 0x20) || (c =? 0xA0) ||
  (c =? 0x1680) || ((0x2000 <=? c) && (c <=? 0x200A)) ||
  (c =? 0x2028) || (c =? 0x2029) || (c =? 0x202F) || (c =? 0x205F) ||
  (c =? 0x3000) || (c =? 0xFEFF).

Definition isDigit (c : char) : bool := (0x30 <=? c) && (c <=? 0x39).

Definition space : char := 0x20.

Fixpoint trimStart (s : str) : str :=
  match s with
  | [] => []
  | c :: t => if isWhiteSpace c then trimStart t else s
  end.

Definition trimEnd (s : str) : str := rev (trimStart (rev s)).

(** [s.trim()] *)
Definition trim (s : str) : str := trimEnd (trimStart s).

(** [s.replace(/\s+/g, ' ')]: every maximal run of white space becomes one
    space.  [inrun] records that the previous code unit belonged to the run
    being replaced. *)
Fixpoint collapse_from (inrun : bool) (s : str) : str :=
  match s with
  | [] => []
  | c :: t =>
      if isWhiteSpace c
      then (if inrun then collapse_from true t else space :: collapse_from true t)
      else c :: collapse_from false t
  end.

Definition collapse_ws (s : str) : str := collapse_from false s.

(** [s.replace(/pat/g, rep)] for a literal, non-empty pattern: matches are
    found left to right and do not overlap.  [skip] counts the code units of
    the current match still to be consumed. *)
Fixpoint replace_from (pat rep : str) (skip : nat) (s : str) : str :=
  match s with
  | [] => []
  | c :: t =>
      match skip with
      | S k => replace_from pat rep k t
      | O =>
          if startsWith pat s
          then rep ++ replace_from pat rep (Nat.pred (length pat)) t
          else c :: replace_from pat rep O t
      end
  end.

Definition replaceAll (pat rep : str) (s : str) : str :=
  replace_from pat rep O s.

(** ** Text normaliser *)

(** [cleanText] *)
Definition cleanText (text : str) : str :=
  if negb (truthy text) then []
  else trim (replaceAll (lit "&nbsp;") (lit " ") (collapse_ws text)).

Definition a_acute : char := 0xE1.
Definition i_acute : char := 0xED.
Definition u_acute : char := 0xFA.
Definition e_acute : char := 0xE9.
Definition o_acute : char := 0xF3.
Definition apostrophe : char := 0x27.
Definition quotation : char := 0x22.
Definition em_dash : char := 0x2014.
Definition en_dash : char := 0x2013.

(** The replacements of [normalizeText], in source order.  The four quote
    rules and the two dash rules of the source replace a character by
    itself. *)
Definition normalize_table : list (str * str) :=
  [ (lit "&aacute;", [a_acute]);
    (lit "&iacute;", [i_acute]);
    (lit "&uacute;", [u_acute]);
    (lit "&eacute;", [e_acute]);
    (lit "&oacute;", [o_acute]);
    ([apostrophe], [apostrophe]);
    ([apostrophe], [apostrophe]);
    ([quotation], [quotation]);
    ([quotation], [quotation]);
    ([em_dash], [em_dash]);
    ([en_dash], [en_dash]) ].

(** [normalizeText] *)
Definition normalizeText (text : str) : str :=
  if negb (truthy text) then []
  else fold_left (fun s pr => replaceAll (fst pr) (snd pr) s) normalize_table text.

(** The named entities of the table. *)
Definition entity_table : list str :=
  [ lit "&aacute;"; lit "&iacute;"; lit "&uacute;"; lit "&eacute;"; lit "&oacute;" ].

(** ** Regular expressions

    The fragment of ECMAScript regular expressions the source uses:
    character classes, greedy quantifiers over one class, sequence,
    alternation, greedy optional groups, the assertions [^], [$] and [\b]
    (no [m] flag), one capturing group and the [i] flag.  The matcher is a
    backtracking matcher with the priorities of ECMAScript: a greedy
    quantifier tries the longest repetition first, an alternation its left
    branch first. *)

Inductive cclass : Type :=
| CChar (c : char)
| COneOf (cs : list char)
| CRange (lo hi : char)
| CSpace
| CDigit.

Inductive regex : Type :=
| Eps
| Cls (c : cclass)
| Seq (r1 r2 : regex)
| Alt (r1 r2 : regex)
| Opt (r : regex)
| Rep (c : cclass) (lo : nat) (hi : option nat)
| Bol
| Eol
| WordB
| Group (r : regex).

Definition cat (rs : list regex) : regex := fold_right Seq Eps rs.
Definition word (s : str) : regex := cat (map (fun c => Cls (CChar c)) s).
Definition star (c : cclass) : regex := Rep c 0 None.
Definition plus (c : cclass) : regex := Rep c 1 None.

Definition isLower (c : char) : bool := (0x61 <=? c) && (c <=? 0x7A).
Definition isUpper (c : char) : bool := (0x41 <=? c) && (c <=? 0x5A).

(** [Canonicalize] of a pattern without the [u] flag, on the characters the
    source's patterns contain (ASCII and U+2014): an ASCII letter goes to
    its capital, and a code unit outside ASCII never goes to an ASCII one. *)
Definition canon (c : char) : char := if isLower c then c - 0x20 else c.
Definition lower (c : char) : char := if isUpper c then c + 0x20 else c.

Definition in_range (lo hi c : char) : bool := (lo <=? c) && (c <=? hi).

Definition class_mem (icase : bool) (cl : cclass) (c : char) : bool :=
  match cl with
  | CChar x => if icase then canon x =? canon c else x =? c
  | COneOf xs =>
      existsb (fun x => if icase then canon x =? canon c else x =? c) xs
  | CRange lo hi =>
      if icase then in_range lo hi (canon c) || in_range lo hi (lower c)
      else in_range lo hi c
  | CSpace => isWhiteSpace c
  | CDigit => isDigit c
  end.

(** [\w] *)
Definition isWordChar (c : char) : bool :=
  isLower c || isUpper c || isDigit c || (c =? 0x5F).

Definition isWordAt (c : option char) : bool :=
  match c with Some x => isWordChar x | None => false end.

Section Matcher.
Context {A : Type} (icase : bool).

(** A continuation receives the last consumed code unit (if any), the rest
    of the input and the text of the capturing group. *)
Definition kont : Type := option char -> str -> option str -> option A.

Definition may_take (hi : option nat) : bool :=
  match hi with Some O => false | _ => true end.

Fixpoint m_rep (cl : cclass) (lo : nat) (hi : option nat)
    (prev : option char) (s : str) (cap : option str) (k : kont)
    {struct s} : option A :=
  let stop := match lo with O => k prev s cap | S _ => None end in
  match s with
  | c :: t =>
      if class_mem icase cl c && may_take hi
      then match m_rep cl (Nat.pred lo) (option_map Nat.pred hi) (Some c) t cap k with
           | Some x => Some x
           | None => stop
           end
      else stop
  | [] => stop
  end.

Fixpoint m (r : regex) (prev : option char) (s : str) (cap : option str)
    (k : kont) {struct r} : option A :=
  match r with
  | Eps => k prev s cap
  | Cls cl =>
      match s with
      | c :: t => if class_mem icase cl c then k (Some c) t cap else None
      | [] => None
      end
  | Seq a b => m a prev s cap (fun p' s' c' => m b p' s' c' k)
  | Alt a b =>
      match m a prev s cap k with
      | Some x => Some x
      | None => m b prev s cap k
      end
  | Opt a =>
      match m a prev s cap k with
      | Some x => Some x
      | None => k prev s cap
      end
  | Rep cl lo hi => m_rep cl lo hi prev s cap k
  | Bol => match prev with None => k prev s cap | Some _ => None end
  | Eol => match s with [] => k prev s cap | _ :: _ => None end
  | WordB =>
      if xorb (isWordAt prev) (isWordAt (hd_error s)) then k prev s cap else None
  | Group a =>
      m a prev s cap
        (fun p' s' _ => k p' s' (Some (firstn (length s - length s') s)))
  end.
End Matcher.

(** The result of [exec]: the text before the match, the text after it and
    the capturing group. *)
Record rmatch : Type := mkMatch {
  m_before : str;
  m_after : str;
  m_group : option str
}.

(** [re.exec(s)] without the [g] flag: the first start position where the
    pattern matches. *)
Fixpoint exec_from (icase : bool) (r : regex) (prev : option char)
    (before : str) (s : str) : option rmatch :=
  match m icase r prev s None (fun _ s' cap => Some (s', cap)) with
  | Some (s', cap) => Some (mkMatch (rev before) s' cap)
  | None =>
      match s with
      | c :: t => exec_from icase r (Some c) (c :: before) t
      | [] => None
      end
  end.

Definition exec (icase : bool) (r : regex) (s : str) : option rmatch :=
  exec_from icase r None [] s.

(** [re.test(s)] *)
Definition test (icase : bool) (r : regex) (s : str) : bool :=
  match exec icase r s with Some _ => true | None => false end.

(** [s.replace(re, '')] without the [g] flag. *)
Definition replace_first_empty (icase : bool) (r : regex) (s : str) : str :=
  match exec icase r s with
  | Some mt => m_before mt ++ m_after mt
  | None => s
  end.

(** [/^\s*(?:[\(\[])?\s*\d{1,3}(?:\s*[\.:\)\]])?(?:\s+|$)/] *)
Definition re_leadingNumber : regex :=
  cat [ Bol; star CSpace; Opt (Cls (COneOf (lit "([")));
        star CSpace; Rep CDigit 1 (Some 3%nat);
        Opt (cat [star CSpace; Cls (COneOf (lit ".:)]"))]);
        Alt (plus CSpace) Eol ].

(** [stripLeadingNumber] *)
Definition stripLeadingNumber (text : str) : str :=
  if negb (truthy text) then []
  else replace_first_empty false re_leadingNumber text.

(** [/^\s*(\d{1,3})(?:\s*[\.:\)\]])?\s*$/] *)
Definition re_numOnly : regex :=
  cat [ Bol; star CSpace; Group (Rep CDigit 1 (Some 3%nat));
        Opt (cat [star CSpace; Cls (COneOf (lit ".:)]"))]);
        star CSpace; Eol ].

(** [/^\s*(\d{1,3})(?:\s*[\.:\)\]])?/] *)
Definition re_numAtStart : regex :=
  cat [ Bol; star CSpace; Group (Rep CDigit 1 (Some 3%nat));
        Opt (cat [star CSpace; Cls (COneOf (lit ".:)]"))]) ].

Definition hyphen : char := 0x2D.

(** [/\bQuestion\s*[:\u2014\-]/i] *)
Definition re_isQuestion : regex :=
  cat [ WordB; word (lit "Question"); star CSpace;
        Cls (COneOf (lit ":" ++ [em_dash; hyphen])) ].

(** [/\bAnswer\s*[:\u2014\-]/i] *)
Definition re_isAnswer : regex :=
  cat [ WordB; word (lit "Answer"); star CSpace;
        Cls (COneOf (lit ":" ++ [em_dash; hyphen])) ].

(** [/^(pref\d+|intro\d+[a-c]?|description\d+|par\d+|q\d+|note\d+)$/i] *)
Definition anchorPattern : regex :=
  cat [ Bol;
        Group
          (Alt (cat [word (lit "pref"); plus CDigit])
          (Alt (cat [word (lit "intro"); plus CDigit; Opt (Cls (CRange 0x61 0x63))])
          (Alt (cat [word (lit "description"); plus CDigit])
          (Alt (cat [word (lit "par"); plus CDigit])
          (Alt (cat [word (lit "q"); plus CDigit])
               (cat [word (lit "note"); plus CDigit]))))));
        Eol ].

(** [/^(\d+)/] *)
Definition re_leadingDigits : regex := cat [ Bol; Group (plus CDigit) ].

(** [/\bdd\b/] and [/\bic\b/] *)
Definition re_word_dd : regex := cat [ WordB; word (lit "dd"); WordB ].
Definition re_word_ic : regex := cat [ WordB; word (lit "ic"); WordB ].

(** ** Numbers and their decimal strings *)

Definition digit_val (c : char) : Z := Z.of_N (c - 0x30).

(** The value of the longest prefix of digits, [None] when there is no
    digit. *)
Fixpoint parse_digits (acc : option Z) (s : str) : option Z :=
  match s with
  | c :: t =>
      if isDigit c
      then parse_digits
             (Some (match acc with Some a => a * 10 + digit_val c
                                 | None => digit_val c end)%Z) t
      else acc
  | [] => acc
  end.

(** [parseInt(s, 10)]: leading white space is skipped, a sign is read, then
    the longest prefix of digits; [None] is [NaN]. *)
Definition parseInt (s : str) : option Z :=
  match trimStart s with
  | c :: t =>
      if c =? 0x2D then option_map Z.opp (parse_digits None t)
      else if c =? 0x2B then parse_digits None t
      else parse_digits None (c :: t)
  | [] => None
  end.

(** [String(n)] and [`${n}`] for an integer [n]. *)
Definition String_of (n : Z) : str :=
  lit (DecimalString.NilZero.string_of_int (Z.to_int n)).

(** [x || y] for a number [x] that may be [NaN]. *)
Definition num_or (x : option Z) (y : Z) : Z :=
  match x with
  | Some v => if (v =? 0)%Z then y else v
  | None => y
  end.

(** ** Exceptions *)

Inductive exn : Type :=
| TypeError      (* a member access on [null] *)
| SyntaxError    (* a selector the engine rejects *)
| RangeError     (* the call stack is exhausted, see [CallStack] *)
| OutOfFuel.     (* the model's loop bound was reached; never the case, see
                    [collectBetween_returns] *)

Inductive result (A : Type) : Type :=
| Ok (a : A)
| Throw (e : exn).
Arguments Ok {A} a.
Arguments Throw {A} e.

Definition bind {A B : Type} (c : result A) (f : A -> result B) : result B :=
  match c with
  | Ok a => f a
  | Throw e => Throw e
  end.

Notation "x <- c ;; k" := (bind c (fun x => k))
  (at level 61, c at next level, right associativity).

(** ** The markup tree *)

(** A DOM node: a text node ([nodeType] 3), an element ([nodeType] 1) or a
    node of another kind (comment, document type, processing instruction),
    which has data and no children. *)
Unset Elimination Schemes.
Inductive node : Type :=
| Text (data : str)
| Other (data : str)
| Elem (tagName : str) (attrs : list (str * str)) (children : list node).
Set Elimination Schemes.

(** [node.childNodes] *)
Definition childNodes (n : node) : list node :=
  match n with
  | Elem _ _ cs => cs
  | _ => []
  end.

(** [node.nodeType], where 8 (a comment) stands for every type other than
    1 and 3: the source tells these two from the rest and nothing more. *)
Definition nodeType (n : node) : Z :=
  match n with
  | Text _ => 3
  | Other _ => 8
  | Elem _ _ _ => 1
  end.

(** The data of the text nodes below a node, in document order. *)
Fixpoint descendantText (n : node) : str :=
  match n with
  | Text d => d
  | Other _ => []
  | Elem _ _ cs => flat_map descendantText cs
  end.

(** [node.textContent] *)
Definition textContent (n : node) : str :=
  match n with
  | Other d => d
  | _ => descendantText n
  end.

(** [el.getAttribute(name)]: [None] is [null]. *)
Fixpoint lookup_attr (name : str) (attrs : list (str * str)) : option str :=
  match attrs with
  | [] => None
  | (k, v) :: rest => if str_eqb k name then Some v else lookup_attr name rest
  end.

Definition getAttribute (n : node) (name : str) : option str :=
  match n with
  | Elem _ attrs _ => lookup_attr name attrs
  | _ => None
  end.

(** Truthiness of a value that is a string or [null]. *)
Definition truthy_opt (v : option str) : bool :=
  match v with Some s => truthy s | None => false end.

(** [a || b] on such values. *)
Definition or_else (a b : option str) : option str :=
  if truthy_opt a then a else b.

(** [v || ''] *)
Definition or_empty (v : option str) : str :=
  match v with Some s => s | None => [] end.

(** [s.toLowerCase()] restricted to ASCII.  It is applied to tag names that
    are then compared with ASCII names without the letter k, for which it
    decides as the full Unicode mapping does. *)
Definition toLowerASCII (s : str) : str := map lower s.

(** A position in the document: a node together with the siblings on its
    left (nearest first), the siblings on its right and, for every ancestor
    element, its tag, attributes and own siblings.  This is what the parent
    and sibling pointers of a DOM node give access to. *)
Record frame : Type := mkFrame {
  f_tag : str;
  f_attrs : list (str * str);
  f_lefts : list node;
  f_rights : list node
}.

Record loc : Type := mkLoc {
  here : node;
  lefts : list node;
  rights : list node;
  ups : list frame
}.

(** [node.firstChild] *)
Definition firstChild (l : loc) : option loc :=
  match here l with
  | Elem t a (c :: cs) =>
      Some (mkLoc c [] cs (mkFrame t a (lefts l) (rights l) :: ups l))
  | _ => None
  end.

(** [node.nextSibling] *)
Definition nextSibling (l : loc) : option loc :=
  match rights l with
  | r :: rs => Some (mkLoc r (here l :: lefts l) rs (ups l))
  | [] => None
  end.

(** [node.parentNode], as far as [nextNode] uses it: the parent of a
    top-level node is the document, which has neither sibling nor parent, and
    is rendered as [None]. *)
Definition parentNode (l : loc) : option loc :=
  match ups l with
  | f :: fs =>
      Some (mkLoc (Elem (f_tag f) (f_attrs f) (rev (lefts l) ++ here l :: rights l))
                  (f_lefts f) (f_rights f) fs)
  | [] => None
  end.

(** The index path of a position from the root; two positions of one
    document are the same node when their paths agree. *)
Definition path (l : loc) : list nat :=
  length (lefts l) :: map (fun f => length (f_lefts f)) (ups l).

Fixpoint path_eqb (p q : list nat) : bool :=
  match p, q with
  | [], [] => true
  | x :: p', y :: q' => Nat.eqb x y && path_eqb p' q'
  | _, _ => false
  end.

(** [a === b] on nodes, [b] possibly [null]. *)
Definition same_node (a : loc) (b : option loc) : bool :=
  match b with
  | Some l => path_eqb (path a) (path l)
  | None => false
  end.

(** The loop of [nextNode]:
    [while (node) { if (node.nextSibling) return node.nextSibling;
                    node = node.parentNode; }] *)
Fixpoint climb (n : node) (ls rs : list node) (us : list frame) : option loc :=
  match rs with
  | r :: rs' => Some (mkLoc r (n :: ls) rs' us)
  | [] =>
      match us with
      | f :: fs =>
          climb (Elem (f_tag f) (f_attrs f) (rev ls ++ [n]))
                (f_lefts f) (f_rights f) fs
      | [] => None
      end
  end.

(** [nextNode]: the next node in document order. *)
Definition nextNode (node : option loc) : option loc :=
  match node with
  | None => None
  | Some l =>
      match firstChild l with
      | Some c => Some c
      | None => climb (here l) (lefts l) (rights l) (ups l)
      end
  end.

(** The positions of the nodes of a list of siblings and of their
    descendants: [cs] are the siblings still to list, [ls] those already
    listed (nearest first), [us] their ancestors; [self] lists one node with
    its descendants. *)
Fixpoint sibling_locs
    (self : node -> list node -> list node -> list frame -> list loc)
    (us : list frame) (ls cs : list node) : list loc :=
  match cs with
  | [] => []
  | c :: rest => self c ls rest us ++ sibling_locs self us (c :: ls) rest
  end.

(** The positions of a node and of its descendants, in document order. *)
Fixpoint locs_of (n : node) (ls rs : list node) (us : list frame) : list loc :=
  mkLoc n ls rs us ::
  match n with
  | Elem t a cs => sibling_locs locs_of (mkFrame t a ls rs :: us) [] cs
  | _ => []
  end.

(** A document is the list of its top-level nodes. *)
Definition document : Type := list node.

(** Every node of the document, in document order. *)
Definition doc_locs (d : document) : list loc := sibling_locs locs_of [] [] d.

(** The proper descendants of a node, in document order. *)
Definition descendants (l : loc) : list loc :=
  tl (locs_of (here l) (lefts l) (rights l) (ups l)).

Definition isElement (n : node) : bool :=
  match n with Elem _ _ _ => true | _ => false end.

(** ** Inline formatting extractor *)

(** [recv.startsWith(p)]: a method call on [null] throws. *)
Definition startsWith_of (recv : option str) (p : str) : result bool :=
  match recv with
  | Some s => Ok (startsWith p s)
  | None => Throw TypeError
  end.

(** [a && b] where [a] is a string or [null] and [b] a computation. *)
Definition and_then (a : option str) (b : result bool) : result bool :=
  if truthy_opt a then b else Ok false.

Definition hi_open (rend : str) : str :=
  lit "<hi rend=" ++ [quotation] ++ rend ++ [quotation] ++ lit ">".
Definition hi_close : str := lit "</hi>".
Definition ref_open (target : str) : str :=
  lit "<ref target=" ++ [quotation] ++ target ++ [quotation] ++ lit ">".
Definition ref_close : str := lit "</ref>".
Definition newline : str := [0x0A].

(** One iteration of the loop of [extractTextWithFormatting] over
    [node.childNodes]: [acc] is [result] before the iteration, [self] the
    function itself for the recursive calls. *)
Definition extractStep (self : node -> result str) (child : node) (acc : str)
    : result str :=
  match child with
  | Text _ => Ok (acc ++ normalizeText (textContent child))
  | Elem tag _ _ =>
      let tagName := toLowerASCII tag in
      if str_eqb tagName (lit "i") || str_eqb tagName (lit "em") then
        inner <- self child ;;
        Ok (acc ++ hi_open (lit "italic") ++ inner ++ hi_close)
      else if str_eqb tagName (lit "b") || str_eqb tagName (lit "strong") then
        inner <- self child ;;
        Ok (acc ++ hi_open (lit "bold") ++ inner ++ hi_close)
      else if str_eqb tagName (lit "u") then
        inner <- self child ;;
        Ok (acc ++ hi_open (lit "underline") ++ inner ++ hi_close)
      else if str_eqb tagName (lit "sup") then
        inner <- self child ;;
        Ok (acc ++ hi_open (lit "superscript") ++ inner ++ hi_close)
      else if str_eqb tagName (lit "sub") then
        inner <- self child ;;
        Ok (acc ++ hi_open (lit "subscript") ++ inner ++ hi_close)
      else if str_eqb tagName (lit "a") then
        let href := getAttribute child (lit "href") in
        external <- and_then href (startsWith_of href (lit "http")) ;;
        if external then
          inner <- self child ;;
          Ok (acc ++ ref_open (or_empty href) ++ inner ++ ref_close)
        else
          inner <- self child ;;
          Ok (acc ++ inner)
      else if str_eqb tagName (lit "br") then
        Ok (acc ++ newline)
      else if str_eqb tagName (lit "span") then
        inner <- self child ;;
        Ok (acc ++ inner)
      else
        inner <- self child ;;
        Ok (acc ++ inner)
  | Other _ => Ok acc
  end.

(** The loop [for (const child of node.childNodes)]. *)
Fixpoint extractLoop (self : node -> result str) (cs : list node) (acc : str)
    : result str :=
  match cs with
  | [] => Ok acc
  | child :: rest =>
      acc' <- extractStep self child acc ;;
      extractLoop self rest acc'
  end.

(** [extractTextWithFormatting] on a node that is not [null], for a call
    stack with room for every recursive call: the function calls itself
    once per level of element nesting, and what the engine does when the
    calls do not fit is left out of this definition.  The module
    [CallStack] below has the function with the stack, which throws
    [RangeError] then; see [extractChildren_refines] and
    [extractChildren_enough] for how the two are related. *)
Fixpoint extractChildren (n : node) : result str :=
  match n with
  | Text _ | Other _ => Ok []
  | Elem _ _ childNodes => extractLoop extractChildren childNodes []
  end.

(** [extractTextWithFormatting]: [None] is a [null] node. *)
Definition extractTextWithFormatting (node : option node) : result str :=
  match node with
  | None => Ok []
  | Some n => extractChildren n
  end.

(** ** The output model *)

(** The [n] of an item is a number or a string in the source. *)
Inductive ordinal : Type :=
| NumOrd (i : Z)
| StrOrd (s : str).

Record item : Type := mkItem {
  item_n : ordinal;
  item_text : str
}.

(** The [sections] object; [mainText] is its field [text]. *)
Record sections : Type := mkSections {
  preface : list item;
  introduction : list item;
  description : list item;
  mainText : list item;
  questions : list item;
  supplementary : list item;
  synopsis : list item;
  notes : list item;
  glossary : list item;
  keyPassages : list item
}.

Definition empty_sections : sections :=
  mkSections [] [] [] [] [] [] [] [] [] [].

(** ** Anchor catalog *)

(** [(node.getAttribute('name') || node.getAttribute('id')) || ''] *)
Definition anchorName (n : node) : str :=
  or_empty (or_else (getAttribute n (lit "name")) (getAttribute n (lit "id"))).

Definition is_some {A : Type} (o : option A) : bool :=
  match o with Some _ => true | None => false end.

(** [document.querySelectorAll('a[name], *[id], *[name]')] *)
Definition allAnchorEls (d : document) : list loc :=
  filter (fun l => isElement (here l) &&
                   (is_some (getAttribute (here l) (lit "name")) ||
                    is_some (getAttribute (here l) (lit "id"))))
         (doc_locs d).

Definition anchors (d : document) : list (str * loc) :=
  flat_map (fun el =>
              let name := trim (anchorName (here el)) in
              if truthy name && test true anchorPattern name
              then [(name, el)] else [])
           (allAnchorEls d).

Definition str_mem (x : str) (l : list str) : bool := existsb (str_eqb x) l.

(** [anchors.filter(a => { if (seen.has(a.name)) return false;
    seen.add(a.name); return true; })] *)
Fixpoint keepFirst (seen : list str) (l : list (str * loc)) : list (str * loc) :=
  match l with
  | [] => []
  | a :: rest =>
      if str_mem (fst a) seen then keepFirst seen rest
      else a :: keepFirst (fst a :: seen) rest
  end.

Definition orderedAnchors (d : document) : list (str * loc) :=
  keepFirst [] (anchors d).

(** A [Map] from names to elements, as the list of its entries. *)
Definition Map : Type := list (str * loc).

Fixpoint Map_set (mp : Map) (k : str) (v : loc) : Map :=
  match mp with
  | [] => [(k, v)]
  | (k', v') :: rest =>
      if str_eqb k' k then (k', v) :: rest else (k', v') :: Map_set rest k v
  end.

Fixpoint Map_get (mp : Map) (k : str) : option loc :=
  match mp with
  | [] => None
  | (k', v) :: rest => if str_eqb k' k then Some v else Map_get rest k
  end.

Definition Map_has (mp : Map) (k : str) : bool := is_some (Map_get mp k).

(** [new Map(orderedAnchors.map(a => [a.name, a.el]))] *)
Definition anchorMap (d : document) : Map :=
  fold_left (fun mp a => Map_set mp (fst a) (snd a)) (orderedAnchors d) [].

(** ** Strategy A: explicit anchors *)

Fixpoint size (n : node) : nat :=
  match n with
  | Elem _ _ cs => S (list_sum (map size cs))
  | _ => 1%nat
  end.

Definition sizes (l : list node) : nat := list_sum (map size l).

(** The number of nodes that follow a position in document order. *)
Definition after (l : loc) : nat :=
  (sizes (rights l) + list_sum (map (fun f => sizes (f_rights f)) (ups l)))%nat.

Definition remaining (l : loc) : nat := (Nat.pred (size (here l)) + after l)%nat.

(** The loop of [collectBetween]; [fuel] bounds the number of iterations. *)
Fixpoint collectLoop (fuel : nat) (endEl : option loc) (text : str)
    (node : option loc) : result str :=
  match node with
  | None => Ok (cleanText text)
  | Some nd =>
      if same_node nd endEl then Ok (cleanText text)
      else
        match fuel with
        | O => Throw OutOfFuel
        | S fuel' =>
            match here nd with
            | Elem _ _ _ =>
                let n := anchorName (here nd) in
                if truthy n && test true anchorPattern n
                then Ok (cleanText text)
                else
                  t <- extractTextWithFormatting (Some (here nd)) ;;
                  collectLoop fuel' endEl (text ++ t)
                    (match nextSibling nd with
                     | Some sib => Some sib
                     | None => nextNode (Some nd)
                     end)
            | Text _ =>
                collectLoop fuel' endEl
                  (text ++ normalizeText (textContent (here nd)))
                  (nextNode (Some nd))
            | Other _ => collectLoop fuel' endEl text (nextNode (Some nd))
            end
        end
  end.

(** [collectBetween] *)
Definition collectBetween (startEl : loc) (endEl : option loc) : result str :=
  collectLoop (S (remaining startEl)) endEl [] (nextNode (Some startEl)).

Section Legacy.
Variable amap : Map.

(** The loop of one family without suffixes:
    [for (let i = lo; i <= hi; i++) { ... if (!el) break; ... }], where
    [count] is the number of iterations left.  [strip] tells whether the
    family strips a leading numeric label (main text and questions). *)
Fixpoint scanFamily (prefix : str) (strip : bool) (count : nat) (i : Z)
    (acc : list item) : result (list item) :=
  match count with
  | O => Ok acc
  | S count' =>
      match Map_get amap (prefix ++ String_of i) with
      | None => Ok acc
      | Some el =>
          let nextEl := Map_get amap (prefix ++ String_of (i + 1)) in
          text <- collectBetween el nextEl ;;
          let text :=
            if strip && truthy text then stripLeadingNumber text else text in
          scanFamily prefix strip count' (i + 1)
            (if truthy text then acc ++ [mkItem (NumOrd i) text] else acc)
      end
  end.

Definition introName (i : Z) (suf : str) : str :=
  lit "intro" ++ String_of i ++ suf.

(** The body of [for (const suf of ['', 'b', 'c'])] for one suffix. *)
Definition introStep (i : Z) (suf : str) (acc : list item)
    : result (list item) :=
  match Map_get amap (introName i suf) with
  | Some el =>
      let nextName :=
        if str_eqb suf []
        then (if Map_has amap (introName i (lit "b"))
              then introName i (lit "b") else introName (i + 1) [])
        else if str_eqb suf (lit "b")
        then (if Map_has amap (introName i (lit "c"))
              then introName i (lit "c") else introName (i + 1) [])
        else introName (i + 1) [] in
      let nextEl := Map_get amap nextName in
      text <- collectBetween el nextEl ;;
      Ok (if truthy text
          then acc ++ [mkItem (StrOrd (String_of i ++ suf)) text]
          else acc)
  | None => Ok acc
  end.

Fixpoint scanIntro (count : nat) (i : Z) (acc : list item)
    : result (list item) :=
  match count with
  | O => Ok acc
  | S count' =>
      acc1 <- introStep i [] acc ;;
      acc2 <- introStep i (lit "b") acc1 ;;
      acc3 <- introStep i (lit "c") acc2 ;;
      scanIntro count' (i + 1) acc3
  end.

(** The [if (legacyHasContent) { ... return sections; }] block. *)
Definition legacySections : result sections :=
  pref <- scanFamily (lit "pref") false 50 1 [] ;;
  intro <- scanIntro 300 1 [] ;;
  desc <- scanFamily (lit "description") false 100 1 [] ;;
  par <- scanFamily (lit "par") true 1000 1 [] ;;
  q <- scanFamily (lit "q") true 500 1 [] ;;
  note <- scanFamily (lit "note") false 1000 1 [] ;;
  Ok (mkSections pref intro desc par q [] [] note [] []).
End Legacy.

(** [legacyHasContent] *)
Definition legacyHasContent (d : document) : bool :=
  Map_has (anchorMap d) (lit "par1") || Map_has (anchorMap d) (lit "intro1") ||
  Map_has (anchorMap d) (lit "pref1").

(** ** Strategy B: navigation-based segmentation *)

Inductive sectionType : Type :=
| TPreface | TIntroduction | TDescription | TText | TSupplementary
| TQuestions | TSynopsis | TNotes | TKeyPassages.

(** [sections[type].push(it)] *)
Definition push_section (ty : sectionType) (it : item) (s : sections) : sections :=
  match ty with
  | TPreface =>
      mkSections (preface s ++ [it]) (introduction s) (description s) (mainText s)
        (questions s) (supplementary s) (synopsis s) (notes s) (glossary s) (keyPassages s)
  | TIntroduction =>
      mkSections (preface s) (introduction s ++ [it]) (description s) (mainText s)
        (questions s) (supplementary s) (synopsis s) (notes s) (glossary s) (keyPassages s)
  | TDescription =>
      mkSections (preface s) (introduction s) (description s ++ [it]) (mainText s)
        (questions s) (supplementary s) (synopsis s) (notes s) (glossary s) (keyPassages s)
  | TText =>
      mkSections (preface s) (introduction s) (description s) (mainText s ++ [it])
        (questions s) (supplementary s) (synopsis s) (notes s) (glossary s) (keyPassages s)
  | TSupplementary =>
      mkSections (preface s) (introduction s) (description s) (mainText s)
        (questions s) (supplementary s ++ [it]) (synopsis s) (notes s) (glossary s) (keyPassages s)
  | TQuestions =>
      mkSections (preface s) (introduction s) (description s) (mainText s)
        (questions s ++ [it]) (supplementary s) (synopsis s) (notes s) (glossary s) (keyPassages s)
  | TSynopsis =>
      mkSections (preface s) (introduction s) (description s) (mainText s)
        (questions s) (supplementary s) (synopsis s ++ [it]) (notes s) (glossary s) (keyPassages s)
  | TNotes =>
      mkSections (preface s) (introduction s) (description s) (mainText s)
        (questions s) (supplementary s) (synopsis s) (notes s ++ [it]) (glossary s) (keyPassages s)
  | TKeyPassages =>
      mkSections (preface s) (introduction s) (description s) (mainText s)
        (questions s) (supplementary s) (synopsis s) (notes s) (glossary s) (keyPassages s ++ [it])
  end.

Definition set_questions (q : list item) (s : sections) : sections :=
  mkSections (preface s) (introduction s) (description s) (mainText s)
    q (supplementary s) (synopsis s) (notes s) (glossary s) (keyPassages s).

(** *** Selectors

    The selectors of the source are constants; each is rendered as a
    predicate on positions.  Type selectors compare the tag name without
    regard to ASCII case, as in an HTML document; class selectors compare
    the white-space separated tokens of the [class] attribute exactly (a
    document in no-quirks mode). *)

Definition tagIs (name : str) (n : node) : bool :=
  match n with
  | Elem t _ _ => str_eqb (toLowerASCII t) name
  | _ => false
  end.

Definition isAsciiSpace (c : char) : bool :=
  (c =? 0x09) || (c =? 0x0A) || (c =? 0x0C) || (c =? 0x0D) || (c =? 0x20).

(** The tokens of a [class] attribute; [cur] is the token being read, in
    reverse. *)
Fixpoint tokens_from (cur : str) (s : str) : list str :=
  match s with
  | [] => match cur with [] => [] | _ => [rev cur] end
  | c :: t =>
      if isAsciiSpace c
      then match cur with [] => tokens_from [] t | _ => rev cur :: tokens_from [] t end
      else tokens_from (c :: cur) t
  end.

Definition hasClass (c : str) (n : node) : bool :=
  match getAttribute n (lit "class") with
  | Some v => str_mem c (tokens_from [] v)
  | None => false
  end.

Inductive selector : Type :=
| SelDivDd        (* 'div.dd' *)
| SelPLiDiv       (* 'p, li, div' *)
| SelP            (* 'p' *)
| SelSpanJb       (* 'span.jb' *)
| SelNavGc        (* 'nav.gc' *)
| SelHashLink     (* 'a[href^="#"]' *)
| SelBlock.       (* 'p, div > div, table, ul, ol, section, article' *)

Definition parentIs (name : str) (l : loc) : bool :=
  match ups l with
  | f :: _ => str_eqb (toLowerASCII (f_tag f)) name
  | [] => false
  end.

(** [el.matches(selector)] *)
Definition matches (sel : selector) (l : loc) : bool :=
  let n := here l in
  match sel with
  | SelDivDd => tagIs (lit "div") n && hasClass (lit "dd") n
  | SelPLiDiv => tagIs (lit "p") n || tagIs (lit "li") n || tagIs (lit "div") n
  | SelP => tagIs (lit "p") n
  | SelSpanJb => tagIs (lit "span") n && hasClass (lit "jb") n
  | SelNavGc => tagIs (lit "nav") n && hasClass (lit "gc") n
  | SelHashLink =>
      tagIs (lit "a") n &&
      match getAttribute n (lit "href") with
      | Some v => startsWith (lit "#") v
      | None => false
      end
  | SelBlock =>
      tagIs (lit "p") n || (tagIs (lit "div") n && parentIs (lit "div") l) ||
      tagIs (lit "table") n || tagIs (lit "ul") n || tagIs (lit "ol") n ||
      tagIs (lit "section") n || tagIs (lit "article") n
  end.

(** [document.querySelector(sel)] *)
Definition querySelector (d : document) (sel : selector) : option loc :=
  find (matches sel) (doc_locs d).

(** [el.querySelectorAll(sel)] and [el.querySelector(sel)] *)
Definition querySelectorAll_in (el : loc) (sel : selector) : list loc :=
  filter (matches sel) (descendants el).

Definition querySelector_in (el : loc) (sel : selector) : option loc :=
  find (matches sel) (descendants el).

(** [recv.slice(1)]: a method call on [null] throws. *)
Definition slice1_of (recv : option str) : result str :=
  match recv with
  | Some s => Ok (tl s)
  | None => Throw TypeError
  end.

Fixpoint mapM {A B : Type} (f : A -> result B) (l : list A) : result (list B) :=
  match l with
  | [] => Ok []
  | x :: rest => y <- f x ;; ys <- mapM f rest ;; Ok (y :: ys)
  end.

Fixpoint dropWhile {A : Type} (f : A -> bool) (l : list A) : list A :=
  match l with
  | [] => []
  | x :: rest => if f x then dropWhile f rest else l
  end.

Definition last_item (l : list item) : option item :=
  match rev l with
  | it :: _ => Some it
  | [] => None
  end.

(** [a !== b] on the [n] of two items: a number and a string are never
    strictly equal. *)
Definition ord_eqb (a b : ordinal) : bool :=
  match a, b with
  | NumOrd x, NumOrd y => (x =? y)%Z
  | StrOrd x, StrOrd y => str_eqb x y
  | _, _ => false
  end.

(** [parseInt(m[1], 10)] for a match of [re_numOnly] or [re_numAtStart]:
    group 1 of these patterns is one to three digits, so the result is a
    number ([0] stands for the [NaN] that cannot arise). *)
Definition capturedNumber (mt : rmatch) : Z :=
  num_or (parseInt (or_empty (m_group mt))) 0.

(** *** The question and answer grouping *)

(** The variables of the questions pass; [emitted] is
    [sections.questions]. *)
Record qaState : Type := mkQa {
  currentNum : option str;
  prevNum : Z;
  pendingQueue : list Z;
  currentText : str;
  emitted : list item
}.

(** [flush] *)
Definition flush (st : qaState) : qaState :=
  match currentNum st with
  | Some num =>
      if (0 <? length (trim (currentText st)))%nat
      then mkQa None (num_or (parseInt num) (prevNum st)) (pendingQueue st) []
                (emitted st ++ [mkItem (StrOrd num) (cleanText (currentText st))])
      else mkQa None (prevNum st) (pendingQueue st) [] (emitted st)
  | None => mkQa None (prevNum st) (pendingQueue st) [] (emitted st)
  end.

(** [cleanText(extractTextWithFormatting(p))] followed by
    [stripLeadingNumber]. *)
Definition blockText (p : loc) : result str :=
  t <- extractTextWithFormatting (Some (here p)) ;;
  Ok (stripLeadingNumber (cleanText t)).

(** The body of [for (const p of parasBetween)] in the questions pass. *)
Definition qaStep (st : qaState) (p : loc) : result qaState :=
  let rawText := trim (textContent (here p)) in
  let numOnly := exec false re_numOnly rawText in
  let numAtStart := exec false re_numAtStart rawText in
  let isQuestion := test true re_isQuestion rawText in
  let isAnswer := test true re_isAnswer rawText in
  match numOnly with
  | Some mt =>
      Ok (mkQa (currentNum st) (prevNum st)
            (pendingQueue st ++ [capturedNumber mt]) (currentText st) (emitted st))
  | None =>
      if isQuestion then
        let st1 := flush st in
        let '(n, queue) :=
          match numAtStart with
          | Some mt => (capturedNumber mt, pendingQueue st1)
          | None =>
              match pendingQueue st1 with
              | q :: rest => (q, rest)
              | [] => ((prevNum st1 + 1)%Z, [])
              end
          end in
        let queue := dropWhile (Z.eqb n) queue in
        t <- blockText p ;;
        Ok (mkQa (Some (String_of n)) (prevNum st1) queue t (emitted st1))
      else if isAnswer && is_some (currentNum st) then
        t <- blockText p ;;
        Ok (mkQa (currentNum st) (prevNum st) (pendingQueue st)
              (currentText st ++ lit " " ++ t) (emitted st))
      else
        let continuation (st : qaState) : result qaState :=
          if is_some (currentNum st) then
            t <- blockText p ;;
            Ok (if truthy t
                then mkQa (currentNum st) (prevNum st) (pendingQueue st)
                       (currentText st ++ lit " " ++ t) (emitted st)
                else st)
          else Ok st in
        if negb (is_some (currentNum st)) && negb isAnswer then
          let '(impliedNum, queue) :=
            match numAtStart with
            | Some mt => (Some (capturedNumber mt), pendingQueue st)
            | None =>
                match pendingQueue st with
                | q :: rest => (Some q, rest)
                | [] => (None, [])
                end
            end in
          match impliedNum with
          | Some n =>
              let st1 := flush (mkQa (currentNum st) (prevNum st) queue
                                  (currentText st) (emitted st)) in
              let queue := dropWhile (Z.eqb n) (pendingQueue st1) in
              t <- blockText p ;;
              if truthy t && (2 <? length t)%nat
              then Ok (mkQa (Some (String_of n)) (prevNum st1) queue t (emitted st1))
              else Ok (mkQa None (prevNum st1) queue [] (emitted st1))
          | None =>
              continuation (mkQa (currentNum st) (prevNum st) queue
                              (currentText st) (emitted st))
          end
        else continuation st
  end.

Fixpoint qaLoop (st : qaState) (parasBetween : list loc) : result qaState :=
  match parasBetween with
  | [] => Ok st
  | p :: rest => st' <- qaStep st p ;; qaLoop st' rest
  end.

(** The loop [while (pendingQueue.length) { ... }] after the last block
    (its assignment to [prevNum], which nothing reads afterwards, is left
    out). *)
Fixpoint drain (queue : list Z) (out : list item) : list item :=
  match queue with
  | [] => out
  | n :: rest =>
      let fresh :=
        match last_item out with
        | None => true
        | Some it => negb (ord_eqb (item_n it) (StrOrd (String_of n)))
        end in
      drain rest (if fresh then out ++ [mkItem (StrOrd (String_of n)) []] else out)
  end.

(** The questions pass over the blocks of one range: [qs] is
    [sections.questions] before the pass, the result is that list after. *)
Definition questionsPass (qs : list item) (parasBetween : list loc)
    : result (list item) :=
  st <- qaLoop (mkQa None 0 [] [] qs) parasBetween ;;
  let st := flush st in
  Ok (drain (pendingQueue st) (emitted st)).

(** *** Navigation ranges *)

(** The selector engine of the host, for the one selector the code
    builds from data: [selectorOf id] is the engine's reading of the text
    [a[id="${id}"]], which is [None] when the engine rejects the text, and
    else the test of the elements the selector denotes.  The [id] is pasted
    into the text as it is, so an [id] that holds a quote can close the
    attribute value and go on with a selector of its own: the elements
    denoted need not be [a] elements, nor carry that [id]. *)
Definition selectorEngine : Type := str -> option (loc -> bool).

(** The reading of the text for an [id] that holds no quote, backslash or
    line break: the [a] elements whose [id] attribute is that string. *)
Definition plainEngine : selectorEngine :=
  fun id =>
    Some (fun l => tagIs (lit "a") (here l) &&
                   match getAttribute (here l) (lit "id") with
                   | Some x => str_eqb x id
                   | None => false
                   end).

Section Navigation.
(** Two operations of the host are taken as given: [toLowerCase] with the
    full Unicode case mapping, and the selector engine. *)
Variable toLowerCase : str -> str.
Variable selectorOf : selectorEngine.

Variable d : document.

Definition kitab_label : str := lit "the kit" ++ [a_acute] ++ lit "b-i-aqdas".

(** [mapLabel]: the pair is [{ type, head }]. *)
Definition mapLabel (label : str) : option (sectionType * str) :=
  let l := toLowerCase label in
  if startsWith (lit "preface") l then Some (TPreface, label)
  else if startsWith (lit "introduction") l then Some (TIntroduction, label)
  else if startsWith (lit "a description") l then Some (TDescription, label)
  else if str_eqb l kitab_label then Some (TText, label)
  else if startsWith (lit "some supplementary") l then Some (TSupplementary, label)
  else if startsWith (lit "questions and answers") l then Some (TQuestions, label)
  else if startsWith (lit "a synopsis") l then Some (TSynopsis, label)
  else if str_eqb l (lit "notes") then Some (TNotes, label)
  else if startsWith (lit "key to passages") l then Some (TKeyPassages, label)
  else None.

(** [document.querySelector(`a[id="${id}"]`)]: the first element of the
    document, in document order, that the selector denotes. *)
Definition queryAnchorById (id : str) : result (option loc) :=
  match selectorOf id with
  | None => Throw SyntaxError
  | Some sel =>
      Ok (find (fun l => isElement (here l) && sel l) (doc_locs d))
  end.

(** The loop of [collectElementsBetween]. *)
Fixpoint walkLoop (fuel : nat) (endAnchor : option loc) (sel : selector)
    (out : list loc) (node : option loc) : result (list loc) :=
  match node with
  | None => Ok out
  | Some nd =>
      if same_node nd endAnchor then Ok out
      else
        match fuel with
        | O => Throw OutOfFuel
        | S fuel' =>
            walkLoop fuel' endAnchor sel
              (if isElement (here nd) && matches sel nd then out ++ [nd] else out)
              (nextNode (Some nd))
        end
  end.

(** [collectElementsBetween]: [endId] is a string or [null]. *)
Definition collectElementsBetween (startId : str) (endId : option str)
    (sel : selector) : result (list loc) :=
  startAnchor <- queryAnchorById startId ;;
  match startAnchor with
  | None => Ok []
  | Some start =>
      endAnchor <- (if truthy_opt endId then queryAnchorById (or_empty endId)
                    else Ok None) ;;
      walkLoop (S (remaining start)) endAnchor sel [] (nextNode (Some start))
  end.

(** One entry of [mapped]: [{ id, label, map }]. *)
Record navEntry : Type := mkNav {
  nav_id : str;
  nav_label : str;
  nav_map : sectionType * str
}.

(** [sectionOrder], then [mapped]. *)
Definition sectionOrder (nav : loc) : result (list (str * str)) :=
  mapM (fun a =>
          target <- slice1_of (getAttribute (here a) (lit "href")) ;;
          Ok (target, trim (textContent (here a))))
       (querySelectorAll_in nav SelHashLink).

Definition mapped (order : list (str * str)) : list navEntry :=
  flat_map (fun e => match mapLabel (snd e) with
                     | Some mp => [mkNav (fst e) (snd e) mp]
                     | None => []
                     end) order.

(** The body of [for (const div of noteDivs)]. *)
Definition noteStep (s : sections) (div : loc) : result sections :=
  match querySelector_in div SelSpanJb with
  | None => Ok s
  | Some titleSpan =>
      let titleText := trim (textContent (here titleSpan)) in
      let noteNum :=
        match exec false re_leadingDigits titleText with
        | Some mt => or_empty (m_group mt)
        | None => []
        end in
      noteText <-
        fold_left (fun acc p =>
                     a <- acc ;;
                     t <- extractTextWithFormatting (Some (here p)) ;;
                     Ok (a ++ lit " " ++ t))
                  (querySelectorAll_in div SelP) (Ok []) ;;
      Ok (if truthy (trim noteText)
          then push_section TNotes (mkItem (StrOrd noteNum) (cleanText noteText)) s
          else s)
  end.

(** [hasBlockChild] *)
Definition hasBlockChild (el : loc) : bool :=
  is_some (querySelector_in el SelBlock).

(** The filter that keeps the paragraph-like candidates of the questions
    section. *)
Definition isQuestionBlock (el : loc) : bool :=
  let cls := or_empty (getAttribute (here el) (lit "class")) in
  if test false re_word_dd cls then false
  else if test false re_word_ic cls then false
  else
    if tagIs (lit "p") (here el) || tagIs (lit "li") (here el) then true
    else if tagIs (lit "div") (here el) && negb (hasBlockChild el) then true
    else false.

(** The loop [for (let i = startIndex; ...)] of the general extraction. *)
Fixpoint generalLoop (ty : sectionType) (counter : Z) (s : sections)
    (ps : list loc) : result sections :=
  match ps with
  | [] => Ok s
  | p :: rest =>
      t <- extractTextWithFormatting (Some (here p)) ;;
      let text := cleanText t in
      let text := match ty with TText => stripLeadingNumber text | _ => text end in
      if negb (truthy text) || (length text <? 3)%nat
      then generalLoop ty counter s rest
      else generalLoop ty (counter + 1)
             (push_section ty (mkItem (NumOrd counter) text) s) rest
  end.

(** The body of [for (let i = 0; i < mapped.length; i++)]: [e] is
    [mapped[i]] and [nextId] the [id] of [mapped[i+1]], or [null]. *)
Definition navStep (s : sections) (e : navEntry) (nextId : option str)
    : result sections :=
  match fst (nav_map e) with
  | TNotes =>
      noteDivs <- collectElementsBetween (nav_id e) nextId SelDivDd ;;
      fold_left (fun acc div => s' <- acc ;; noteStep s' div) noteDivs (Ok s)
  | TQuestions =>
      candidates <- collectElementsBetween (nav_id e) nextId SelPLiDiv ;;
      let parasBetween := filter isQuestionBlock candidates in
      q <- questionsPass (questions s) parasBetween ;;
      Ok (set_questions q s)
  | ty =>
      parasBetween <- collectElementsBetween (nav_id e) nextId SelP ;;
      let skipFirst :=
        match ty, parasBetween with
        | TText, p0 :: _ =>
            startsWith (lit "in the name of")
              (toLowerCase (trim (textContent (here p0))))
        | _, _ => false
        end in
      generalLoop ty 1 s (if skipFirst then tl parasBetween else parasBetween)
  end.

Fixpoint navLoop (s : sections) (entries : list navEntry) : result sections :=
  match entries with
  | [] => Ok s
  | e :: rest =>
      let nextId := match rest with e' :: _ => Some (nav_id e') | [] => None end in
      s' <- navStep s e nextId ;;
      navLoop s' rest
  end.

(** The code after the legacy block. *)
Definition navigationSections : result sections :=
  match querySelector d SelNavGc with
  | None => Ok empty_sections
  | Some nav =>
      order <- sectionOrder nav ;;
      navLoop empty_sections (mapped order)
  end.

(** [parseDocument] *)
Definition parseDocument : result sections :=
  if legacyHasContent d then legacySections (anchorMap d)
  else navigationSections.
End Navigation.

(** ** Predicates of the specification *)

(** Two adjacent white-space code units somewhere in the string. *)
Fixpoint ws_run (s : str) : bool :=
  match s with
  | c1 :: t =>
      match t with
      | c2 :: _ => (isWhiteSpace c1 && isWhiteSpace c2) || ws_run t
      | [] => false
      end
  | [] => false
  end.

(** The string [pat] occurs in [s]. *)
Fixpoint occursb (pat s : str) : bool :=
  startsWith pat s ||
  match s with
  | [] => false
  | _ :: t => occursb pat t
  end.

Definition starts_with_ws (s : str) : bool :=
  match s with c :: _ => isWhiteSpace c | [] => false end.

Definition ends_with_ws (s : str) : bool := starts_with_ws (rev s).

(** The section families of Strategy A. *)
Inductive family : Type :=
| FPreface | FIntroduction | FDescription | FMainText | FQuestions | FNotes.



Definition family_items (fam : family) (s : sections) : list item :=
  match fam with
  | FPreface => preface s
  | FIntroduction => introduction s
  | FDescription => description s
  | FMainText => mainText s
  | FQuestions => questions s
  | FNotes => notes s
  end.





(** An item of the introduction scan over the base ordinals from [lo] to
    [hi]: its [n] is a base ordinal of that range followed by one of the
    three suffixes, and the marker of that very name is in the catalog. *)
Definition intro_item (amap : Map) (lo hi : Z) (it : item) : Prop :=
  exists j suf,
    (lo <= j <= hi)%Z /\ In suf [[]; lit "b"; lit "c"] /\
    item_n it = StrOrd (String_of j ++ suf) /\
    Map_has amap (introName j suf) = true.


(** ** Sample documents *)

(** The document of a page with the given content of [<body>]: a document
    type node, then [<html>] with [<head>] and [<body>]. *)
Definition page (body : list node) : document :=
  [ Other (lit "html");
    Elem (lit "HTML") [] [ Elem (lit "HEAD") [] []; Elem (lit "BODY") [] body ] ].

Definition anchor (name : str) : node := Elem (lit "A") [(lit "name", name)] [].
Definition para (cs : list node) : node := Elem (lit "P") [] cs.

(** A block of the questions section holding plain text. *)
Definition block (t : str) : loc := mkLoc (para [Text t]) [] [] [].

(** [<p><a name="par1"></a>A</p><p><a name="par2"></a>B</p>] *)
Definition doc_two_paragraphs : document :=
  page [ para [anchor (lit "par1"); Text (lit "A")];
         para [anchor (lit "par2"); Text (lit "B")] ].

(** [<a name="par1"></a>A<p>B<a name="par2"></a>C</p>] *)
Definition doc_marker_inside : document :=
  page [ anchor (lit "par1"); Text (lit "A");
         para [Text (lit "B"); anchor (lit "par2"); Text (lit "C")] ].

(** Markers [pref1], [pref3], [intro1] and [intro3], without [pref2] and
    [intro2]. *)
Definition doc_gaps : document :=
  page [ anchor (lit "pref1"); Text (lit "P one");
         anchor (lit "pref3"); Text (lit "P three");
         anchor (lit "intro1"); Text (lit "I one");
         anchor (lit "intro3"); Text (lit "I three") ].

(** A document with the marker [pref1] and a navigation block. *)
Definition doc_both : document :=
  page [ Elem (lit "NAV") [(lit "class", lit "gc")]
           [ Elem (lit "A") [(lit "href", lit "#s1")] [Text (lit "Preface")] ];
         Elem (lit "DIV") []
           [ Elem (lit "A") [(lit "id", lit "s1")] [];
             anchor (lit "pref1");
             para [Text (lit "Some text")] ] ].

(** The same document without the marker. *)
Definition doc_nav_only : document :=
  page [ Elem (lit "NAV") [(lit "class", lit "gc")]
           [ Elem (lit "A") [(lit "href", lit "#s1")] [Text (lit "Preface")] ];
         Elem (lit "DIV") []
           [ Elem (lit "A") [(lit "id", lit "s1")] [];
             para [Text (lit "Some text")] ] ].

(** A document with neither markers nor navigation block. *)
Definition doc_plain : document :=
  page [ Elem (lit "DIV") [(lit "id", lit "main")] [ para [Text (lit "Some text")] ] ].

(** A computation returns a value: it neither throws nor exhausts the
    loop bound of the model. *)
Definition returns {A : Type} (c : result A) : Prop := exists a, c = Ok a.

(** The nodes still to visit from a position that may be [null]. *)
Definition todo (node : option loc) : nat :=
  match node with
  | Some l => S (remaining l)
  | None => O
  end.

(** No code unit of the string is white space. *)
Definition no_ws (e : str) : bool := forallb (fun c => negb (isWhiteSpace c)) e.


(** A pattern without capturing group. *)
Fixpoint groupless (r : regex) : bool :=
  match r with
  | Seq a b | Alt a b => groupless a && groupless b
  | Opt a => groupless a
  | Group _ => false
  | _ => true
  end.

(** The positions of a list follow one another by [nextNode], and [final]
    follows the last. *)
Fixpoint chained (L : list loc) (final : option loc) : Prop :=
  match L with
  | [] => True
  | l :: t =>
      nextNode (Some l) = match t with l' :: _ => Some l' | [] => final end /\
      chained t final
  end.

(** * Further predicates *)

(** Strictly increasing numbers. *)
Fixpoint increasing (l : list Z) : Prop :=
  match l with
  | [] => True
  | x :: t =>
      match t with
      | [] => True
      | y :: _ => (x < y)%Z /\ increasing t
      end
  end.

(** The number of an item whose [n] is a number. *)
Definition item_number (it : item) : option Z :=
  match item_n it with
  | NumOrd i => Some i
  | StrOrd _ => None
  end.

(** The code units a pattern can consume. *)
Fixpoint alphabet (icase : bool) (r : regex) (c : char) : bool :=
  match r with
  | Cls cl | Rep cl _ _ => class_mem icase cl c
  | Seq a b | Alt a b => alphabet icase a c || alphabet icase b c
  | Opt a | Group a => alphabet icase a c
  | _ => false
  end.

(** The code units of a leading numeric label: white space, digits, the
    brackets [(] and [[] and the marks [.], [:], [)] and []]. *)
Definition isLabelChar (c : char) : bool :=
  isWhiteSpace c || isDigit c || existsb (N.eqb c) (lit "([.:)]").

(** A text as [cleanText] leaves it: trimmed, with plain spaces as only
    white space, none of them adjacent, and without the text "&nbsp;". *)
Definition clean (t : str) : Prop :=
  starts_with_ws t = false /\ ends_with_ws t = false /\
  (forall c, In c t -> isWhiteSpace c = true -> c = space) /\
  ws_run t = false /\
  occursb (lit "&nbsp;") t = false.

(** A text with some content and with plain spaces as only white space. *)
Definition plain_text (t : str) : Prop :=
  t <> [] /\ forall c, In c t -> isWhiteSpace c = true -> c = space.

(** [sections[type]] *)
Definition get_section (ty : sectionType) (s : sections) : list item :=
  match ty with
  | TPreface => preface s
  | TIntroduction => introduction s
  | TDescription => description s
  | TText => mainText s
  | TSupplementary => supplementary s
  | TQuestions => questions s
  | TSynopsis => synopsis s
  | TNotes => notes s
  | TKeyPassages => keyPassages s
  end.

(** The texts [ts] as items numbered [c], [c+1], ... *)
Fixpoint number_from (c : Z) (ts : list str) : list item :=
  match ts with
  | [] => []
  | t :: rest => mkItem (NumOrd c) t :: number_from (c + 1) rest
  end.

(** The positions of a list that come before the node [endA]. *)
Fixpoint until (endA : option loc) (L : list loc) : list loc :=
  match L with
  | [] => []
  | l :: rest => if same_node l endA then [] else l :: until endA rest
  end.


(** An item numbered by the decimal numeral of a natural number. *)
Definition decimal_item (it : item) : Prop :=
  exists n : Z, (0 <= n)%Z /\ item_n it = StrOrd (String_of n).

(** What the variables of the questions pass satisfy after [k] blocks, when
    [sections.questions] was [qs] before the pass: the list only grew, by
    items numbered in decimal; the items emitted, the numbers queued and
    the item in progress are at most [k] together. *)
Definition qa_ok (qs : list item) (k : nat) (cur : option str) (prev : Z)
    (queue : list Z) (em : list item) : Prop :=
  (exists new,
      em = qs ++ new /\ Forall decimal_item new /\
      (length new + length queue + (if is_some cur then 1 else 0) <= k)%nat) /\
  Forall (fun n => 0 <= n)%Z queue /\ (0 <= prev)%Z /\
  (forall num, cur = Some num -> exists n, (0 <= n)%Z /\ num = String_of n).

Definition qa_inv (qs : list item) (k : nat) (st : qaState) : Prop :=
  qa_ok qs k (currentNum st) (prevNum st) (pendingQueue st) (emitted st).

(** A block with a [Question] label and no number of its own, whose text
    is not blank. *)
Definition unnumbered_question (p : loc) : bool :=
  let rawText := trim (textContent (here p)) in
  negb (is_some (exec false re_numOnly rawText)) &&
  negb (is_some (exec false re_numAtStart rawText)) &&
  test true re_isQuestion rawText &&
  match blockText p with
  | Ok t => (0 <? length (trim t))%nat
  | Throw _ => false
  end.

(** The items of the blocks [ps], each a question of its own, numbered
    [c], [c+1], ... *)
Fixpoint numbered_questions (c : Z) (ps : list loc) : list item :=
  match ps with
  | [] => []
  | p :: rest =>
      mkItem (StrOrd (String_of c))
             (cleanText (match blockText p with Ok t => t | Throw _ => [] end))
      :: numbered_questions (c + 1) rest
  end.

(** An element that [extractTextWithFormatting] renders with markup of its
    own: the inline formatting elements, [br], and a link whose [href]
    starts with [http]. *)
Definition marks (n : node) : bool :=
  match n with
  | Elem tag attrs _ =>
      existsb (str_eqb (toLowerASCII tag))
        [ lit "i"; lit "em"; lit "b"; lit "strong"; lit "u"; lit "sup";
          lit "sub"; lit "br" ] ||
      (str_eqb (toLowerASCII tag) (lit "a") &&
       match lookup_attr (lit "href") attrs with
       | Some h => truthy h && startsWith (lit "http") h
       | None => false
       end)
  | _ => false
  end.

(** A subtree without such elements. *)
Fixpoint unformatted (n : node) : bool :=
  match n with
  | Elem _ _ cs => negb (marks n) && forallb unformatted cs
  | _ => true
  end.

(** The data of the text nodes below a node, each passed through
    [normalizeText], in document order. *)
Fixpoint normalizedText (n : node) : str :=
  match n with
  | Text d => normalizeText d
  | Other _ => []
  | Elem _ _ cs => flat_map normalizedText cs
  end.

(** No text node below the node holds an entity of the table. *)
Fixpoint entity_free (n : node) : bool :=
  match n with
  | Text d => forallb (fun e => negb (occursb e d)) entity_table
  | Other _ => true
  | Elem _ _ cs => forallb entity_free cs
  end.

(** ** The serialiser: [escapeXML] *)

Definition ampersand : char := 0x26.
Definition less_than : char := 0x3C.
Definition greater_than : char := 0x3E.
Definition semicolon : char := 0x3B.
Definition number_sign : char := 0x23.

(** [[0-9a-fA-F]] *)
Definition CHex : cclass := COneOf (lit "0123456789abcdefABCDEF").

(** [(amp|lt|gt|quot|apos|#\d+|#x[0-9a-fA-F]+);], what the lookahead of
    [/&(?!(amp|lt|gt|quot|apos|#\d+|#x[0-9a-fA-F]+);)/g] looks for. *)
Definition re_entityAhead : regex :=
  cat [ Group
          (Alt (word (lit "amp"))
          (Alt (word (lit "lt"))
          (Alt (word (lit "gt"))
          (Alt (word (lit "quot"))
          (Alt (word (lit "apos"))
          (Alt (cat [Cls (CChar number_sign); plus CDigit])
               (cat [Cls (CChar number_sign); Cls (CChar 0x78); plus CHex])))))));
        Cls (CChar semicolon) ].

(** The lookahead, at the text [t] that follows an ampersand. *)
Definition entityAhead (t : str) : bool :=
  is_some (m false re_entityAhead (Some ampersand) t None
             (fun _ _ _ => Some tt)).

(** [text.replace(/&(?!...)/g, '&amp;')]: the pattern matches one
    ampersand, so the positions are visited one by one, and the lookahead
    reads the text as it was. *)
Fixpoint escapeAmpersands (s : str) : str :=
  match s with
  | [] => []
  | c :: t =>
      if (c =? ampersand) && negb (entityAhead t)
      then lit "&amp;" ++ escapeAmpersands t
      else c :: escapeAmpersands t
  end.

(** The end of the first alternative of [teiTags]: an optional group, made
    of [\s] and a star of the class [[^>]], and then [>].  That class is
    none of [cclass], so this part of the pattern is written out as a
    matcher of its own, with the same priorities: the optional group is
    tried first, and its star the longest run first. *)
Section TagTail.
Context {A : Type}.

Fixpoint m_not_gt_star (s : str) (k : str -> option A) : option A :=
  match s with
  | c :: t =>
      if negb (c =? greater_than)
      then match m_not_gt_star t k with
           | Some x => Some x
           | None => k s
           end
      else k s
  | [] => k s
  end.

Definition m_gt (s : str) (k : str -> option A) : option A :=
  match s with
  | c :: t => if c =? greater_than then k t else None
  | [] => None
  end.

Definition m_tagTail (s : str) (k : str -> option A) : option A :=
  match
    match s with
    | c :: t =>
        if isWhiteSpace c then m_not_gt_star t (fun s' => m_gt s' k) else None
    | [] => None
    end
  with
  | Some x => Some x
  | None => m_gt s k
  end.
End TagTail.

(** [<(hi|ref|\/hi|\/ref)] *)
Definition re_tagHead : regex :=
  cat [ Cls (CChar less_than);
        Group (Alt (word (lit "hi"))
              (Alt (word (lit "ref"))
              (Alt (word (lit "/hi")) (word (lit "/ref"))))) ].

(** [&[a-z]+;|&#\d+;|&#x[0-9a-fA-F]+;] *)
Definition re_entity : regex :=
  Alt (cat [Cls (CChar ampersand); plus (CRange 0x61 0x7A); Cls (CChar semicolon)])
 (Alt (cat [Cls (CChar ampersand); Cls (CChar number_sign); plus CDigit;
            Cls (CChar semicolon)])
      (cat [Cls (CChar ampersand); Cls (CChar number_sign); Cls (CChar 0x78);
            plus CHex; Cls (CChar semicolon)])).

(** One attempt of the pattern [teiTags] at the start of [s]: the tag
    alternative first, then the three reference alternatives.  The result
    is the text after the match.  The pattern has no assertion, so what
    precedes [s] plays no part. *)
Definition teiTags_at (s : str) : option str :=
  match m false re_tagHead None s None (fun _ s' _ => m_tagTail s' Some) with
  | Some rest => Some rest
  | None => m false re_entity None s None (fun _ s' _ => Some s')
  end.

(** [.replace(/</g, '&lt;').replace(/>/g, '&gt;')] *)
Definition escapeAngles (s : str) : str :=
  replaceAll (lit ">") (lit "&gt;") (replaceAll (lit "<") (lit "&lt;") s).

(** The loop [while ((match = teiTags.exec(result)) !== null)] with the
    code after it, and [parts.join('')].  [s] is [result] from the current
    position; [pending] holds, in reverse, the text since [lastIndex];
    [skip] counts the code units of the last match that are still to be
    passed.  At a match the escaped text before it and the match itself
    are appended to the output. *)
Fixpoint escapeLoop (skip : nat) (pending : str) (s : str) : str :=
  match s with
  | [] => escapeAngles (rev pending)
  | c :: t =>
      match skip with
      | S k => escapeLoop k pending t
      | O =>
          match teiTags_at s with
          | Some rest =>
              let len := (length s - length rest)%nat in
              escapeAngles (rev pending) ++ firstn len s
                ++ escapeLoop (Nat.pred len) [] t
          | None => escapeLoop O (c :: pending) t
          end
      end
  end.

(** [escapeXML] *)
Definition escapeXML (text : str) : str :=
  if negb (truthy text) then []
  else escapeLoop 0 [] (escapeAmpersands text).

(** Every ampersand of [s] is followed by what the lookahead of
    [escapeXML] names: an entity or character reference. *)
Fixpoint ampersands_escaped (s : str) : bool :=
  match s with
  | [] => true
  | c :: t => (negb (c =? ampersand) || entityAhead t) && ampersands_escaped t
  end.

(** What [escapeAngles] writes for one code unit. *)
Definition escapeAngle (c : char) : str :=
  if c =? less_than then lit "&lt;"
  else if c =? greater_than then lit "&gt;"
  else [c].

(** The lookahead of [escapeXML], read off its pattern: one of the five
    names, or [#] and digits, or [#x] and hexadecimal digits, and then a
    semicolon. *)
Definition refAhead (t : str) : bool :=
  let semi (s : str) := match s with c :: _ => semicolon =? c | [] => false end in
  let name (w : str) := startsWith w t && semi (skipn (length w) t) in
  let run (cl : cclass) (s : str) :=
    (1 <=? length s - length (dropWhile (class_mem false cl) s))%nat &&
    semi (dropWhile (class_mem false cl) s) in
  name (lit "amp") || (name (lit "lt") || (name (lit "gt") || (name (lit "quot") ||
  (name (lit "apos") ||
   (match t with
    | c :: s => (number_sign =? c) && run CDigit s
    | [] => false
    end ||
    match t with
    | c :: x :: s => (number_sign =? c) && (0x78 =? x) && run CHex s
    | _ => false
    end))))).

(** The four ways a tag kept by [escapeXML] starts. *)
Definition tag_starts : list str :=
  [ lit "<hi"; lit "<ref"; lit "</hi"; lit "</ref" ].

(** ** The serialiser: [generateTEIBody] *)

(** [`${para.n}`]: the [n] of an item as the template writes it. *)
Definition ordinal_text (o : ordinal) : str :=
  match o with
  | NumOrd i => String_of i
  | StrOrd s => s
  end.

(** The line of one item, with [tag] for [p] or [note]:
    [`        <p n="${para.n}">${escapeXML(para.text)}</p>\n`]. *)
Definition item_line (tag : str) (it : item) : str :=
  lit "        <" ++ tag ++ lit " n=" ++ [quotation]
    ++ ordinal_text (item_n it) ++ [quotation] ++ lit ">"
    ++ escapeXML (item_text it) ++ lit "</" ++ tag ++ lit ">" ++ newline.

(** The block of one section: nothing when the section is empty, else the
    opening of the [div], its [head], the lines of the items and the
    closing.  The source writes this block out six times. *)
Definition section_block (type head tag : str) (items : list item) : str :=
  if (0 <? length items)%nat
  then lit "      <div type=" ++ [quotation] ++ type ++ [quotation] ++ lit ">"
         ++ newline
         ++ lit "        <head>" ++ head ++ lit "</head>" ++ newline
         ++ flat_map (item_line tag) items
         ++ lit "      </div>" ++ newline ++ newline
  else [].

(** [generateTEIBody] *)
Definition generateTEIBody (s : sections) : str :=
  lit "  <text>" ++ newline ++ lit "    <body>" ++ newline
    ++ section_block (lit "preface") (lit "Preface") (lit "p") (preface s)
    ++ section_block (lit "introduction") (lit "Introduction") (lit "p")
         (introduction s)
    ++ section_block (lit "description") (lit "Description") (lit "p")
         (description s)
    ++ section_block (lit "main-text")
         (lit "The Kit" ++ [a_acute] ++ lit "b-i-Aqdas") (lit "p") (mainText s)
    ++ section_block (lit "questions-answers") (lit "Questions and Answers")
         (lit "p") (questions s)
    ++ section_block (lit "notes") (lit "Notes") (lit "note") (notes s)
    ++ lit "    </body>" ++ newline ++ lit "  </text>" ++ newline.

(** The code units of the ordinals the parser writes: digits and the
    suffixes [b] and [c] of the introduction. *)
Definition ordinal_char (c : char) : bool :=
  isDigit c || (c =? 0x62) || (c =? 0x63).

Definition plain_ordinal (it : item) : bool :=
  forallb ordinal_char (ordinal_text (item_n it)).

(** Every item of every section has such an ordinal. *)
Definition plain_ordinals (s : sections) : Prop :=
  forall ty, Forall (fun it => plain_ordinal it = true) (get_section ty s).

(** A text the loop of [escapeXML] passes unchanged, after escaping what
    was pending. *)
Definition loop_fixed (y : str) : Prop :=
  forall pending, escapeLoop 0 pending y = escapeAngles (rev pending) ++ y.

(** ** The call stack

    [extractTextWithFormatting] calls itself once for every level of
    element nesting, and the engine gives up with a [RangeError] when too
    many calls are active at once.  The definitions above leave the stack
    out: they give what the code computes when the stack has room.  The
    module [CallStack] has the same functions with the stack: [stack] is
    the number of calls of [extractTextWithFormatting] that the engine has
    room for where [parseDocument] calls it (the few frames by which the
    call sites differ are not told apart).  Everything else is the code of
    the definitions above, word for word. *)

(** The calls of [extractTextWithFormatting] that are active at once on a
    node, at most: one for the node itself, and one more for every level of
    element nesting below it (the children of a [br] element, which has
    none in a parsed page, are counted although they are not visited). *)
Fixpoint nesting (n : node) : nat :=
  match n with
  | Elem _ _ cs => S (list_max (map nesting cs))
  | _ => O
  end.

Definition frames (n : node) : nat := Nat.max 1 (nesting n).

(** [k] [span] elements, one inside the other, around a text. *)
Fixpoint nest (k : nat) : node :=
  match k with
  | O => Text (lit "x")
  | S k' => Elem (lit "SPAN") [] [nest k']
  end.

Module CallStack.

(** [extractTextWithFormatting] on a node that is not [null], with room
    for [stack] calls. *)
Fixpoint extractChildren (stack : nat) (n : node) : result str :=
  match stack with
  | O => Throw RangeError
  | S stack' =>
      match n with
      | Text _ | Other _ => Ok []
      | Elem _ _ childNodes =>
          extractLoop (extractChildren stack') childNodes []
      end
  end.

(** [extractTextWithFormatting]: [None] is a [null] node. *)
Definition extractTextWithFormatting (stack : nat) (node : option node)
    : result str :=
  match stack with
  | O => Throw RangeError
  | S _ =>
      match node with
      | None => Ok []
      | Some n => extractChildren stack n
      end
  end.

Section Stack.
Variable stack : nat.

(** The loop of [collectBetween]; [fuel] bounds the number of iterations. *)
Fixpoint collectLoop (fuel : nat) (endEl : option loc) (text : str)
    (node : option loc) : result str :=
  match node with
  | None => Ok (cleanText text)
  | Some nd =>
      if same_node nd endEl then Ok (cleanText text)
      else
        match fuel with
        | O => Throw OutOfFuel
        | S fuel' =>
            match here nd with
            | Elem _ _ _ =>
                let n := anchorName (here nd) in
                if truthy n && test true anchorPattern n
                then Ok (cleanText text)
                else
                  t <- extractTextWithFormatting stack (Some (here nd)) ;;
                  collectLoop fuel' endEl (text ++ t)
                    (match nextSibling nd with
                     | Some sib => Some sib
                     | None => nextNode (Some nd)
                     end)
            | Text _ =>
                collectLoop fuel' endEl
                  (text ++ normalizeText (textContent (here nd)))
                  (nextNode (Some nd))
            | Other _ => collectLoop fuel' endEl text (nextNode (Some nd))
            end
        end
  end.

(** [collectBetween] *)
Definition collectBetween (startEl : loc) (endEl : option loc) : result str :=
  collectLoop (S (remaining startEl)) endEl [] (nextNode (Some startEl)).

Section Legacy.
Variable amap : Map.

(** The loop of one family without suffixes:
    [for (let i = lo; i <= hi; i++) { ... if (!el) break; ... }], where
    [count] is the number of iterations left.  [strip] tells whether the
    family strips a leading numeric label (main text and questions). *)
Fixpoint scanFamily (prefix : str) (strip : bool) (count : nat) (i : Z)
    (acc : list item) : result (list item) :=
  match count with
  | O => Ok acc
  | S count' =>
      match Map_get amap (prefix ++ String_of i) with
      | None => Ok acc
      | Some el =>
          let nextEl := Map_get amap (prefix ++ String_of (i + 1)) in
          text <- collectBetween el nextEl ;;
          let text :=
            if strip && truthy text then stripLeadingNumber text else text in
          scanFamily prefix strip count' (i + 1)
            (if truthy text then acc ++ [mkItem (NumOrd i) text] else acc)
      end
  end.

(** The body of [for (const suf of ['', 'b', 'c'])] for one suffix. *)
Definition introStep (i : Z) (suf : str) (acc : list item)
    : result (list item) :=
  match Map_get amap (introName i suf) with
  | Some el =>
      let nextName :=
        if str_eqb suf []
        then (if Map_has amap (introName i (lit "b"))
              then introName i (lit "b") else introName (i + 1) [])
        else if str_eqb suf (lit "b")
        then (if Map_has amap (introName i (lit "c"))
              then introName i (lit "c") else introName (i + 1) [])
        else introName (i + 1) [] in
      let nextEl := Map_get amap nextName in
      text <- collectBetween el nextEl ;;
      Ok (if truthy text
          then acc ++ [mkItem (StrOrd (String_of i ++ suf)) text]
          else acc)
  | None => Ok acc
  end.

Fixpoint scanIntro (count : nat) (i : Z) (acc : list item)
    : result (list item) :=
  match count with
  | O => Ok acc
  | S count' =>
      acc1 <- introStep i [] acc ;;
      acc2 <- introStep i (lit "b") acc1 ;;
      acc3 <- introStep i (lit "c") acc2 ;;
      scanIntro count' (i + 1) acc3
  end.

(** The [if (legacyHasContent) { ... return sections; }] block. *)
Definition legacySections : result sections :=
  pref <- scanFamily (lit "pref") false 50 1 [] ;;
  intro <- scanIntro 300 1 [] ;;
  desc <- scanFamily (lit "description") false 100 1 [] ;;
  par <- scanFamily (lit "par") true 1000 1 [] ;;
  q <- scanFamily (lit "q") true 500 1 [] ;;
  note <- scanFamily (lit "note") false 1000 1 [] ;;
  Ok (mkSections pref intro desc par q [] [] note [] []).
End Legacy.

(** [cleanText(extractTextWithFormatting(p))] followed by
    [stripLeadingNumber]. *)
Definition blockText (p : loc) : result str :=
  t <- extractTextWithFormatting stack (Some (here p)) ;;
  Ok (stripLeadingNumber (cleanText t)).

(** The body of [for (const p of parasBetween)] in the questions pass. *)
Definition qaStep (st : qaState) (p : loc) : result qaState :=
  let rawText := trim (textContent (here p)) in
  let numOnly := exec false re_numOnly rawText in
  let numAtStart := exec false re_numAtStart rawText in
  let isQuestion := test true re_isQuestion rawText in
  let isAnswer := test true re_isAnswer rawText in
  match numOnly with
  | Some mt =>
      Ok (mkQa (currentNum st) (prevNum st)
            (pendingQueue st ++ [capturedNumber mt]) (currentText st) (emitted st))
  | None =>
      if isQuestion then
        let st1 := flush st in
        let '(n, queue) :=
          match numAtStart with
          | Some mt => (capturedNumber mt, pendingQueue st1)
          | None =>
              match pendingQueue st1 with
              | q :: rest => (q, rest)
              | [] => ((prevNum st1 + 1)%Z, [])
              end
          end in
        let queue := dropWhile (Z.eqb n) queue in
        t <- blockText p ;;
        Ok (mkQa (Some (String_of n)) (prevNum st1) queue t (emitted st1))
      else if isAnswer && is_some (currentNum st) then
        t <- blockText p ;;
        Ok (mkQa (currentNum st) (prevNum st) (pendingQueue st)
              (currentText st ++ lit " " ++ t) (emitted st))
      else
        let continuation (st : qaState) : result qaState :=
          if is_some (currentNum st) then
            t <- blockText p ;;
            Ok (if truthy t
                then mkQa (currentNum st) (prevNum st) (pendingQueue st)
                       (currentText st ++ lit " " ++ t) (emitted st)
                else st)
          else Ok st in
        if negb (is_some (currentNum st)) && negb isAnswer then
          let '(impliedNum, queue) :=
            match numAtStart with
            | Some mt => (Some (capturedNumber mt), pendingQueue st)
            | None =>
                match pendingQueue st with
                | q :: rest => (Some q, rest)
                | [] => (None, [])
                end
            end in
          match impliedNum with
          | Some n =>
              let st1 := flush (mkQa (currentNum st) (prevNum st) queue
                                  (currentText st) (emitted st)) in
              let queue := dropWhile (Z.eqb n) (pendingQueue st1) in
              t <- blockText p ;;
              if truthy t && (2 <? length t)%nat
              then Ok (mkQa (Some (String_of n)) (prevNum st1) queue t (emitted st1))
              else Ok (mkQa None (prevNum st1) queue [] (emitted st1))
          | None =>
              continuation (mkQa (currentNum st) (prevNum st) queue
                              (currentText st) (emitted st))
          end
        else continuation st
  end.

Fixpoint qaLoop (st : qaState) (parasBetween : list loc) : result qaState :=
  match parasBetween with
  | [] => Ok st
  | p :: rest => st' <- qaStep st p ;; qaLoop st' rest
  end.

(** The questions pass over the blocks of one range: [qs] is
    [sections.questions] before the pass, the result is that list after. *)
Definition questionsPass (qs : list item) (parasBetween : list loc)
    : result (list item) :=
  st <- qaLoop (mkQa None 0 [] [] qs) parasBetween ;;
  let st := flush st in
  Ok (drain (pendingQueue st) (emitted st)).

Section Navigation.
Variable toLowerCase : str -> str.
Variable selectorOf : selectorEngine.
Variable d : document.

(** The body of [for (const div of noteDivs)]. *)
Definition noteStep (s : sections) (div : loc) : result sections :=
  match querySelector_in div SelSpanJb with
  | None => Ok s
  | Some titleSpan =>
      let titleText := trim (textContent (here titleSpan)) in
      let noteNum :=
        match exec false re_leadingDigits titleText with
        | Some mt => or_empty (m_group mt)
        | None => []
        end in
      noteText <-
        fold_left (fun acc p =>
                     a <- acc ;;
                     t <- extractTextWithFormatting stack (Some (here p)) ;;
                     Ok (a ++ lit " " ++ t))
                  (querySelectorAll_in div SelP) (Ok []) ;;
      Ok (if truthy (trim noteText)
          then push_section TNotes (mkItem (StrOrd noteNum) (cleanText noteText)) s
          else s)
  end.

(** The loop [for (let i = startIndex; ...)] of the general extraction. *)
Fixpoint generalLoop (ty : sectionType) (counter : Z) (s : sections)
    (ps : list loc) : result sections :=
  match ps with
  | [] => Ok s
  | p :: rest =>
      t <- extractTextWithFormatting stack (Some (here p)) ;;
      let text := cleanText t in
      let text := match ty with TText => stripLeadingNumber text | _ => text end in
      if negb (truthy text) || (length text <? 3)%nat
      then generalLoop ty counter s rest
      else generalLoop ty (counter + 1)
             (push_section ty (mkItem (NumOrd counter) text) s) rest
  end.

(** The body of [for (let i = 0; i < mapped.length; i++)]: [e] is
    [mapped[i]] and [nextId] the [id] of [mapped[i+1]], or [null]. *)
Definition navStep (s : sections) (e : navEntry) (nextId : option str)
    : result sections :=
  match fst (nav_map e) with
  | TNotes =>
      noteDivs <- collectElementsBetween selectorOf d (nav_id e) nextId SelDivDd ;;
      fold_left (fun acc div => s' <- acc ;; noteStep s' div) noteDivs (Ok s)
  | TQuestions =>
      candidates <- collectElementsBetween selectorOf d (nav_id e) nextId SelPLiDiv ;;
      let parasBetween := filter isQuestionBlock candidates in
      q <- questionsPass (questions s) parasBetween ;;
      Ok (set_questions q s)
  | ty =>
      parasBetween <- collectElementsBetween selectorOf d (nav_id e) nextId SelP ;;
      let skipFirst :=
        match ty, parasBetween with
        | TText, p0 :: _ =>
            startsWith (lit "in the name of")
              (toLowerCase (trim (textContent (here p0))))
        | _, _ => false
        end in
      generalLoop ty 1 s (if skipFirst then tl parasBetween else parasBetween)
  end.

Fixpoint navLoop (s : sections) (entries : list navEntry) : result sections :=
  match entries with
  | [] => Ok s
  | e :: rest =>
      let nextId := match rest with e' :: _ => Some (nav_id e') | [] => None end in
      s' <- navStep s e nextId ;;
      navLoop s' rest
  end.

(** The code after the legacy block. *)
Definition navigationSections : result sections :=
  match querySelector d SelNavGc with
  | None => Ok empty_sections
  | Some nav =>
      order <- sectionOrder nav ;;
      navLoop empty_sections (mapped toLowerCase order)
  end.

(** [parseDocument] *)
Definition parseDocument : result sections :=
  if legacyHasContent d then legacySections (anchorMap d)
  else navigationSections.
End Navigation.
End Stack.
End CallStack.

(** What the functions of [CallStack] compute, against the functions
    without the stack: the same value or the same exception, unless the
    stack runs out. *)
Definition refines {A : Type} (withStack without : result A) : Prop :=
  match withStack with
  | Ok a => without = Ok a
  | Throw RangeError => True
  | Throw e => without = Throw e
  end.

(** The top-level nodes of the document a position lies in: the siblings
    [sibs] of the position, put back under its ancestors. *)
Fixpoint plug_up (sibs : list node) (us : list frame) : list node :=
  match us with
  | [] => sibs
  | f :: fs =>
      plug_up (rev (f_lefts f) ++ Elem (f_tag f) (f_attrs f) sibs :: f_rights f)
              fs
  end.

Definition doc_of (l : loc) : document :=
  plug_up (rev (lefts l) ++ here l :: rights l) (ups l).

(** No node of the document needs more than [stack] calls. *)
Definition shallow (stack : nat) (d : document) : bool :=
  forallb (fun n => (frames n <=? stack)%nat) d.

(** ** Leading numeric labels

    What [stripLeadingNumber] is there to remove, by its comment: "a
    leading numeric label like "1.", "(1)", "[1]", "1)" [...] with optional
    surrounding spaces".  The two definitions below read a text from the
    left, without a pattern. *)

(** [(] and [[] *)
Definition isOpening (c : char) : bool := (c =? 0x28) || (c =? 0x5B).

(** [.], [:], [)] and []] *)
Definition isClosing (c : char) : bool :=
  (c =? 0x2E) || (c =? 0x3A) || (c =? 0x29) || (c =? 0x5D).

(** The text after white space and at most one opening bracket with the
    white space that follows it. *)
Definition afterOpening (s : str) : str :=
  match dropWhile isWhiteSpace s with
  | c :: t => if isOpening c then dropWhile isWhiteSpace t else c :: t
  | [] => []
  end.

(** The text carries a leading number: after white space and at most one
    opening bracket, it begins with a digit ("1.x" and "(12)x" do). *)
Definition beginsWithNumber (s : str) : bool :=
  match afterOpening s with
  | c :: _ => isDigit c
  | [] => false
  end.

(** What may follow a label: the end of the text, or white space, which
    goes with the label. *)
Definition labelEnd (s : str) : option str :=
  match s with
  | [] => Some []
  | c :: _ => if isWhiteSpace c then Some (dropWhile isWhiteSpace s) else None
  end.

(** The text after a number of one to three digits, possibly followed by
    white space and one of the marks [.], [:], [)], []], and then by white
    space or the end of the text; the mark belongs to the label whenever
    white space or the end follows it. *)
Definition afterNumber (s : str) : option str :=
  let rest := dropWhile isDigit s in
  let digits := (length s - length rest)%nat in
  if (1 <=? digits)%nat && (digits <=? 3)%nat then
    match
      match dropWhile isWhiteSpace rest with
      | c :: t => if isClosing c then labelEnd t else None
      | [] => None
      end
    with
    | Some after => Some after
    | None => labelEnd rest
    end
  else None.

(** The text after a leading numeric label that is set off from the text:
    white space, at most one opening bracket, white space, a number of one
    to three digits with its mark, and white space or the end of the text.
    [None] when the text does not begin with such a label. *)
Definition afterLabel (s : str) : option str := afterNumber (afterOpening s).

(** The part of the pattern after the number. *)
Definition re_labelTail : regex :=
  cat [ Opt (cat [star CSpace; Cls (COneOf (lit ".:)]"))]);
        Alt (plus CSpace) Eol ].

(** The pattern from the opening bracket on. *)
Definition re_labelOpening : regex :=
  cat [ Opt (Cls (COneOf (lit "([")));
        star CSpace; Rep CDigit 1 (Some 3%nat);
        Opt (cat [star CSpace; Cls (COneOf (lit ".:)]"))]);
        Alt (plus CSpace) Eol ].

(** The pattern after [^]. *)
Definition re_labelBody : regex :=
  cat [ star CSpace; Opt (Cls (COneOf (lit "([")));
        star CSpace; Rep CDigit 1 (Some 3%nat);
        Opt (cat [star CSpace; Cls (COneOf (lit ".:)]"))]);
        Alt (plus CSpace) Eol ].

(** The string the extractor returns on a block (it returns on every
    block when the stack has room). *)
Definition extracted (p : loc) : str :=
  match extractTextWithFormatting (Some (here p)) with
  | Ok t => t
  | Throw _ => []
  end.

(** The text the general extraction takes from a block:
    [cleanText(extractTextWithFormatting(p))], without its leading label in
    the main text. *)
Definition generalText (ty : sectionType) (p : loc) : str :=
  let text := cleanText (extracted p) in
  match ty with TText => stripLeadingNumber text | _ => text end.

(** The texts the general extraction keeps, in the order of the blocks:
    those that pass [if (!text || text.length < 3) continue]. *)
Definition keptTexts (ty : sectionType) (ps : list loc) : list str :=
  filter (fun text => negb (negb (truthy text) || (length text <? 3)%nat))
         (map (generalText ty) ps).

(** The text begins with a decimal digit. *)
Definition beginsWithDigit (n : str) : bool :=
  match n with c :: _ => isDigit c | [] => false end.

(** The [n] of an item of the section [ty]: a decimal number; in the
    introduction the number may be followed by the suffix [b] or [c]; in
    the notes it may be missing altogether. *)
Definition ordinal_shape (ty : sectionType) (n : str) : bool :=
  match ty with
  | TNotes => forallb isDigit n
  | TIntroduction =>
      beginsWithDigit n &&
      (let suffix := dropWhile isDigit n in
       str_eqb suffix [] || str_eqb suffix (lit "b") || str_eqb suffix (lit "c"))
  | _ => beginsWithDigit n && forallb isDigit n
  end.

(** A property [Q] of the items, section by section, holds of a model. *)
Definition sections_all (Q : sectionType -> item -> Prop) (s : sections) : Prop :=
  forall ty, Forall (Q ty) (get_section ty s).

(** * Properties *)

(** ** The definitions on small inputs *)

Example anchorPattern_examples :
  map (test true anchorPattern)
    [ lit "pref1"; lit "PREF12"; lit "intro12b"; lit "intro12d"; lit "q";
      lit "par1x"; lit "note7"; lit " par1" ]
  = [ true; true; true; false; false; false; true; false ].
Proof. reflexivity. Qed.

Example stripLeadingNumber_examples :
  map stripLeadingNumber
    [ lit "1. In the name"; lit "(12) foo"; lit "[3] bar"; lit "10."; lit "7";
      lit "1234 foo"; lit "10.a"; lit "12.5 apples"; lit "foo 1." ]
  = [ lit "In the name"; lit "foo"; lit "bar"; []; [];
      lit "1234 foo"; lit "10.a"; lit "12.5 apples"; lit "foo 1." ].
Proof. reflexivity. Qed.

Example class_word_examples :
  map (test false re_word_dd) [ lit "dd"; lit "add"; lit "a dd b"; lit "dd-x"; lit "ddd" ]
  = [ true; false; true; true; false ].
Proof. reflexivity. Qed.

Example cleanText_examples :
  map cleanText [ lit "  a   b  "; [0x09; 0x61; 0xA0; 0x0A; 0x62]; lit "a&nbsp;b"; [] ]
  = [ lit "a b"; lit "a b"; lit "a b"; [] ].
Proof. reflexivity. Qed.

Example parseInt_examples :
  map parseInt [ lit "12"; lit " 007"; lit "12abc"; lit "-5"; lit "x"; [] ]
  = [ Some 12%Z; Some 7%Z; Some 12%Z; Some (-5)%Z; None; None ].
Proof. reflexivity. Qed.

Example extract_example :
  extractTextWithFormatting
    (Some (para [ Text (lit "see ");
                  Elem (lit "I") [] [Text (lit "this")];
                  Elem (lit "BR") [] [];
                  Elem (lit "A") [(lit "href", lit "http://x.org")] [Text (lit "x")];
                  Elem (lit "A") [(lit "href", lit "#n1")] [Text (lit "1")];
                  Other (lit "a comment") ]))
  = Ok (lit "see " ++ hi_open (lit "italic") ++ lit "this" ++ hi_close ++
        newline ++ ref_open (lit "http://x.org") ++ lit "x" ++ ref_close ++
        lit "1").
Proof. reflexivity. Qed.

(** The second question and answer scenario of the specification: a bare
    number before the question gives the ordinal. *)
Example qa_scenario2 :
  questionsPass []
    [ block (lit "7"); block (lit "Question: A"); block (lit "Answer: B") ]
  = Ok [ mkItem (StrOrd (lit "7")) (lit "Question: A Answer: B") ].
Proof. reflexivity. Qed.

(** ** Results *)

Lemma returns_Ok {A : Type} (a : A) : returns (Ok a).
Proof. exists a; reflexivity. Qed.

Lemma returns_bind {A B : Type} (c : result A) (f : A -> result B) :
  returns c -> (forall a, returns (f a)) -> returns (bind c f).
Proof.
  intros [a ->] Hf. simpl. apply Hf.
Qed.

Lemma bind_Ok_inv {A B : Type} (c : result A) (f : A -> result B) (b : B) :
  bind c f = Ok b -> exists a, c = Ok a /\ f a = Ok b.
Proof.
  destruct c as [a|e]; simpl; intros H; [exists a; auto | discriminate].
Qed.

#[local] Hint Resolve returns_Ok : core.

(** ** The inline formatting extractor returns *)

Lemma node_induction (P : node -> Prop) :
  (forall d, P (Text d)) ->
  (forall d, P (Other d)) ->
  (forall t a cs, Forall P cs -> P (Elem t a cs)) ->
  forall n, P n.
Proof.
  intros HT HO HE. fix IH 1. intros [d|d|t a cs].
  - apply HT.
  - apply HO.
  - apply HE. induction cs as [|c cs IHcs]; constructor.
    + apply IH.
    + exact IHcs.
Qed.

(** The guard [href && href.startsWith('http')] never throws. *)
Lemma href_guard_returns (href : option str) (p : str) :
  returns (and_then href (startsWith_of href p)).
Proof.
  destruct href as [h|]; unfold and_then; simpl.
  - destruct (truthy h); auto.
  - auto.
Qed.

Lemma extractStep_returns (self : node -> result str) (child : node) (acc : str) :
  returns (self child) -> returns (extractStep self child acc).
Proof.
  intros [inner Hinner]. destruct child as [d|d|t a cs]; simpl; auto.
  destruct (href_guard_returns (lookup_attr (lit "href") a) (lit "http")) as [ext Hext].
  unfold extractStep, getAttribute. rewrite Hinner, Hext. cbn [bind].
  repeat match goal with
         | |- context [if ?b then _ else _] => destruct b
         end; auto.
Qed.

Lemma extractLoop_returns (self : node -> result str) (cs : list node) :
  Forall (fun c => returns (self c)) cs ->
  forall acc, returns (extractLoop self cs acc).
Proof.
  induction 1 as [|c cs Hc _ IH]; intros acc; simpl; auto.
  apply returns_bind; [apply extractStep_returns; exact Hc | intros a; apply IH].
Qed.

Lemma extractChildren_returns (n : node) : returns (extractChildren n).
Proof.
  induction n as [d|d|t a cs IH] using node_induction; simpl; auto.
  apply extractLoop_returns; exact IH.
Qed.

Lemma extractTextWithFormatting_returns (n : option node) :
  returns (extractTextWithFormatting n).
Proof.
  destruct n as [n|]; simpl; [apply extractChildren_returns | auto].
Qed.

(** ** The list of all nodes is in the order of [nextNode] *)

Lemma chained_app (L1 L2 : list loc) (final : option loc) :
  chained L1 (match L2 with l :: _ => Some l | [] => final end) ->
  chained L2 final ->
  chained (L1 ++ L2) final.
Proof.
  induction L1 as [|l t IH]; intros H1 H2; [exact H2|].
  destruct H1 as [Hl Ht]. cbn [app chained]. split.
  - rewrite Hl. destruct t; reflexivity.
  - apply IH; assumption.
Qed.

Lemma climb_sibling (n r : node) (ls rs : list node) (us : list frame) :
  climb n ls (r :: rs) us = Some (mkLoc r (n :: ls) rs us).
Proof. destruct us; reflexivity. Qed.

Lemma locs_of_head (n : node) (ls rs : list node) (us : list frame) :
  exists t, locs_of n ls rs us = mkLoc n ls rs us :: t.
Proof. destruct n; eexists; reflexivity. Qed.

(** The siblings [cs], with [ls] before them, under the ancestors [us]:
    their positions are chained, and what follows the last of them is
    [final], the successor of the subtree of the last sibling. *)
Lemma sibling_locs_chained (us : list frame) (final : option loc) (cs : list node) :
  Forall (fun c => forall ls rs us,
            chained (locs_of c ls rs us) (climb c ls rs us)) cs ->
  forall ls,
    (forall c ls', rev ls' ++ [c] = rev ls ++ cs -> climb c ls' [] us = final) ->
    chained (sibling_locs locs_of us ls cs) final.
Proof.
  induction 1 as [|c rest Hc _ IH]; intros ls Hlast; [exact I|].
  cbn [sibling_locs]. apply chained_app.
  - destruct rest as [|r rest'].
    + cbn [sibling_locs]. rewrite <- (Hlast c ls eq_refl). apply Hc.
    + cbn [sibling_locs]. destruct (locs_of_head r (c :: ls) rest' us) as [t ->].
      cbn [app]. rewrite <- (climb_sibling c r ls rest' us). apply Hc.
  - apply IH. intros c' ls' H. apply Hlast. rewrite H. cbn [rev].
    rewrite <- app_assoc. reflexivity.
Qed.

Lemma locs_of_chained (n : node) :
  forall ls rs us, chained (locs_of n ls rs us) (climb n ls rs us).
Proof.
  induction n as [d|d|t a cs IH] using node_induction; intros ls rs us;
    try (split; [reflexivity | exact I]).
  cbn [locs_of chained]. split.
  - destruct cs as [|c cs']; [reflexivity|].
    cbn [sibling_locs]. destruct (locs_of_head c [] cs' (mkFrame t a ls rs :: us))
      as [tl ->]. reflexivity.
  - apply sibling_locs_chained; [exact IH|].
    intros c ls' H. cbn [rev app] in H. destruct rs as [|r rs'].
    + cbn [climb f_tag f_attrs f_lefts f_rights]. rewrite H. reflexivity.
    + cbn [climb f_tag f_attrs f_lefts f_rights]. rewrite H.
      rewrite !climb_sibling. reflexivity.
Qed.

(** [doc_locs] lists the nodes of the document in the order in which
    [nextNode] visits them, and [nextNode] of the last one is [null]. *)
Lemma doc_locs_chained (d : document) : chained (doc_locs d) None.
Proof.
  apply sibling_locs_chained.
  - apply Forall_forall. intros c _. apply locs_of_chained.
  - intros c ls' _. reflexivity.
Qed.

(** ** The document-order walk terminates *)

(** [climb] is the loop of [nextNode]: the next sibling if there is one,
    else the same from the parent. *)
Lemma climb_loop (l : loc) :
  climb (here l) (lefts l) (rights l) (ups l) =
  match nextSibling l with
  | Some sib => Some sib
  | None =>
      match parentNode l with
      | Some p => climb (here p) (lefts p) (rights p) (ups p)
      | None => None
      end
  end.
Proof.
  destruct l as [n ls [|r rs] [|f fs]]; reflexivity.
Qed.

Lemma size_pos (n : node) : (1 <= size n)%nat.
Proof. destruct n; simpl; lia. Qed.

Lemma climb_remaining (us : list frame) :
  forall n ls rs l',
    climb n ls rs us = Some l' ->
    S (remaining l') =
    (sizes rs + list_sum (map (fun f => sizes (f_rights f)) us))%nat.
Proof.
  induction us as [|f fs IH]; intros n ls rs l' H.
  - destruct rs as [|r rs']; simpl in H; [discriminate|].
    injection H as <-. unfold remaining, after, sizes; simpl.
    pose proof (size_pos r). lia.
  - destruct rs as [|r rs']; simpl in H.
    + apply IH in H. rewrite H. unfold sizes; simpl. lia.
    + injection H as <-. unfold remaining, after, sizes; simpl.
      pose proof (size_pos r). lia.
Qed.

Lemma nextNode_remaining (l l' : loc) :
  nextNode (Some l) = Some l' -> S (remaining l') = remaining l.
Proof.
  unfold nextNode, firstChild. destruct l as [n ls rs us]; simpl.
  destruct n as [d|d|t a [|c cs]]; simpl; intros H;
    try (apply climb_remaining in H; rewrite H;
         unfold remaining, after; simpl; reflexivity).
  injection H as <-. unfold remaining, after, sizes; simpl.
  pose proof (size_pos c). lia.
Qed.

Lemma nextSibling_remaining (l l' : loc) :
  nextSibling l = Some l' -> (S (remaining l') <= remaining l)%nat.
Proof.
  unfold nextSibling. destruct l as [n ls [|r rs] us]; simpl; intros H;
    [discriminate|].
  injection H as <-. unfold remaining, after, sizes; simpl.
  pose proof (size_pos r). lia.
Qed.

Lemma nextNode_todo (l : loc) : (S (todo (nextNode (Some l))) <= todo (Some l))%nat.
Proof.
  destruct (nextNode (Some l)) as [l'|] eqn:E; simpl.
  - apply nextNode_remaining in E. lia.
  - lia.
Qed.

Lemma collectLoop_returns (fuel : nat) :
  forall endEl text node,
    (todo node <= fuel)%nat -> returns (collectLoop fuel endEl text node).
Proof.
  induction fuel as [|fuel IH]; intros endEl text node Hfuel.
  - destruct node as [l|]; simpl in *; [lia | auto].
  - destruct node as [l|]; cbn [collectLoop]; auto.
    destruct (same_node l endEl); auto.
    pose proof (nextNode_todo l) as Hnext.
    destruct (here l) as [dt|dt|t a cs] eqn:Hhere.
    + apply IH. lia.
    + apply IH. lia.
    + cbv zeta.
      destruct (truthy (anchorName (Elem t a cs)) &&
                test true anchorPattern (anchorName (Elem t a cs))); auto.
      apply returns_bind; [apply extractTextWithFormatting_returns|].
      intros inner. apply IH.
      destruct (nextSibling l) as [sib|] eqn:Hsib.
      * apply nextSibling_remaining in Hsib. simpl in *. lia.
      * lia.
Qed.

(** [collectBetween] always returns: the loop bound of the model is never
    reached and nothing throws. *)
Lemma collectBetween_returns (startEl : loc) (endEl : option loc) :
  returns (collectBetween startEl endEl).
Proof.
  unfold collectBetween. apply collectLoop_returns.
  pose proof (nextNode_todo startEl). simpl in *. lia.
Qed.


(** ** The anchor catalog keeps the first occurrence of a name *)

Lemma str_eqb_eq (a b : str) : str_eqb a b = true <-> a = b.
Proof.
  revert b. induction a as [|x a IH]; intros [|y b]; simpl;
    try (split; [discriminate | discriminate]); [tauto|].
  rewrite andb_true_iff, N.eqb_eq, IH. split.
  - intros [-> ->]. reflexivity.
  - intros H. injection H as -> ->. auto.
Qed.

Lemma str_eqb_refl (a : str) : str_eqb a a = true.
Proof. apply str_eqb_eq. reflexivity. Qed.

Lemma str_eqb_neq (a b : str) : str_eqb a b = false <-> a <> b.
Proof.
  rewrite <- str_eqb_eq. destruct (str_eqb a b); split; congruence.
Qed.

Lemma Map_get_set (mp : Map) (k : str) (v : loc) (k' : str) :
  Map_get (Map_set mp k v) k' = if str_eqb k k' then Some v else Map_get mp k'.
Proof.
  induction mp as [|[k0 v0] rest IH]; simpl; [reflexivity|].
  destruct (str_eqb k0 k) eqn:E0; simpl.
  - apply str_eqb_eq in E0. subst k0. destruct (str_eqb k k'); reflexivity.
  - rewrite IH. destruct (str_eqb k0 k') eqn:E1; [|reflexivity].
    destruct (str_eqb k k') eqn:E2; [|reflexivity].
    apply str_eqb_eq in E1, E2. apply str_eqb_neq in E0. congruence.
Qed.

Lemma str_mem_cons (k x : str) (seen : list str) :
  str_mem k (x :: seen) = str_eqb k x || str_mem k seen.
Proof. reflexivity. Qed.

Lemma Map_get_keepFirst (k : str) (l : list (str * loc)) :
  forall seen mp,
    Map_get (fold_left (fun mp a => Map_set mp (fst a) (snd a))
                       (keepFirst seen l) mp) k =
    if str_mem k seen then Map_get mp k
    else match find (fun a => str_eqb (fst a) k) l with
         | Some a => Some (snd a)
         | None => Map_get mp k
         end.
Proof.
  induction l as [|a rest IH]; intros seen mp; cbn [keepFirst fold_left find].
  - destruct (str_mem k seen); reflexivity.
  - destruct (str_mem (fst a) seen) eqn:Ea.
    + rewrite IH. destruct (str_mem k seen) eqn:Ek; [reflexivity|].
      destruct (str_eqb (fst a) k) eqn:E; [|reflexivity].
      apply str_eqb_eq in E. congruence.
    + cbn [fold_left]. rewrite IH, str_mem_cons, Map_get_set.
      destruct (str_eqb (fst a) k) eqn:E.
      * apply str_eqb_eq in E. subst k. rewrite str_eqb_refl, Ea. reflexivity.
      * assert (str_eqb k (fst a) = false) as ->.
        { apply str_eqb_neq. apply str_eqb_neq in E. congruence. }
        reflexivity.
Qed.

(** A lookup in the catalog gives the first element, in document order,
    that carries the name. *)
Lemma anchorMap_first (d : document) (k : str) :
  Map_get (anchorMap d) k =
  match find (fun a => str_eqb (fst a) k) (anchors d) with
  | Some a => Some (snd a)
  | None => None
  end.
Proof.
  unfold anchorMap, orderedAnchors. rewrite Map_get_keepFirst. reflexivity.
Qed.

(** ** Strategy A *)

Section LegacyFacts.
Variable amap : Map.

Lemma scanFamily_returns (prefix : str) (strip : bool) (count : nat) :
  forall i acc, returns (scanFamily amap prefix strip count i acc).
Proof.
  induction count as [|count IH]; intros i acc; cbn [scanFamily]; auto.
  destruct (Map_get amap (prefix ++ String_of i)) as [el|]; auto.
  apply returns_bind; [apply collectBetween_returns | intros t; apply IH].
Qed.

Lemma introStep_returns (i : Z) (suf : str) (acc : list item) :
  returns (introStep amap i suf acc).
Proof.
  unfold introStep. destruct (Map_get amap (introName i suf)); auto.
  apply returns_bind; [apply collectBetween_returns | auto].
Qed.

Lemma scanIntro_returns (count : nat) :
  forall i acc, returns (scanIntro amap count i acc).
Proof.
  induction count as [|count IH]; intros i acc; cbn [scanIntro]; auto.
  repeat (apply returns_bind; [apply introStep_returns | intros ?]).
  apply IH.
Qed.

Lemma legacySections_returns : returns (legacySections amap).
Proof.
  unfold legacySections.
  repeat (apply returns_bind;
          [first [apply scanFamily_returns | apply scanIntro_returns] | intros ?]).
  auto.
Qed.

(** What a scan without suffixes appends: at most [count] items, each
    numbered by an ordinal of the range scanned, below which no marker is
    missing. *)
Lemma scanFamily_spec (prefix : str) (strip : bool) (count : nat) :
  forall i acc out,
    scanFamily amap prefix strip count i acc = Ok out ->
    exists new,
      out = acc ++ new /\
      (length new <= count)%nat /\
      forall it, In it new ->
        exists j, item_n it = NumOrd j /\
                  (i <= j < i + Z.of_nat count)%Z /\
                  forall k, (i <= k <= j)%Z ->
                            Map_get amap (prefix ++ String_of k) <> None.
Proof.
  induction count as [|count IH]; intros i acc out H.
  - cbn [scanFamily] in H. injection H as <-. exists []. rewrite app_nil_r.
    repeat split; simpl; [lia | intros it []].
  - cbn [scanFamily] in H.
    destruct (Map_get amap (prefix ++ String_of i)) as [el|] eqn:Hel.
    + apply bind_Ok_inv in H as (t & _ & H). cbv zeta in H.
      apply IH in H as (new & -> & Hlen & Hnew).
      set (t' := if strip && truthy t then stripLeadingNumber t else t) in *.
      assert (Hhere : forall k, (i <= k <= i)%Z ->
                        Map_get amap (prefix ++ String_of k) <> None).
      { intros k Hk. assert (k = i) as -> by lia. rewrite Hel. discriminate. }
      assert (Hrest : forall it, In it new ->
                exists j, item_n it = NumOrd j /\
                  (i <= j < i + Z.of_nat (S count))%Z /\
                  forall k, (i <= k <= j)%Z ->
                            Map_get amap (prefix ++ String_of k) <> None).
      { intros it Hin. destruct (Hnew it Hin) as (j & Hn & Hj & Hk).
        exists j. repeat split; [exact Hn | lia | lia |].
        intros k Hkr. destruct (Z.eq_dec k i) as [->|Hne].
        - rewrite Hel. discriminate.
        - apply Hk. lia. }
      destruct (truthy t').
      * exists (mkItem (NumOrd i) t' :: new). rewrite <- app_assoc. simpl.
        repeat split; [lia|]. intros it [<-|Hin]; [|apply Hrest; exact Hin].
        exists i. simpl. repeat split; [lia | lia | exact Hhere].
      * exists new. repeat split; [lia | exact Hrest].
    + injection H as <-. exists []. rewrite app_nil_r.
      repeat split; simpl; [lia | intros it []].
Qed.

Lemma introStep_spec (i : Z) (suf : str) (acc out : list item) :
  In suf [[]; lit "b"; lit "c"] ->
  introStep amap i suf acc = Ok out ->
  exists new, out = acc ++ new /\ (length new <= 1)%nat /\
              forall it, In it new -> intro_item amap i i it.
Proof.
  intros Hsuf. unfold introStep.
  destruct (Map_get amap (introName i suf)) as [el|] eqn:Hel.
  - intros H. apply bind_Ok_inv in H as (t & _ & H). injection H as <-.
    destruct (truthy t).
    + eexists; split; [reflexivity|]. split; [simpl; lia|].
      intros it [<-|[]]. exists i, suf. split; [lia|]. split; [exact Hsuf|].
      split; [reflexivity|]. unfold Map_has. rewrite Hel. reflexivity.
    + exists []. rewrite app_nil_r. split; [reflexivity|].
      split; [simpl; lia | intros it []].
  - intros H. injection H as <-. exists []. rewrite app_nil_r.
    split; [reflexivity|]. split; [simpl; lia | intros it []].
Qed.

Lemma intro_item_range (lo hi lo' hi' : Z) (it : item) :
  (lo' <= lo)%Z -> (hi <= hi')%Z -> intro_item amap lo hi it -> intro_item amap lo' hi' it.
Proof.
  intros Hlo Hhi (j & suf & Hj & Hrest). exists j, suf. split; [lia | exact Hrest].
Qed.

Lemma scanIntro_spec (count : nat) :
  forall i acc out,
    scanIntro amap count i acc = Ok out ->
    exists new, out = acc ++ new /\ (length new <= 3 * count)%nat /\
                forall it, In it new ->
                           intro_item amap i (i + Z.of_nat count - 1) it.
Proof.
  induction count as [|count IH]; intros i acc out H.
  - cbn [scanIntro] in H. injection H as <-. exists []. rewrite app_nil_r.
    split; [reflexivity|]. split; [simpl; lia | intros it []].
  - cbn [scanIntro] in H.
    apply bind_Ok_inv in H as (a1 & H1 & H).
    apply bind_Ok_inv in H as (a2 & H2 & H).
    apply bind_Ok_inv in H as (a3 & H3 & H).
    apply introStep_spec in H1 as (n1 & -> & L1 & I1); [|simpl; auto].
    apply introStep_spec in H2 as (n2 & -> & L2 & I2); [|simpl; auto].
    apply introStep_spec in H3 as (n3 & -> & L3 & I3); [|simpl; auto].
    apply IH in H as (n4 & -> & L4 & I4).
    exists (n1 ++ n2 ++ n3 ++ n4). rewrite <- !app_assoc.
    split; [reflexivity|]. split; [rewrite !length_app; lia|].
    intros it Hin. repeat (apply in_app_or in Hin as [Hin|Hin]).
    + apply (intro_item_range i i); [lia | lia | apply I1; exact Hin].
    + apply (intro_item_range i i); [lia | lia | apply I2; exact Hin].
    + apply (intro_item_range i i); [lia | lia | apply I3; exact Hin].
    + apply (intro_item_range (i + 1) (i + 1 + Z.of_nat count - 1));
        [lia | lia | apply I4; exact Hin].
Qed.

(** The Strategy A block fills each family by its own scan and leaves the
    four other sections empty. *)
Lemma legacySections_inv (secs : sections) :
  legacySections amap = Ok secs ->
  scanFamily amap (lit "pref") false 50 1 [] = Ok (preface secs) /\
  scanIntro amap 300 1 [] = Ok (introduction secs) /\
  scanFamily amap (lit "description") false 100 1 [] = Ok (description secs) /\
  scanFamily amap (lit "par") true 1000 1 [] = Ok (mainText secs) /\
  scanFamily amap (lit "q") true 500 1 [] = Ok (questions secs) /\
  scanFamily amap (lit "note") false 1000 1 [] = Ok (notes secs) /\
  supplementary secs = [] /\ synopsis secs = [] /\
  glossary secs = [] /\ keyPassages secs = [].
Proof.
  unfold legacySections. intros H.
  apply bind_Ok_inv in H as (a1 & H1 & H).
  apply bind_Ok_inv in H as (a2 & H2 & H).
  apply bind_Ok_inv in H as (a3 & H3 & H).
  apply bind_Ok_inv in H as (a4 & H4 & H).
  apply bind_Ok_inv in H as (a5 & H5 & H).
  apply bind_Ok_inv in H as (a6 & H6 & H).
  injection H as <-.
  cbn [preface introduction description mainText questions notes
       supplementary synopsis glossary keyPassages].
  repeat split; assumption.
Qed.
End LegacyFacts.





(** C10.  A document processed by Strategy A yields a model, and in it the
    item counts are bounded by the ceilings of the scans: 50 preface items,
    900 introduction items (300 ordinals, 3 suffix variants each), 100
    description items, 1000 main-text items, 500 question items and 1000
    note items. *)
Theorem legacy_item_counts_bounded :
  forall (toLowerCase : str -> str) (selectorOf : selectorEngine)
         (d : document),
    legacyHasContent d = true ->
    exists secs,
      parseDocument toLowerCase selectorOf d = Ok secs /\
      (length (preface secs) <= 50)%nat /\
      (length (introduction secs) <= 900)%nat /\
      (length (description secs) <= 100)%nat /\
      (length (mainText secs) <= 1000)%nat /\
      (length (questions secs) <= 500)%nat /\
      (length (notes secs) <= 1000)%nat.
Proof.
  intros lower css d Htrigger.
  destruct (legacySections_returns (anchorMap d)) as (secs & Hsecs).
  exists secs. unfold parseDocument. rewrite Htrigger. split; [exact Hsecs|].
  apply legacySections_inv in Hsecs
    as (Hpref & Hintro & Hdesc & Hpar & Hq & Hnote & _).
  apply scanFamily_spec in Hpref as (n1 & -> & L1 & _).
  apply scanIntro_spec in Hintro as (n2 & -> & L2 & _).
  apply scanFamily_spec in Hdesc as (n3 & -> & L3 & _).
  apply scanFamily_spec in Hpar as (n4 & -> & L4 & _).
  apply scanFamily_spec in Hq as (n5 & -> & L5 & _).
  apply scanFamily_spec in Hnote as (n6 & -> & L6 & _).
  cbn [app]. repeat split; assumption.
Qed.

Lemma legacy_item_counts_bounded_witness :
  legacyHasContent doc_gaps = true /\
  exists secs,
    parseDocument toLowerASCII plainEngine doc_gaps = Ok secs /\
    (length (preface secs) <= 50)%nat /\
    (length (introduction secs) <= 900)%nat /\
    (length (description secs) <= 100)%nat /\
    (length (mainText secs) <= 1000)%nat /\
    (length (questions secs) <= 500)%nat /\
    (length (notes secs) <= 1000)%nat.
Proof.
  split; [reflexivity|].
  apply (legacy_item_counts_bounded toLowerASCII plainEngine doc_gaps). reflexivity.
Defined.

(** C7.  When the catalog holds [pref1], [intro1] or [par1], the model is
    the one Strategy A builds, whatever the document contains besides: the
    result does not depend on the operations that only the navigation-based
    code uses, and the four sections that only that code fills are empty. *)
Theorem legacy_trigger_selects_strategy_A :
  forall (d : document),
    Map_has (anchorMap d) (lit "pref1") = true \/
    Map_has (anchorMap d) (lit "intro1") = true \/
    Map_has (anchorMap d) (lit "par1") = true ->
    exists secs,
      legacySections (anchorMap d) = Ok secs /\
      (forall (toLowerCase : str -> str) (selectorOf : selectorEngine),
          parseDocument toLowerCase selectorOf d = Ok secs) /\
      supplementary secs = [] /\ synopsis secs = [] /\
      glossary secs = [] /\ keyPassages secs = [].
Proof.
  intros d Htrigger.
  assert (Hhas : legacyHasContent d = true).
  { unfold legacyHasContent. destruct Htrigger as [H | [H | H]]; rewrite H;
      repeat rewrite orb_true_r; reflexivity. }
  destruct (legacySections_returns (anchorMap d)) as (secs & Hsecs).
  exists secs. split; [exact Hsecs|]. split.
  - intros lower css. unfold parseDocument. rewrite Hhas. exact Hsecs.
  - apply legacySections_inv in Hsecs. tauto.
Qed.

Lemma legacy_trigger_selects_strategy_A_witness :
  Map_has (anchorMap doc_both) (lit "pref1") = true /\
  exists secs,
    legacySections (anchorMap doc_both) = Ok secs /\
    (forall (toLowerCase : str -> str) (selectorOf : selectorEngine),
        parseDocument toLowerCase selectorOf doc_both = Ok secs) /\
    supplementary secs = [] /\ synopsis secs = [] /\
    glossary secs = [] /\ keyPassages secs = [].
Proof.
  split; [reflexivity|].
  apply (legacy_trigger_selects_strategy_A doc_both). left. reflexivity.
Defined.

(** The document [doc_both] does hold a navigation block, from which the
    navigation-based code would build another model. *)
Lemma doc_both_navigation_ignored :
  is_some (querySelector doc_both SelNavGc) = true /\
  navigationSections toLowerASCII plainEngine doc_both =
    Ok (mkSections [mkItem (NumOrd 1) (lit "Some text")] [] [] [] [] [] [] [] [] []) /\
  parseDocument toLowerASCII plainEngine doc_both =
    Ok (mkSections [mkItem (NumOrd 1) (lit "Some textSome text")]
          [] [] [] [] [] [] [] [] []).
Proof. vm_compute. repeat split. Qed.

(** Without the marker the navigation-based code builds the model. *)
Lemma doc_nav_only_uses_navigation :
  legacyHasContent doc_nav_only = false /\
  parseDocument toLowerASCII plainEngine doc_nav_only =
    Ok (mkSections [mkItem (NumOrd 1) (lit "Some text")] [] [] [] [] [] [] [] [] []).
Proof. vm_compute. repeat split. Qed.

(** C8.  A document without [pref1], [intro1] and [par1] in its catalog
    and without navigation block yields, without error, the model whose
    sections are all empty. *)
Theorem no_structure_gives_empty_model :
  forall (toLowerCase : str -> str) (selectorOf : selectorEngine)
         (d : document),
    Map_has (anchorMap d) (lit "pref1") = false ->
    Map_has (anchorMap d) (lit "intro1") = false ->
    Map_has (anchorMap d) (lit "par1") = false ->
    querySelector d SelNavGc = None ->
    parseDocument toLowerCase selectorOf d = Ok empty_sections.
Proof.
  intros lower css d Hpref Hintro Hpar Hnav.
  unfold parseDocument, legacyHasContent, navigationSections.
  rewrite Hpref, Hintro, Hpar, Hnav. reflexivity.
Qed.

Lemma no_structure_gives_empty_model_witness :
  Map_has (anchorMap doc_plain) (lit "pref1") = false /\
  Map_has (anchorMap doc_plain) (lit "intro1") = false /\
  Map_has (anchorMap doc_plain) (lit "par1") = false /\
  querySelector doc_plain SelNavGc = None /\
  parseDocument toLowerASCII plainEngine doc_plain = Ok empty_sections.
Proof.
  do 4 (split; [reflexivity|]).
  apply (no_structure_gives_empty_model toLowerASCII plainEngine doc_plain);
    reflexivity.
Defined.

(** ** The question and answer grouping on the scenarios of the specification *)

(** C1 (as amended).  For two blocks holding the plain texts
    "Question: What is fasting?" and "Answer: Abstention from food.",
    whatever their tags, attributes and places in the document, the
    questions pass emits one item, of ordinal "1", whose text is
    "Question: What is fasting? Answer: Abstention from food.": the labels
    are kept. *)
Theorem qa_scenario1_keeps_labels :
  forall t1 a1 l1 r1 u1 t2 a2 l2 r2 u2,
    questionsPass []
      [ mkLoc (Elem t1 a1 [Text (lit "Question: What is fasting?")]) l1 r1 u1;
        mkLoc (Elem t2 a2 [Text (lit "Answer: Abstention from food.")]) l2 r2 u2 ]
    = Ok [ mkItem (StrOrd (lit "1"))
             (lit "Question: What is fasting? Answer: Abstention from food.") ].
Proof. intros. vm_compute. reflexivity. Qed.

(** C1 (as stated) fails: the first item does not have the text
    "What is fasting? Abstention from food.". *)
Lemma qa_scenario1_text_not_stripped :
  ~ exists rest,
      questionsPass []
        [ block (lit "Question: What is fasting?");
          block (lit "Answer: Abstention from food.") ]
      = Ok (mkItem (StrOrd (lit "1"))
              (lit "What is fasting? Abstention from food.") :: rest).
Proof.
  intros [rest H]. vm_compute in H. discriminate H.
Qed.

(** C6 (as amended).  For four blocks holding the plain texts "3.", "4.",
    "Question: A" and "Answer: B", the questions pass emits the item "3"
    with the text "Question: A Answer: B" (labels kept), then the
    placeholder item "4" with empty text. *)
Theorem qa_scenario3_trailing_placeholder :
  forall t1 a1 l1 r1 u1 t2 a2 l2 r2 u2 t3 a3 l3 r3 u3 t4 a4 l4 r4 u4,
    questionsPass []
      [ mkLoc (Elem t1 a1 [Text (lit "3.")]) l1 r1 u1;
        mkLoc (Elem t2 a2 [Text (lit "4.")]) l2 r2 u2;
        mkLoc (Elem t3 a3 [Text (lit "Question: A")]) l3 r3 u3;
        mkLoc (Elem t4 a4 [Text (lit "Answer: B")]) l4 r4 u4 ]
    = Ok [ mkItem (StrOrd (lit "3")) (lit "Question: A Answer: B");
           mkItem (StrOrd (lit "4")) [] ].
Proof. intros. vm_compute. reflexivity. Qed.

(** C6 (as stated) fails: the items are not "3" with text "A B" followed
    by the placeholder "4". *)
Lemma qa_scenario3_text_not_stripped :
  questionsPass []
    [ block (lit "3."); block (lit "4.");
      block (lit "Question: A"); block (lit "Answer: B") ]
  <> Ok [ mkItem (StrOrd (lit "3")) (lit "A B");
          mkItem (StrOrd (lit "4")) [] ].
Proof.
  intros H. vm_compute in H. discriminate H.
Qed.

(** ** Item spans under Strategy A *)

(** C3 (the code departs from it).  In
    [<p><a name="par1"></a>A</p><p><a name="par2"></a>B</p>] the text
    collected for [par1] up to [par2] is "AB": the second paragraph is taken
    whole although the marker [par2] sits inside it, so "B", which follows
    [par2], belongs to both items. *)
Theorem collectBetween_runs_past_nested_marker :
  legacySections (anchorMap doc_two_paragraphs) =
  Ok (mkSections [] [] []
        [ mkItem (NumOrd 1) (lit "AB"); mkItem (NumOrd 2) (lit "B") ]
        [] [] [] [] [] []).
Proof. vm_compute. reflexivity. Qed.

(** The same on [<a name="par1"></a>A<p>B<a name="par2"></a>C</p>]: the
    paragraph is taken whole, then walked again from its first child up to
    the marker. *)
Lemma collectBetween_revisits_children :
  legacySections (anchorMap doc_marker_inside) =
  Ok (mkSections [] [] []
        [ mkItem (NumOrd 1) (lit "ABCB"); mkItem (NumOrd 2) (lit "C") ]
        [] [] [] [] [] []).
Proof. vm_compute. reflexivity. Qed.

(** ** The inline formatting extractor and the call stack *)

Lemma refines_refl {A : Type} (c : result A) : refines c c.
Proof. destruct c as [a|[]]; reflexivity. Qed.

Lemma refines_bind {A B : Type} (cS c : result A) (fS f : A -> result B) :
  refines cS c -> (forall a, refines (fS a) (f a)) ->
  refines (bind cS fS) (bind c f).
Proof.
  intros H Hf. destruct cS as [a|e]; cbn in H.
  - subst c. cbn [bind]. apply Hf.
  - destruct e; cbn [bind refines]; try exact I; subst c; reflexivity.
Qed.

Lemma refines_Ok {A : Type} (cS c : result A) (a : A) :
  refines cS c -> cS = Ok a -> c = Ok a.
Proof. intros H E. subst cS. exact H. Qed.

Lemma refines_Throw {A : Type} (cS c : result A) (e : exn) :
  refines cS c -> cS = Throw e -> e = RangeError \/ c = Throw e.
Proof. intros H E. subst cS. destruct e; cbn in H; auto. Qed.

Lemma refines_returns {A : Type} (cS c : result A) (e : exn) :
  refines cS c -> returns c -> cS = Throw e -> e = RangeError.
Proof.
  intros H [a Ha] E. destruct (refines_Throw _ _ _ H E) as [?|E']; [assumption|].
  congruence.
Qed.

Lemma extractStep_refines (selfS self : node -> result str) (child : node)
    (acc : str) :
  refines (selfS child) (self child) ->
  refines (extractStep selfS child acc) (extractStep self child acc).
Proof.
  intros H. destruct child as [t|t|tag attrs cs]; try apply refines_refl.
  unfold extractStep. cbv zeta.
  repeat first
    [ apply refines_refl
    | apply refines_bind; [first [exact H | apply refines_refl] | intros ?]
    | match goal with
      | |- context [if ?b then _ else _] => destruct b
      end ].
Qed.

Lemma extractLoop_refines (selfS self : node -> result str) (cs : list node) :
  (forall c, refines (selfS c) (self c)) ->
  forall acc, refines (extractLoop selfS cs acc) (extractLoop self cs acc).
Proof.
  intros H. induction cs as [|c cs IH]; intros acc; cbn [extractLoop].
  - reflexivity.
  - apply refines_bind; [apply extractStep_refines, H | intros a; apply IH].
Qed.

Lemma extractChildren_refines (stack : nat) :
  forall n, refines (CallStack.extractChildren stack n) (extractChildren n).
Proof.
  induction stack as [|stack IH]; intros n; [exact I|].
  destruct n as [t|t|tag attrs cs]; try reflexivity.
  cbn [CallStack.extractChildren extractChildren].
  apply extractLoop_refines, IH.
Qed.

Lemma extractTextWithFormatting_refines (stack : nat) (n : option node) :
  refines (CallStack.extractTextWithFormatting stack n)
          (extractTextWithFormatting n).
Proof.
  destruct stack as [|stack]; [exact I|].
  destruct n as [n|]; [|reflexivity].
  apply extractChildren_refines.
Qed.

(** The recursive call is made on element children only. *)
Lemma extractStep_ext (selfS self : node -> result str) (child : node)
    (acc : str) :
  (forall tag attrs cs, child = Elem tag attrs cs -> selfS child = self child) ->
  extractStep selfS child acc = extractStep self child acc.
Proof.
  intros H. destruct child as [t|t|tag attrs cs]; try reflexivity.
  unfold extractStep. rewrite (H tag attrs cs eq_refl). reflexivity.
Qed.

Lemma extractLoop_ext (selfS self : node -> result str) (cs : list node) :
  Forall (fun c => forall tag attrs cs', c = Elem tag attrs cs' ->
                                         selfS c = self c) cs ->
  forall acc, extractLoop selfS cs acc = extractLoop self cs acc.
Proof.
  induction 1 as [|c cs Hc _ IH]; intros acc; cbn [extractLoop]; [reflexivity|].
  rewrite (extractStep_ext selfS self c acc Hc).
  destruct (extractStep self c acc) as [a|e]; cbn [bind]; [apply IH|reflexivity].
Qed.

Lemma list_max_In (x : nat) (l : list nat) : In x l -> (x <= list_max l)%nat.
Proof.
  induction l as [|y l IH]; intros H; [destruct H|].
  cbn [list_max fold_right]. destruct H as [->|H]; [lia|].
  specialize (IH H). unfold list_max in IH. lia.
Qed.

Lemma extractChildren_enough (stack : nat) :
  forall n, (frames n <= stack)%nat ->
            CallStack.extractChildren stack n = extractChildren n.
Proof.
  induction stack as [|stack IH]; intros n Hn; [unfold frames in Hn; lia|].
  destruct n as [t|t|tag attrs cs]; try reflexivity.
  cbn [CallStack.extractChildren extractChildren].
  apply extractLoop_ext. apply Forall_forall. intros c Hc tag' attrs' cs' E.
  apply IH. unfold frames in *. cbn [nesting] in Hn.
  assert (Hle : (nesting c <= list_max (map nesting cs))%nat)
    by (apply list_max_In, in_map, Hc).
  assert (1 <= nesting c)%nat by (rewrite E; cbn [nesting]; lia).
  lia.
Qed.

Lemma extractTextWithFormatting_enough (stack : nat) (n : node) :
  (frames n <= stack)%nat ->
  CallStack.extractTextWithFormatting stack (Some n) =
  extractTextWithFormatting (Some n).
Proof.
  intros H. destruct stack as [|stack]; [unfold frames in H; lia|].
  cbn [CallStack.extractTextWithFormatting extractTextWithFormatting].
  apply extractChildren_enough, H.
Qed.

Lemma extractChildren_overflow (stack : nat) :
  CallStack.extractChildren stack (nest (S stack)) = Throw RangeError.
Proof.
  induction stack as [|stack IH]; [reflexivity|].
  change (nest (S (S stack))) with (Elem (lit "SPAN") [] [nest (S stack)]).
  cbn [CallStack.extractChildren extractLoop].
  change (nest (S stack)) with (Elem (lit "SPAN") [] [nest stack]) at 1.
  unfold extractStep. cbv zeta.
  change (toLowerASCII (lit "SPAN")) with (lit "span").
  cbn [str_eqb]. 
  change (Elem (lit "SPAN") [] [nest stack]) with (nest (S stack)).
  rewrite IH. reflexivity.
Qed.

Lemma nesting_nest (k : nat) : nesting (nest k) = k.
Proof.
  induction k as [|k IH]; [reflexivity|].
  cbn [nest nesting map list_max fold_right]. rewrite IH. lia.
Qed.

(** C9 (amended).  With room for [stack] calls, the extractor returns a
    string on every node that needs no more than [stack] calls, and the
    string is the one of the definition without the stack; on the [null]
    node it returns the empty string as soon as there is room for the call
    itself.  The only exception it throws is [RangeError], and only on a
    node that needs more than [stack] calls; whatever [stack] is, such a
    node exists: [stack + 1] elements nested in one another.  A hyperlink
    without [href] attribute is treated as one whose [href] is the empty
    string. *)
Theorem extractTextWithFormatting_total_within_stack :
  forall stack : nat,
    (forall n : node,
        (frames n <= stack)%nat ->
        exists s,
          CallStack.extractTextWithFormatting stack (Some n) = Ok s /\
          extractTextWithFormatting (Some n) = Ok s) /\
    ((1 <= stack)%nat ->
     CallStack.extractTextWithFormatting stack None = Ok []) /\
    (forall (n : option node) (e : exn),
        CallStack.extractTextWithFormatting stack n = Throw e ->
        e = RangeError /\
        (stack < match n with Some n => frames n | None => 1 end)%nat) /\
    (frames (nest (S stack)) = S stack /\
     CallStack.extractTextWithFormatting stack (Some (nest (S stack)))
     = Throw RangeError) /\
    (forall (tag : str) (attrs : list (str * str)) (cs : list node) (acc : str),
        toLowerASCII tag = lit "a" ->
        lookup_attr (lit "href") attrs = None ->
        extractStep (CallStack.extractChildren stack) (Elem tag attrs cs) acc =
        extractStep (CallStack.extractChildren stack)
          (Elem tag ((lit "href", []) :: attrs) cs) acc).
Proof.
  intros stack. split; [|split; [|split; [|split]]].
  - intros n Hn. destruct (extractTextWithFormatting_returns (Some n)) as [s Hs].
    exists s. split; [|exact Hs].
    rewrite (extractTextWithFormatting_enough stack n Hn). exact Hs.
  - intros H. destruct stack as [|stack]; [lia | reflexivity].
  - intros n e H. split.
    + apply (refines_returns _ _ _ (extractTextWithFormatting_refines stack n)
               (extractTextWithFormatting_returns n) H).
    + destruct n as [n|].
      * destruct (Nat.le_gt_cases (frames n) stack) as [Hle|Hgt]; [|exact Hgt].
        rewrite (extractTextWithFormatting_enough stack n Hle) in H.
        destruct (extractTextWithFormatting_returns (Some n)) as [s Hs].
        congruence.
      * destruct stack as [|stack]; [lia | discriminate H].
  - split.
    + unfold frames. rewrite nesting_nest. lia.
    + destruct stack as [|stack]; [reflexivity|].
      apply (extractChildren_overflow (S stack)).
  - intros tag attrs cs acc Htag Hhref.
    assert (Hself : CallStack.extractChildren stack (Elem tag attrs cs) =
                    CallStack.extractChildren stack
                      (Elem tag ((lit "href", []) :: attrs) cs))
      by (destruct stack; reflexivity).
    unfold extractStep. cbv zeta. rewrite Htag, Hself.
    change (str_eqb (lit "a") (lit "i") || str_eqb (lit "a") (lit "em")) with false.
    change (str_eqb (lit "a") (lit "b") || str_eqb (lit "a") (lit "strong")) with false.
    change (str_eqb (lit "a") (lit "u")) with false.
    change (str_eqb (lit "a") (lit "sup")) with false.
    change (str_eqb (lit "a") (lit "sub")) with false.
    change (str_eqb (lit "a") (lit "a")) with true.
    cbv iota.
    change (getAttribute (Elem tag attrs cs) (lit "href"))
      with (lookup_attr (lit "href") attrs).
    change (getAttribute (Elem tag ((lit "href", []) :: attrs) cs) (lit "href"))
      with (Some (@nil char)).
    rewrite Hhref. reflexivity.
Qed.

Lemma extractTextWithFormatting_total_within_stack_witness :
  (frames (para [Text (lit "see "); Elem (lit "A") [] [Text (lit "here")]]) <= 2)%nat /\
  CallStack.extractTextWithFormatting 2
    (Some (para [Text (lit "see "); Elem (lit "A") [] [Text (lit "here")]]))
  = Ok (lit "see here") /\
  CallStack.extractTextWithFormatting 2 (Some (nest 3)) = Throw RangeError /\
  extractStep (CallStack.extractChildren 2) (Elem (lit "A") [] [Text (lit "here")]) [] =
  extractStep (CallStack.extractChildren 2)
    (Elem (lit "A") [(lit "href", [])] [Text (lit "here")]) [].
Proof.
  pose proof (extractTextWithFormatting_total_within_stack 2)
    as (Hret & _ & _ & (_ & Hover) & Hhref).
  split; [vm_compute; lia|]. split; [|split; [exact Hover|]].
  - destruct (Hret (para [Text (lit "see "); Elem (lit "A") [] [Text (lit "here")]]))
      as (s & Hs & Hs'); [vm_compute; lia|].
    rewrite Hs. vm_compute in Hs'. injection Hs' as <-. reflexivity.
  - apply Hhref; reflexivity.
Defined.

(** C9 (as stated) fails: whatever room the call stack has, the extractor
    throws on some node. *)
Lemma extractTextWithFormatting_overflows :
  ~ (exists stack : nat,
       forall n : node,
         exists s, CallStack.extractTextWithFormatting stack (Some n) = Ok s).
Proof.
  intros (stack & H). destruct (H (nest (S stack))) as (s & Hs).
  destruct stack as [|stack]; [discriminate Hs|].
  change (CallStack.extractChildren (S stack) (nest (S (S stack))) = Ok s) in Hs.
  rewrite extractChildren_overflow in Hs. discriminate Hs.
Qed.

(** ** The text normaliser *)

Section StringFacts.

Lemma startsWith_app (p s : str) :
  startsWith p s = true <-> exists b, s = p ++ b.
Proof.
  revert s. induction p as [|x p IH]; intros s; simpl.
  - split; [intros _; exists s; reflexivity | reflexivity].
  - destruct s as [|y s].
    + split; [discriminate | intros [b H]; discriminate H].
    + rewrite andb_true_iff, N.eqb_eq, IH. split.
      * intros [-> [b ->]]. exists b. reflexivity.
      * intros [b H]. injection H as -> ->. split; [reflexivity | exists b; reflexivity].
Qed.

Lemma occursb_app (e s : str) :
  occursb e s = true <-> exists a b, s = a ++ e ++ b.
Proof.
  induction s as [|c s IH]; cbn [occursb]; rewrite orb_true_iff, startsWith_app.
  - split.
    + intros [[b H] | H]; [exists [], b; exact H | discriminate H].
    + intros (a & b & H). left. destruct a as [|x a]; [|discriminate H].
      exists b. exact H.
  - rewrite IH. split.
    + intros [[b H] | (a & b & H)].
      * exists [], b. exact H.
      * exists (c :: a), b. rewrite H. reflexivity.
    + intros (a & b & H). destruct a as [|x a].
      * left. exists b. exact H.
      * right. injection H as -> ->. exists a, b. reflexivity.
Qed.

(** An occurrence inside a part of a string is an occurrence in the
    string. *)
Lemma occursb_infix (e m a b : str) :
  occursb e (a ++ m ++ b) = false -> occursb e m = false.
Proof.
  intros H. destruct (occursb e m) eqn:E; [|reflexivity].
  apply occursb_app in E as (a' & b' & ->).
  assert (occursb e (a ++ (a' ++ e ++ b') ++ b) = true) as H'.
  { apply occursb_app. exists (a ++ a'), (b' ++ b).
    rewrite <- !app_assoc. reflexivity. }
  congruence.
Qed.

Lemma occursb_tail (e : str) (c : char) (s : str) :
  occursb e (c :: s) = false -> occursb e s = false.
Proof.
  cbn [occursb]. intros H. apply orb_false_iff in H. apply H.
Qed.

Lemma ws_run_suffix (a s : str) : ws_run (a ++ s) = false -> ws_run s = false.
Proof.
  induction a as [|x a IH]; [trivial|]. intros H. apply IH.
  cbn [app ws_run] in H. destruct (a ++ s); [reflexivity|].
  apply orb_false_iff in H. apply H.
Qed.

Lemma ws_run_prefix (s b : str) : ws_run (s ++ b) = false -> ws_run s = false.
Proof.
  induction s as [|x s IH]; [reflexivity|]. intros H.
  cbn [app ws_run] in H. cbn [ws_run]. destruct s as [|y s]; [reflexivity|].
  cbn [app] in H, IH. apply orb_false_iff in H as [H1 H2].
  rewrite H1. apply IH. exact H2.
Qed.

(** *** [trim] *)

Lemma trimStart_suffix (s : str) : exists w, s = w ++ trimStart s.
Proof.
  induction s as [|c s [w IH]]; simpl.
  - exists []. reflexivity.
  - destruct (isWhiteSpace c).
    + exists (c :: w). simpl. f_equal. exact IH.
    + exists []. reflexivity.
Qed.

Lemma trimStart_head (s : str) : starts_with_ws (trimStart s) = false.
Proof.
  induction s as [|c s IH]; simpl; [reflexivity|].
  destruct (isWhiteSpace c) eqn:E; [exact IH | simpl; exact E].
Qed.

Lemma trimEnd_prefix (s : str) : exists w, s = trimEnd s ++ w.
Proof.
  unfold trimEnd. destruct (trimStart_suffix (rev s)) as [w H].
  exists (rev w). rewrite <- rev_app_distr, <- H, rev_involutive. reflexivity.
Qed.

Lemma trim_infix (s : str) : exists a b, s = a ++ trim s ++ b.
Proof.
  unfold trim. destruct (trimStart_suffix s) as [a Ha].
  destruct (trimEnd_prefix (trimStart s)) as [b Hb].
  exists a, b. rewrite <- Hb. exact Ha.
Qed.

Lemma trim_head (s : str) : starts_with_ws (trim s) = false.
Proof.
  unfold trim. pose proof (trimStart_head s) as H.
  destruct (trimEnd_prefix (trimStart s)) as [w Hw].
  destruct (trimEnd (trimStart s)) as [|c t] eqn:E; [reflexivity|].
  rewrite Hw in H. exact H.
Qed.

Lemma trim_last (s : str) : ends_with_ws (trim s) = false.
Proof.
  unfold ends_with_ws, trim, trimEnd. rewrite rev_involutive.
  apply trimStart_head.
Qed.

(** *** [replace(/\s+/g, ' ')] *)

Lemma collapse_from_chars (s : str) :
  forall b c, In c (collapse_from b s) -> isWhiteSpace c = true -> c = space.
Proof.
  induction s as [|x s IH]; intros b c Hin Hws; simpl in Hin; [contradiction|].
  destruct (isWhiteSpace x) eqn:E.
  - destruct b.
    + eapply IH; eassumption.
    + destruct Hin as [<-|Hin]; [reflexivity | eapply IH; eassumption].
  - destruct Hin as [<-|Hin]; [congruence | eapply IH; eassumption].
Qed.

Lemma collapse_from_no_run (s : str) :
  starts_with_ws (collapse_from true s) = false /\
  forall b, ws_run (collapse_from b s) = false.
Proof.
  induction s as [|x s [IH1 IH2]]; simpl; [split; [reflexivity | intros b; reflexivity]|].
  destruct (isWhiteSpace x) eqn:E.
  - split; [exact IH1|]. intros [|]; [apply IH2|].
    specialize (IH2 true).
    cbn [ws_run]. destruct (collapse_from true s) as [|y t]; [reflexivity|].
    simpl in IH1. rewrite IH1, andb_false_r. exact IH2.
  - split; [simpl; exact E|]. intros b. specialize (IH2 false).
    cbn [ws_run]. destruct (collapse_from false s) as [|y t]; [reflexivity|].
    rewrite E. exact IH2.
Qed.

Lemma startsWith_collapse (e : str) :
  no_ws e = true ->
  forall s, startsWith e (collapse_from false s) = true -> startsWith e s = true.
Proof.
  induction e as [|x e IH]; intros Hws s H; [reflexivity|].
  simpl in Hws. apply andb_true_iff in Hws as [Hx He].
  destruct s as [|y s]; simpl in H; [discriminate H|].
  destruct (isWhiteSpace y) eqn:E.
  - simpl in H. apply andb_true_iff in H as [H _]. apply N.eqb_eq in H.
    subst x. unfold space in Hx. vm_compute in Hx. discriminate Hx.
  - simpl in H. apply andb_true_iff in H as [H1 H2]. simpl.
    rewrite H1. simpl. apply IH; assumption.
Qed.

Lemma occursb_collapse (x : char) (e : str) :
  no_ws (x :: e) = true ->
  forall s b, occursb (x :: e) (collapse_from b s) = true ->
              occursb (x :: e) s = true.
Proof.
  intros Hws. induction s as [|y s IH]; intros b H.
  - simpl in H. discriminate H.
  - cbn [collapse_from] in H. cbn [occursb]. apply orb_true_iff.
    destruct (isWhiteSpace y) eqn:E.
    + right. destruct b; [eapply IH; exact H|].
      cbn [occursb] in H. apply orb_true_iff in H as [H|H]; [|eapply IH; exact H].
      simpl in H. apply andb_true_iff in H as [H _]. apply N.eqb_eq in H.
      simpl in Hws. apply andb_true_iff in Hws as [Hx _].
      subst x. vm_compute in Hx. discriminate Hx.
    + cbn [occursb] in H. apply orb_true_iff in H as [H|H].
      * left. apply (startsWith_collapse _ Hws (y :: s)).
        cbn [collapse_from]. rewrite E. exact H.
      * right. eapply IH; exact H.
Qed.

(** *** [replace(/pat/g, rep)] with a replacement of one code unit *)

Variable pat : str.
Variable r : char.

Lemma replace_from_chars (s : str) :
  forall k c, In c (replace_from pat [r] k s) -> In c s \/ c = r.
Proof.
  induction s as [|x s IH]; intros k c Hin; cbn [replace_from] in Hin;
    [contradiction|].
  destruct k as [|k].
  - destruct (startsWith pat (x :: s)).
    + destruct Hin as [<-|Hin]; [right; reflexivity|].
      destruct (IH _ _ Hin); [left; right; assumption | right; assumption].
    + destruct Hin as [<-|Hin]; [left; left; reflexivity|].
      destruct (IH _ _ Hin); [left; right; assumption | right; assumption].
  - destruct (IH _ _ Hin); [left; right; assumption | right; assumption].
Qed.

Lemma startsWith_replace (e : str) :
  existsb (N.eqb r) e = false ->
  forall s, startsWith e (replace_from pat [r] O s) = true ->
            startsWith e s = true.
Proof.
  induction e as [|x e IH]; intros Hr s H; [reflexivity|].
  simpl in Hr. apply orb_false_iff in Hr as [Hx He].
  destruct s as [|y s]; cbn [replace_from] in H; [discriminate H|].
  destruct (startsWith pat (y :: s)).
  - simpl in H. apply andb_true_iff in H as [H _].
    rewrite N.eqb_sym in H. congruence.
  - simpl in H. apply andb_true_iff in H as [H1 H2]. simpl.
    rewrite H1. simpl. apply IH; assumption.
Qed.

(** A replacement by a code unit foreign to [e] creates no occurrence of
    [e]. *)
Lemma occursb_replace (x : char) (e : str) :
  existsb (N.eqb r) (x :: e) = false ->
  forall s k, occursb (x :: e) (replace_from pat [r] k s) = true ->
              occursb (x :: e) s = true.
Proof.
  intros Hr. induction s as [|y s IH]; intros k H.
  - simpl in H. discriminate H.
  - cbn [replace_from] in H. cbn [occursb]. apply orb_true_iff.
    destruct k as [|k]; [|right; eapply IH; exact H].
    destruct (startsWith pat (y :: s)) eqn:E.
    + right. cbn [app occursb] in H. apply orb_true_iff in H as [H|H];
        [|eapply IH; exact H].
      simpl in H. apply andb_true_iff in H as [H _].
      simpl in Hr. apply orb_false_iff in Hr as [Hx _].
      rewrite N.eqb_sym in H. congruence.
    + cbn [occursb] in H. apply orb_true_iff in H as [H|H].
      * left. apply (startsWith_replace _ Hr (y :: s)).
        cbn [replace_from]. rewrite E. exact H.
      * right. eapply IH; exact H.
Qed.

Lemma occursb_replace_false (x : char) (e s : str) :
  existsb (N.eqb r) (x :: e) = false ->
  occursb (x :: e) s = false ->
  occursb (x :: e) (replaceAll pat [r] s) = false.
Proof.
  intros Hr Hs. destruct (occursb (x :: e) (replaceAll pat [r] s)) eqn:E;
    [|reflexivity].
  apply (occursb_replace _ _ Hr) in E. congruence.
Qed.

End StringFacts.

(** After the replacement of a pattern by a code unit foreign to it, the
    pattern occurs no more. *)
Lemma occursb_replaced (x : char) (e : str) (r : char) :
  existsb (N.eqb r) (x :: e) = false ->
  forall s k, occursb (x :: e) (replace_from (x :: e) [r] k s) = false.
Proof.
  intros Hr. induction s as [|y s IH]; intros k; [reflexivity|].
  cbn [replace_from]. destruct k as [|k]; [|apply IH].
  destruct (startsWith (x :: e) (y :: s)) eqn:E.
  - cbn [app occursb]. rewrite IH, orb_false_r.
    simpl. simpl in Hr. apply orb_false_iff in Hr as [Hx _].
    rewrite N.eqb_sym, Hx. reflexivity.
  - cbn [occursb]. rewrite IH, orb_false_r.
    destruct (startsWith (x :: e) (y :: replace_from (x :: e) [r] 0 s)) eqn:E';
      [|reflexivity].
    rewrite <- E. symmetry.
    apply (startsWith_replace (x :: e) r (x :: e) Hr (y :: s)).
    cbn [replace_from]. rewrite E. exact E'.
Qed.

(** Where the pattern does not occur the replacement changes nothing. *)
Lemma replaceAll_absent (pat rep s : str) :
  occursb pat s = false -> replaceAll pat rep s = s.
Proof.
  unfold replaceAll. induction s as [|c s IH]; intros H; [reflexivity|].
  cbn [occursb] in H. apply orb_false_iff in H as [H1 H2].
  cbn [replace_from]. rewrite H1. f_equal. apply IH. exact H2.
Qed.

Lemma cleanText_eq (t : str) :
  cleanText t = trim (replaceAll (lit "&nbsp;") (lit " ") (collapse_ws t)).
Proof. destruct t; reflexivity. Qed.

Lemma normalizeText_eq (t : str) :
  normalizeText t =
  fold_left (fun s pr => replaceAll (fst pr) (snd pr) s) normalize_table t.
Proof. destruct t; reflexivity. Qed.

Lemma occursb_replaced_all (pat : str) (r : char) (s : str) :
  pat <> [] -> existsb (N.eqb r) pat = false ->
  occursb pat (replaceAll pat [r] s) = false.
Proof.
  destruct pat as [|x e]; [congruence|]. intros _ Hr.
  apply occursb_replaced. exact Hr.
Qed.

Lemma occursb_replace_keeps (e pat : str) (r : char) (s : str) :
  e <> [] -> existsb (N.eqb r) e = false ->
  occursb e s = false -> occursb e (replaceAll pat [r] s) = false.
Proof.
  destruct e as [|x e]; [congruence|]. intros _ Hr.
  apply occursb_replace_false. exact Hr.
Qed.

Lemma occursb_collapse_keeps (e s : str) :
  e <> [] -> no_ws e = true ->
  occursb e s = false -> occursb e (collapse_ws s) = false.
Proof.
  destruct e as [|x e]; [congruence|]. intros _ Hws Hs.
  destruct (occursb (x :: e) (collapse_ws s)) eqn:E; [|reflexivity].
  apply (occursb_collapse x e Hws) in E. congruence.
Qed.

Lemma occursb_trim_keeps (e s : str) :
  occursb e s = false -> occursb e (trim s) = false.
Proof.
  destruct (trim_infix s) as (a & b & H). intros Hs. rewrite H in Hs.
  eapply occursb_infix. exact Hs.
Qed.

Ltac replaced_or_kept :=
  repeat first
    [ apply occursb_replaced_all; [discriminate | reflexivity]
    | apply occursb_replace_keeps; [discriminate | reflexivity | ] ].

(** [normalizeText] leaves no entity of its table. *)
Lemma normalizeText_no_entity (s e : str) :
  In e entity_table -> occursb e (normalizeText s) = false.
Proof.
  intros Hin. rewrite normalizeText_eq.
  unfold normalize_table. cbn [fold_left fst snd].
  unfold entity_table in Hin. cbn [In] in Hin.
  destruct Hin as [<- | [<- | [<- | [<- | [<- | []]]]]]; replaced_or_kept.
Qed.



Lemma cleanText_trimmed (t : str) :
  starts_with_ws (cleanText t) = false /\ ends_with_ws (cleanText t) = false.
Proof.
  rewrite cleanText_eq. split; [apply trim_head | apply trim_last].
Qed.

Lemma cleanText_spaces_only (t : str) (c : char) :
  In c (cleanText t) -> isWhiteSpace c = true -> c = space.
Proof.
  rewrite cleanText_eq. intros Hin Hws.
  destruct (trim_infix (replaceAll (lit "&nbsp;") (lit " ") (collapse_ws t)))
    as (a & b & H).
  assert (Hin' : In c (replaceAll (lit "&nbsp;") (lit " ") (collapse_ws t))).
  { rewrite H. apply in_or_app. right. apply in_or_app. left. exact Hin. }
  apply (replace_from_chars (lit "&nbsp;") space) in Hin' as [Hin' | ->];
    [|reflexivity].
  eapply collapse_from_chars; eassumption.
Qed.

Lemma cleanText_no_run (t : str) :
  occursb (lit "&nbsp;") t = false -> ws_run (cleanText t) = false.
Proof.
  intros Ht. rewrite cleanText_eq.
  rewrite replaceAll_absent
    by (apply occursb_collapse_keeps; [discriminate | reflexivity | exact Ht]).
  destruct (trim_infix (collapse_ws t)) as (a & b & H).
  pose proof (proj2 (collapse_from_no_run t) false) as Hrun.
  fold (collapse_ws t) in Hrun. rewrite H in Hrun.
  apply ws_run_suffix in Hrun. apply ws_run_prefix in Hrun. exact Hrun.
Qed.

(** ** The numbers captured by the patterns of the questions pass *)

Section MatcherFacts.
Context {A : Type} (icase : bool).

(** A greedy repetition consumes a prefix made of members of the class, of
    a length within the bounds, and hands the rest to the continuation. *)
Lemma m_rep_consumes (cl : cclass) (s : str) :
  forall lo hi prev cap (k : @kont A) x,
    m_rep icase cl lo hi prev s cap k = Some x ->
    exists pre s' p',
      s = pre ++ s' /\
      forallb (class_mem icase cl) pre = true /\
      (lo <= length pre)%nat /\
      (forall h, hi = Some h -> (length pre <= h)%nat) /\
      k p' s' cap = Some x.
Proof.
  induction s as [|c t IH]; intros lo hi prev cap k x H.
  - cbn [m_rep] in H. destruct lo; [|discriminate H].
    exists [], [], prev.
    split; [reflexivity|]. split; [reflexivity|]. split; [simpl; lia|].
    split; [intros; simpl; lia | exact H].
  - cbn [m_rep] in H.
    assert (Hstop : match lo with O => k prev (c :: t) cap | S _ => None end = Some x ->
                    exists pre s' p',
                      c :: t = pre ++ s' /\
                      forallb (class_mem icase cl) pre = true /\
                      (lo <= length pre)%nat /\
                      (forall h, hi = Some h -> (length pre <= h)%nat) /\
                      k p' s' cap = Some x).
    { intros Hs. destruct lo; [|discriminate Hs].
      exists [], (c :: t), prev.
      split; [reflexivity|]. split; [reflexivity|]. split; [simpl; lia|].
      split; [intros; simpl; lia | exact Hs]. }
    destruct (class_mem icase cl c && may_take hi) eqn:E; [|apply Hstop; exact H].
    apply andb_true_iff in E as [Ec Eh].
    destruct (m_rep icase cl (Nat.pred lo) (option_map Nat.pred hi) (Some c) t cap k)
      as [x'|] eqn:Em; [|apply Hstop; exact H].
    injection H as <-.
    apply IH in Em as (pre & s' & p' & -> & Hpre & Hlo & Hhi & Hk).
    exists (c :: pre), s', p'.
    split; [reflexivity|]. split; [simpl; rewrite Ec, Hpre; reflexivity|].
    split; [simpl; lia|]. split; [|exact Hk].
    intros h ->. simpl in Eh. destruct h as [|h]; [discriminate Eh|].
    specialize (Hhi h eq_refl). simpl. lia.
Qed.

(** A pattern without group leaves the capture as it is. *)
Lemma m_groupless (r : regex) :
  groupless r = true ->
  forall prev s cap (k : @kont A) x,
    m icase r prev s cap k = Some x ->
    exists p' s', k p' s' cap = Some x.
Proof.
  induction r as [|cl|a IHa b IHb|a IHa b IHb|a IHa|cl lo hi| | | |a IHa];
    intros Hg prev s cap k x H; cbn [m] in H; cbn [groupless] in Hg.
  - eauto.
  - destruct s as [|c t]; [discriminate H|].
    destruct (class_mem icase cl c); [eauto | discriminate H].
  - apply andb_true_iff in Hg as [Ha Hb].
    apply (IHa Ha) in H as (p1 & s1 & H). apply (IHb Hb) in H. exact H.
  - apply andb_true_iff in Hg as [Ha Hb].
    destruct (m icase a prev s cap k) as [x'|] eqn:E.
    + injection H as <-. apply (IHa Ha) in E. exact E.
    + apply (IHb Hb) in H. exact H.
  - destruct (m icase a prev s cap k) as [x'|] eqn:E.
    + injection H as <-. apply (IHa Hg) in E. exact E.
    + eauto.
  - apply m_rep_consumes in H as (pre & s' & p' & _ & _ & _ & _ & H). eauto.
  - destruct prev; [discriminate H | eauto].
  - destruct s; [eauto | discriminate H].
  - destruct (xorb (isWordAt prev) (isWordAt (hd_error s))); [eauto | discriminate H].
  - discriminate Hg.
Qed.

(** A capturing group around a repetition of digits captures the digits
    consumed. *)
Lemma m_group_digits (lo : nat) (hi : option nat) :
  forall prev s cap (k : @kont A) x,
    m icase (Group (Rep CDigit lo hi)) prev s cap k = Some x ->
    exists g p' s',
      forallb isDigit g = true /\ (lo <= length g)%nat /\
      k p' s' (Some g) = Some x.
Proof.
  intros prev s cap k x H. cbn [m] in H.
  apply m_rep_consumes in H as (pre & s' & p' & -> & Hpre & Hlo & _ & H).
  rewrite length_app in H.
  replace (length pre + length s' - length s')%nat with (length pre) in H by lia.
  rewrite firstn_app, firstn_all, Nat.sub_diag in H. cbn [firstn] in H.
  rewrite app_nil_r in H.
  exists pre, p', s'. split; [exact Hpre|]. split; [exact Hlo | exact H].
Qed.

Lemma m_seq_groupless (a b : regex) :
  groupless a = true ->
  forall prev s cap (k : @kont A) x,
    m icase (Seq a b) prev s cap k = Some x ->
    exists p' s', m icase b p' s' cap k = Some x.
Proof.
  intros Ha prev s cap k x H. cbn [m] in H.
  apply (m_groupless a Ha) in H. exact H.
Qed.

Lemma m_seq_group_digits (lo : nat) (hi : option nat) (b : regex) :
  forall prev s cap (k : @kont A) x,
    m icase (Seq (Group (Rep CDigit lo hi)) b) prev s cap k = Some x ->
    exists g p' s',
      forallb isDigit g = true /\ (lo <= length g)%nat /\
      m icase b p' s' (Some g) k = Some x.
Proof.
  intros prev s cap k x H.
  change (m icase (Seq (Group (Rep CDigit lo hi)) b) prev s cap k)
    with (m icase (Group (Rep CDigit lo hi)) prev s cap
            (fun p' s' c' => m icase b p' s' c' k)) in H.
  apply m_group_digits in H. exact H.
Qed.
End MatcherFacts.

Lemma exec_from_inv (icase : bool) (r : regex) (s : str) :
  forall prev before mt,
    exec_from icase r prev before s = Some mt ->
    exists p0 s0,
      m icase r p0 s0 None (fun _ s' cap => Some (s', cap))
      = Some (m_after mt, m_group mt).
Proof.
  induction s as [|c t IH]; intros prev before mt H; cbn [exec_from] in H.
  - destruct (m icase r prev [] None (fun _ s' cap => Some (s', cap)))
      as [[s' cap]|] eqn:E; [|discriminate H].
    injection H as <-. exists prev, []. exact E.
  - destruct (m icase r prev (c :: t) None (fun _ s' cap => Some (s', cap)))
      as [[s' cap]|] eqn:E.
    + injection H as <-. exists prev, (c :: t). exact E.
    + apply IH in H. exact H.
Qed.

Lemma parse_digits_some (g : str) :
  forall acc, exists v, parse_digits (Some acc) g = Some v.
Proof.
  induction g as [|c g IH]; intros acc; simpl; [eauto|].
  destruct (isDigit c); [apply IH | eauto].
Qed.

Lemma parseInt_digits (g : str) :
  forallb isDigit g = true -> (1 <= length g)%nat ->
  exists v, parseInt g = Some v.
Proof.
  destruct g as [|c g]; simpl; [lia|]. intros H _.
  apply andb_true_iff in H as [Hc _].
  assert (isWhiteSpace c = false) as Hws.
  { unfold isDigit in Hc. apply andb_true_iff in Hc as [H1 H2].
    apply N.leb_le in H1, H2. unfold isWhiteSpace.
    repeat (apply orb_false_iff; split);
      try (apply andb_false_iff; left; apply N.leb_gt; lia);
      try (apply andb_false_iff; right; apply N.leb_gt; lia);
      apply N.eqb_neq; lia. }
  unfold parseInt. cbn [trimStart]. rewrite Hws.
  assert ((c =? 45) = false) as ->.
  { unfold isDigit in Hc. apply andb_true_iff in Hc as [H1 H2].
    apply N.leb_le in H1, H2. apply N.eqb_neq. lia. }
  assert ((c =? 43) = false) as ->.
  { unfold isDigit in Hc. apply andb_true_iff in Hc as [H1 H2].
    apply N.leb_le in H1, H2. apply N.eqb_neq. lia. }
  cbn [parse_digits]. rewrite Hc. apply parse_digits_some.
Qed.

(** For a match of [re_numOnly] or of [re_numAtStart], group 1 is a
    non-empty string of digits and [capturedNumber] is the number
    [parseInt] reads from it. *)
Lemma capturedNumber_is_parseInt (r : regex) (s : str) (mt : rmatch) :
  r = re_numOnly \/ r = re_numAtStart ->
  exec false r s = Some mt ->
  exists g,
    m_group mt = Some g /\ forallb isDigit g = true /\
    parseInt g = Some (capturedNumber mt).
Proof.
  intros Hr H. unfold exec in H. apply exec_from_inv in H as (p0 & s0 & H).
  assert (Hg : exists g, m_group mt = Some g /\ forallb isDigit g = true /\
                         (1 <= length g)%nat).
  { destruct Hr as [-> | ->]; unfold re_numOnly, re_numAtStart, cat in H;
      cbn [fold_right] in H;
      (apply m_seq_groupless in H as (p1 & s1 & H); [|reflexivity]);
      (apply m_seq_groupless in H as (p2 & s2 & H); [|reflexivity]);
      apply m_seq_group_digits in H as (g & p3 & s3 & Hd & Hl & H);
      (apply m_groupless in H as (p4 & s4 & H); [|reflexivity]);
      injection H as _ <-; exists g; auto. }
  destruct Hg as (g & Hg & Hd & Hl). exists g. split; [exact Hg|].
  split; [exact Hd|]. unfold capturedNumber. rewrite Hg. cbn [or_empty].
  destruct (parseInt_digits g Hd Hl) as (v & ->). unfold num_or.
  destruct (Z.eqb_spec v 0) as [->|]; reflexivity.
Qed.

(** * Further properties of the code *)

(** ** Document order *)

Lemma chained_nth (L : list loc) (final : option loc) :
  chained L final ->
  forall i l,
    nth_error L i = Some l ->
    nextNode (Some l) =
    match nth_error L (S i) with Some l' => Some l' | None => final end.
Proof.
  induction L as [|a t IH]; intros H i l Hn.
  - destruct i; discriminate Hn.
  - destruct H as [Ha Ht]. destruct i as [|i].
    + injection Hn as <-. rewrite Ha. destruct t; reflexivity.
    + apply (IH Ht i l Hn).
Qed.

Lemma nextNode_document_order_aux (d : document) (i : nat) (l : loc) :
  nth_error (doc_locs d) i = Some l ->
  nextNode (Some l) = nth_error (doc_locs d) (S i).
Proof.
  intros H. rewrite (chained_nth _ _ (doc_locs_chained d) i l H).
  destruct (nth_error (doc_locs d) (S i)); reflexivity.
Qed.

(** X1.  [nextNode] walks the document in document order: the node it
    gives after the [i]-th node of the document is the [i+1]-th one, and
    after the last node it gives [null]. *)
Theorem nextNode_document_order :
  forall (d : document) (i : nat) (l : loc),
    nth_error (doc_locs d) i = Some l ->
    nextNode (Some l) = nth_error (doc_locs d) (S i).
Proof.
  intros d i l H.
  rewrite (chained_nth _ _ (doc_locs_chained d) i l H).
  destruct (nth_error (doc_locs d) (S i)); reflexivity.
Qed.

Lemma nextNode_document_order_witness :
  nth_error (doc_locs doc_two_paragraphs) 5 =
    Some (mkLoc (anchor (lit "par1")) [] [Text (lit "A")]
            [ mkFrame (lit "P") [] [] [para [anchor (lit "par2"); Text (lit "B")]];
              mkFrame (lit "BODY") [] [Elem (lit "HEAD") [] []] [];
              mkFrame (lit "HTML") [] [Other (lit "html")] [] ]) /\
  nextNode (Some (mkLoc (anchor (lit "par1")) [] [Text (lit "A")]
            [ mkFrame (lit "P") [] [] [para [anchor (lit "par2"); Text (lit "B")]];
              mkFrame (lit "BODY") [] [Elem (lit "HEAD") [] []] [];
              mkFrame (lit "HTML") [] [Other (lit "html")] [] ]))
  = nth_error (doc_locs doc_two_paragraphs) 6.
Proof.
  split; [reflexivity|].
  apply (nextNode_document_order doc_two_paragraphs 5). reflexivity.
Defined.

(** ** Termination and shape of [collectBetween] *)

Lemma collectLoop_more_fuel (fuel : nat) :
  forall endEl text node t,
    collectLoop fuel endEl text node = Ok t ->
    forall fuel', (fuel <= fuel')%nat ->
                  collectLoop fuel' endEl text node = Ok t.
Proof.
  induction fuel as [|fuel IH]; intros endEl text node t H fuel' Hle.
  - destruct node as [l|]; cbn [collectLoop] in H.
    + destruct fuel' as [|fuel']; cbn [collectLoop];
        destruct (same_node l endEl); try exact H; discriminate H.
    + destruct fuel'; exact H.
  - destruct fuel' as [|fuel']; [lia|].
    destruct node as [l|]; cbn [collectLoop] in *; [|exact H].
    destruct (same_node l endEl); [exact H|].
    destruct (here l) as [dt|dt|tg a cs].
    + apply (IH _ _ _ _ H). lia.
    + apply (IH _ _ _ _ H). lia.
    + cbv zeta in *.
      destruct (truthy (anchorName (Elem tg a cs)) &&
                test true anchorPattern (anchorName (Elem tg a cs))); [exact H|].
      apply bind_Ok_inv in H as (inner & -> & H). cbn [bind].
      apply (IH _ _ _ _ H). lia.
Qed.

Lemma collectLoop_clean (fuel : nat) :
  forall endEl text node t,
    collectLoop fuel endEl text node = Ok t -> exists raw, t = cleanText raw.
Proof.
  induction fuel as [|fuel IH]; intros endEl text node t H.
  - destruct node as [l|]; cbn [collectLoop] in H.
    + destruct (same_node l endEl); [|discriminate H].
      injection H as <-. eauto.
    + injection H as <-. eauto.
  - destruct node as [l|]; cbn [collectLoop] in H;
      [|injection H as <-; eauto].
    destruct (same_node l endEl); [injection H as <-; eauto|].
    destruct (here l) as [dt|dt|tg a cs].
    + apply (IH _ _ _ _ H).
    + apply (IH _ _ _ _ H).
    + cbv zeta in H.
      destruct (truthy (anchorName (Elem tg a cs)) &&
                test true anchorPattern (anchorName (Elem tg a cs)));
        [injection H as <-; eauto|].
      apply bind_Ok_inv in H as (inner & _ & H). apply (IH _ _ _ _ H).
Qed.

(** ** The parser and the call stack *)


Section StackRefines.
Variable stack : nat.

Lemma collectLoop_refines (fuel : nat) :
  forall endEl text node,
    refines (CallStack.collectLoop stack fuel endEl text node)
            (collectLoop fuel endEl text node).
Proof.
  induction fuel as [|fuel IH]; intros endEl text node.
  - apply refines_refl.
  - destruct node as [nd|]; [|reflexivity].
    cbn [CallStack.collectLoop collectLoop].
    destruct (same_node nd endEl); [reflexivity|].
    destruct (here nd) as [t|t|tg a cs] eqn:E; try apply IH.
    cbv zeta.
    destruct (truthy (anchorName (Elem tg a cs)) &&
              test true anchorPattern (anchorName (Elem tg a cs)));
      [reflexivity|].
    apply refines_bind; [apply extractTextWithFormatting_refines|].
    intros t. apply IH.
Qed.

Lemma collectBetween_refines (startEl : loc) (endEl : option loc) :
  refines (CallStack.collectBetween stack startEl endEl)
          (collectBetween startEl endEl).
Proof. apply collectLoop_refines. Qed.










Lemma generalLoop_refines (ty : sectionType) (ps : list loc) :
  forall counter s,
    refines (CallStack.generalLoop stack ty counter s ps)
            (generalLoop ty counter s ps).
Proof.
  induction ps as [|p ps IH]; intros counter s; [reflexivity|].
  cbn [CallStack.generalLoop generalLoop].
  apply refines_bind; [apply extractTextWithFormatting_refines|].
  intros t. cbv zeta.
  match goal with |- refines (if ?b then _ else _) _ => destruct b end;
    apply IH.
Qed.

Section Navigation.
Variable toLowerCase : str -> str.
Variable selectorOf : selectorEngine.
Variable d : document.



End Navigation.
End StackRefines.

(** ** Positions and their document *)

Lemma nextSibling_doc (l l' : loc) :
  nextSibling l = Some l' -> doc_of l' = doc_of l.
Proof.
  unfold nextSibling. destruct l as [n ls [|r rs] us]; cbn; intros H;
    [discriminate|].
  injection H as <-. unfold doc_of. cbn. rewrite <- app_assoc. reflexivity.
Qed.

Lemma climb_doc (us : list frame) :
  forall n ls rs l',
    climb n ls rs us = Some l' -> doc_of l' = plug_up (rev ls ++ n :: rs) us.
Proof.
  induction us as [|f fs IH]; intros n ls [|r rs] l' H; cbn in H;
    try discriminate;
    try (injection H as <-; unfold doc_of; cbn; rewrite <- app_assoc;
         reflexivity).
  apply IH in H. rewrite H. reflexivity.
Qed.

Lemma nextNode_doc (l l' : loc) :
  nextNode (Some l) = Some l' -> doc_of l' = doc_of l.
Proof.
  unfold nextNode, firstChild. destruct l as [n ls rs us]; cbn.
  destruct n as [t|t|t a [|c cs]]; intros H;
    try (apply climb_doc in H; exact H).
  injection H as <-. reflexivity.
Qed.

Lemma plug_up_nesting (us : list frame) :
  forall sibs n,
    In n sibs ->
    exists m, In m (plug_up sibs us) /\ (nesting n <= nesting m)%nat.
Proof.
  induction us as [|f fs IH]; intros sibs n Hn; cbn [plug_up].
  - exists n. split; [exact Hn | lia].
  - destruct (IH (rev (f_lefts f) ++ Elem (f_tag f) (f_attrs f) sibs :: f_rights f)
                 (Elem (f_tag f) (f_attrs f) sibs)) as (m & Hm & Hle).
    + apply in_or_app. right. left. reflexivity.
    + exists m. split; [exact Hm|].
      cbn [nesting] in Hle.
      pose proof (list_max_In (nesting n) (map nesting sibs)
                    (in_map nesting sibs n Hn)).
      lia.
Qed.

Lemma here_shallow (stack : nat) (l : loc) :
  shallow stack (doc_of l) = true -> (frames (here l) <= stack)%nat.
Proof.
  intros H. unfold shallow in H. rewrite forallb_forall in H.
  destruct (plug_up_nesting (ups l) (rev (lefts l) ++ here l :: rights l)
              (here l)) as (m & Hm & Hle).
  - apply in_or_app. right. left. reflexivity.
  - specialize (H m Hm). apply Nat.leb_le in H. unfold frames in *. lia.
Qed.

Lemma collectLoop_enough (stack : nat) (D : document) :
  shallow stack D = true ->
  forall fuel endEl text node,
    (forall l, node = Some l -> doc_of l = D) ->
    CallStack.collectLoop stack fuel endEl text node =
    collectLoop fuel endEl text node.
Proof.
  intros HD. induction fuel as [|fuel IH]; intros endEl text node Hdoc.
  - destruct node; reflexivity.
  - destruct node as [nd|]; [|reflexivity].
    cbn [CallStack.collectLoop collectLoop].
    destruct (same_node nd endEl); [reflexivity|].
    assert (Hnext : forall l, nextNode (Some nd) = Some l -> doc_of l = D).
    { intros l Hl. rewrite (nextNode_doc _ _ Hl). apply Hdoc. reflexivity. }
    assert (Hfr : (frames (here nd) <= stack)%nat).
    { apply here_shallow. rewrite (Hdoc nd eq_refl). exact HD. }
    destruct (here nd) as [t|t|tg a cs] eqn:E; try (apply IH; exact Hnext).
    cbv zeta.
    destruct (truthy (anchorName (Elem tg a cs)) &&
              test true anchorPattern (anchorName (Elem tg a cs)));
      [reflexivity|].
    rewrite (extractTextWithFormatting_enough stack _ Hfr).
    destruct (extractTextWithFormatting (Some (Elem tg a cs))) as [t|e];
      cbn [bind]; [|reflexivity].
    apply IH. intros l Hl.
    destruct (nextSibling nd) as [sib|] eqn:Es.
    + injection Hl as <-. rewrite (nextSibling_doc _ _ Es). apply Hdoc.
      reflexivity.
    + apply Hnext, Hl.
Qed.

Lemma collectBetween_enough (stack : nat) (startEl : loc) (endEl : option loc) :
  shallow stack (doc_of startEl) = true ->
  CallStack.collectBetween stack startEl endEl = collectBetween startEl endEl.
Proof.
  intros H. unfold CallStack.collectBetween, collectBetween.
  apply (collectLoop_enough stack (doc_of startEl) H).
  intros l Hl. apply (nextNode_doc _ _ Hl).
Qed.










Section StackEnough.
Variable stack : nat.











Section Navigation.
Variable toLowerCase : str -> str.
Variable selectorOf : selectorEngine.
Variable d : document.
Hypothesis d_shallow : shallow stack d = true.




End Navigation.
End StackEnough.

(** X2.  [collectBetween] never runs into the end of its loop: after at
    most as many iterations as there are nodes after the start node,
    whatever larger bound is given, it has returned or the call stack was
    exhausted in the extractor, which is the only exception.  The string it
    returns is an output of [cleanText]: it has neither leading nor
    trailing white space and its white space is made of plain spaces.  It
    returns when no node of the document nests deeper than the stack has
    room for. *)
Theorem collectBetween_terminates :
  forall (stack : nat) (startEl : loc) (endEl : option loc),
    (forall fuel e,
        (remaining startEl <= fuel)%nat ->
        CallStack.collectLoop stack fuel endEl [] (nextNode (Some startEl))
        = Throw e ->
        e = RangeError) /\
    (forall e,
        CallStack.collectBetween stack startEl endEl = Throw e ->
        e = RangeError) /\
    (forall t,
        CallStack.collectBetween stack startEl endEl = Ok t ->
        starts_with_ws t = false /\ ends_with_ws t = false /\
        (forall c, In c t -> isWhiteSpace c = true -> c = space)) /\
    (shallow stack (doc_of startEl) = true ->
     exists t,
       CallStack.collectBetween stack startEl endEl = Ok t /\
       forall fuel,
         (remaining startEl <= fuel)%nat ->
         CallStack.collectLoop stack fuel endEl [] (nextNode (Some startEl))
         = Ok t).
Proof.
  intros stack startEl endEl.
  assert (Htodo : (todo (nextNode (Some startEl)) <= remaining startEl)%nat).
  { pose proof (nextNode_todo startEl) as H.
    change (todo (Some startEl)) with (S (remaining startEl)) in H. lia. }
  assert (Hloop : forall fuel e,
             (remaining startEl <= fuel)%nat ->
             CallStack.collectLoop stack fuel endEl [] (nextNode (Some startEl))
             = Throw e ->
             e = RangeError).
  { intros fuel e Hfuel H.
    apply (refines_returns _ _ _
             (collectLoop_refines stack fuel endEl [] (nextNode (Some startEl))));
      [|exact H].
    apply collectLoop_returns. lia. }
  split; [exact Hloop|]. split; [|split].
  - intros e H. apply (Hloop (S (remaining startEl)) e); [lia | exact H].
  - intros t H.
    apply (refines_Ok _ _ _ (collectBetween_refines stack startEl endEl)) in H.
    unfold collectBetween in H. apply collectLoop_clean in H as (raw & ->).
    split; [apply cleanText_trimmed|]. split; [apply cleanText_trimmed|].
    intros c. apply cleanText_spaces_only.
  - intros Hsh.
    destruct (collectLoop_returns (remaining startEl) endEl []
                (nextNode (Some startEl)) Htodo) as (t & Ht).
    exists t. split.
    + rewrite (collectBetween_enough stack startEl endEl Hsh).
      unfold collectBetween. apply (collectLoop_more_fuel _ _ _ _ _ Ht). lia.
    + intros fuel Hle.
      rewrite (collectLoop_enough stack (doc_of startEl) Hsh).
      * apply (collectLoop_more_fuel _ _ _ _ _ Ht). exact Hle.
      * intros l Hl. apply (nextNode_doc _ _ Hl).
Qed.

Lemma collectBetween_terminates_witness :
  shallow 1 (doc_of (mkLoc (anchor (lit "par1")) [] [para [Text (lit " A ")]] [])) = true /\
  CallStack.collectBetween 1
    (mkLoc (anchor (lit "par1")) [] [para [Text (lit " A ")]] []) None
  = Ok (lit "A A") /\
  CallStack.collectBetween 1
    (mkLoc (anchor (lit "par1")) [] [para [nest 1]] []) None
  = Throw RangeError.
Proof.
  pose proof (collectBetween_terminates 1
                (mkLoc (anchor (lit "par1")) [] [para [Text (lit " A ")]] []) None)
    as (_ & _ & _ & Hret).
  split; [reflexivity|]. split; [|reflexivity].
  destruct (Hret eq_refl) as (t & Ht & _). rewrite Ht.
  vm_compute in Ht. injection Ht as <-. reflexivity.
Defined.

(** ** The anchor catalog *)

Lemma keepFirst_In (l : list (str * loc)) :
  forall seen a,
    In a (keepFirst seen l) -> In a l /\ str_mem (fst a) seen = false.
Proof.
  induction l as [|x rest IH]; intros seen a H; cbn [keepFirst] in H; [contradiction|].
  destruct (str_mem (fst x) seen) eqn:E.
  - apply IH in H as [H1 H2]. split; [right; exact H1 | exact H2].
  - destruct H as [<-|H]; [split; [left; reflexivity | exact E]|].
    apply IH in H as [H1 H2]. split; [right; exact H1|].
    rewrite str_mem_cons in H2. apply orb_false_iff in H2. apply H2.
Qed.

Lemma keepFirst_NoDup (l : list (str * loc)) :
  forall seen, NoDup (map fst (keepFirst seen l)).
Proof.
  induction l as [|x rest IH]; intros seen; cbn [keepFirst]; [constructor|].
  destruct (str_mem (fst x) seen); [apply IH|].
  cbn [map]. constructor; [|apply IH].
  intros Hin. apply in_map_iff in Hin as (a & Ha & Hin).
  apply keepFirst_In in Hin as [_ Hmem].
  rewrite str_mem_cons, Ha, str_eqb_refl in Hmem. discriminate Hmem.
Qed.

Lemma anchors_In (d : document) (name : str) (el : loc) :
  In (name, el) (anchors d) ->
  In el (doc_locs d) /\ isElement (here el) = true /\
  name = trim (anchorName (here el)) /\ name <> [] /\
  test true anchorPattern name = true.
Proof.
  unfold anchors, allAnchorEls. intros H.
  apply in_flat_map in H as (el0 & Hel0 & H).
  apply filter_In in Hel0 as [Hdoc Hsel].
  apply andb_true_iff in Hsel as [Helem _].
  cbv zeta in H.
  destruct (truthy (trim (anchorName (here el0))) &&
            test true anchorPattern (trim (anchorName (here el0)))) eqn:E;
    [|contradiction].
  destruct H as [H|[]]. injection H as <- <-.
  apply andb_true_iff in E as [Et Ep].
  repeat (split; [assumption || reflexivity|]).
  split; [|exact Ep].
  intros Hnil. rewrite Hnil in Et. discriminate Et.
Qed.

(** X3.  The anchor catalog: no name occurs twice in [orderedAnchors];
    each of its entries is an element of the document whose [name] (or, for
    want of one, [id]) attribute, trimmed, is the non-empty name and matches
    [anchorPattern]; and [anchorMap.get(k)] is the first element, in
    document order, that carries the name [k], later elements of the same
    name being ignored. *)
Theorem catalog_keeps_first_occurrence :
  forall d : document,
    NoDup (map fst (orderedAnchors d)) /\
    (forall name el,
        In (name, el) (orderedAnchors d) ->
        In el (doc_locs d) /\ isElement (here el) = true /\
        name = trim (anchorName (here el)) /\ name <> [] /\
        test true anchorPattern name = true) /\
    (forall k,
        Map_get (anchorMap d) k =
        match find (fun a => str_eqb (fst a) k) (anchors d) with
        | Some a => Some (snd a)
        | None => None
        end).
Proof.
  intros d. split; [apply keepFirst_NoDup|]. split.
  - intros name el H. apply keepFirst_In in H as [H _].
    apply anchors_In. exact H.
  - apply anchorMap_first.
Qed.

Lemma catalog_keeps_first_occurrence_witness :
  In (lit "pref1",
      mkLoc (anchor (lit "pref1")) []
        [ Text (lit "one"); Elem (lit "B") [(lit "id", lit " pref1 ")] [] ] [])
     (orderedAnchors
        [ anchor (lit "pref1"); Text (lit "one");
          Elem (lit "B") [(lit "id", lit " pref1 ")] [] ]) /\
  length (orderedAnchors
            [ anchor (lit "pref1"); Text (lit "one");
              Elem (lit "B") [(lit "id", lit " pref1 ")] [] ]) = 1%nat /\
  length (anchors
            [ anchor (lit "pref1"); Text (lit "one");
              Elem (lit "B") [(lit "id", lit " pref1 ")] [] ]) = 2%nat /\
  test true anchorPattern (lit "pref1") = true /\
  Map_get (anchorMap
             [ anchor (lit "pref1"); Text (lit "one");
               Elem (lit "B") [(lit "id", lit " pref1 ")] [] ]) (lit "pref1")
  = Some (mkLoc (anchor (lit "pref1")) []
            [ Text (lit "one"); Elem (lit "B") [(lit "id", lit " pref1 ")] [] ] []).
Proof.
  assert (Hin : In (lit "pref1",
      mkLoc (anchor (lit "pref1")) []
        [ Text (lit "one"); Elem (lit "B") [(lit "id", lit " pref1 ")] [] ] [])
     (orderedAnchors
        [ anchor (lit "pref1"); Text (lit "one");
          Elem (lit "B") [(lit "id", lit " pref1 ")] [] ]))
    by (left; reflexivity).
  destruct (catalog_keeps_first_occurrence
              [ anchor (lit "pref1"); Text (lit "one");
                Elem (lit "B") [(lit "id", lit " pref1 ")] [] ])
    as (_ & Hentry & Hget).
  split; [exact Hin|]. split; [reflexivity|]. split; [reflexivity|].
  split; [apply (Hentry _ _ Hin)|].
  rewrite Hget. reflexivity.
Defined.

(** ** The numbers read by the questions pass *)

Section MatcherBounds.
Context {A : Type} (icase : bool).

Lemma m_seq_group_digits_bounded (lo hi : nat) (b : regex) :
  forall prev s cap (k : @kont A) x,
    m icase (Seq (Group (Rep CDigit lo (Some hi))) b) prev s cap k = Some x ->
    exists g p' s',
      forallb isDigit g = true /\ (lo <= length g <= hi)%nat /\
      m icase b p' s' (Some g) k = Some x.
Proof.
  intros prev s cap k x H.
  change (m icase (Seq (Group (Rep CDigit lo (Some hi))) b) prev s cap k)
    with (m_rep icase CDigit lo (Some hi) prev s cap
            (fun p' s' _ =>
               m icase b p' s' (Some (firstn (length s - length s') s)) k)) in H.
  apply m_rep_consumes in H as (pre & s' & p' & -> & Hpre & Hlo & Hhi & H).
  rewrite length_app in H.
  replace (length pre + length s' - length s')%nat with (length pre) in H by lia.
  rewrite firstn_app, firstn_all, Nat.sub_diag in H. cbn [firstn] in H.
  rewrite app_nil_r in H.
  exists pre, p', s'. split; [exact Hpre|]. split; [|exact H].
  split; [exact Hlo | apply Hhi; reflexivity].
Qed.
End MatcherBounds.

Lemma digit_val_range (c : char) :
  isDigit c = true -> (0 <= digit_val c <= 9)%Z.
Proof.
  unfold isDigit, digit_val. intros H. apply andb_true_iff in H as [H1 H2].
  apply N.leb_le in H1, H2. lia.
Qed.

Lemma parse_digits_bounds (g : str) :
  forall acc,
    forallb isDigit g = true -> (0 <= acc)%Z ->
    exists v,
      parse_digits (Some acc) g = Some v /\
      (acc * 10 ^ Z.of_nat (length g) <= v
       < (acc + 1) * 10 ^ Z.of_nat (length g))%Z.
Proof.
  induction g as [|c g IH]; intros acc Hd Hacc.
  - exists acc. split; [reflexivity|]. simpl. lia.
  - cbn [forallb] in Hd. apply andb_true_iff in Hd as [Hc Hg].
    cbn [parse_digits]. rewrite Hc.
    pose proof (digit_val_range c Hc) as Hv.
    destruct (IH (acc * 10 + digit_val c)%Z Hg ltac:(lia)) as (v & Hp & Hb).
    exists v. split; [exact Hp|].
    cbn [length]. rewrite Nat2Z.inj_succ, Z.pow_succ_r by lia.
    assert (0 < 10 ^ Z.of_nat (length g))%Z by (apply Z.pow_pos_nonneg; lia).
    nia.
Qed.

Lemma captured_group_digits (r : regex) (s : str) (mt : rmatch) :
  r = re_numOnly \/ r = re_numAtStart ->
  exec false r s = Some mt ->
  exists g, m_group mt = Some g /\ forallb isDigit g = true /\
            (1 <= length g <= 3)%nat.
Proof.
  intros Hr H. unfold exec in H. apply exec_from_inv in H as (p0 & s0 & H).
  destruct Hr as [-> | ->]; unfold re_numOnly, re_numAtStart, cat in H;
    cbn [fold_right] in H;
    (apply m_seq_groupless in H as (p1 & s1 & H); [|reflexivity]);
    (apply m_seq_groupless in H as (p2 & s2 & H); [|reflexivity]);
    apply m_seq_group_digits_bounded in H as (g & p3 & s3 & Hd & Hl & H);
    (apply m_groupless in H as (p4 & s4 & H); [|reflexivity]);
    injection H as _ <-; exists g; auto.
Qed.

Lemma parseInt_digit_head (c : char) (g : str) :
  isDigit c = true ->
  parseInt (c :: g) = parse_digits (Some (digit_val c)) g.
Proof.
  intros Hc. unfold parseInt. cbn [trimStart].
  assert (isWhiteSpace c = false /\ (c =? 45) = false /\ (c =? 43) = false)
    as (-> & -> & ->).
  { unfold isDigit in Hc. apply andb_true_iff in Hc as [H1 H2].
    apply N.leb_le in H1, H2. unfold isWhiteSpace.
    repeat split;
      repeat (apply orb_false_iff; split);
      try (apply andb_false_iff; left; apply N.leb_gt; lia);
      try (apply andb_false_iff; right; apply N.leb_gt; lia);
      apply N.eqb_neq; lia. }
  cbn [parse_digits]. rewrite Hc. reflexivity.
Qed.

Lemma parseInt_digits_range (g : str) (v : Z) :
  forallb isDigit g = true -> (1 <= length g <= 3)%nat ->
  parseInt g = Some v -> (0 <= v <= 999)%Z.
Proof.
  intros Hd Hl Hp.
  destruct g as [|c g]; [simpl in Hl; lia|].
  cbn [forallb] in Hd. apply andb_true_iff in Hd as [Hc Hrest].
  rewrite (parseInt_digit_head c g Hc) in Hp.
  pose proof (digit_val_range c Hc) as Hdv.
  destruct (parse_digits_bounds g (digit_val c) Hrest ltac:(lia)) as (w & Hw & Hb).
  rewrite Hw in Hp. injection Hp as <-.
  cbn [length] in Hl.
  assert (Z.of_nat (length g) = 0 \/ Z.of_nat (length g) = 1 \/
          Z.of_nat (length g) = 2)%Z as [E | [E | E]] by lia;
    rewrite E in Hb; simpl in Hb; lia.
Qed.

Lemma capturedNumber_bounds (r : regex) (s : str) (mt : rmatch) :
  r = re_numOnly \/ r = re_numAtStart ->
  exec false r s = Some mt -> (0 <= capturedNumber mt <= 999)%Z.
Proof.
  intros Hr H.
  destruct (captured_group_digits r s mt Hr H) as (g & Hg & Hd & Hl).
  destruct (capturedNumber_is_parseInt r s mt Hr H) as (g' & Hg' & _ & Hp).
  rewrite Hg in Hg'. injection Hg' as <-.
  apply (parseInt_digits_range g _ Hd Hl Hp).
Qed.

(** X4.  When a block matches the pattern of a bare number, or starts with
    a number, the captured group is a string of one to three digits,
    [parseInt] reads a number from it (never [NaN]), and that number, which
    is what the questions pass queues or uses as ordinal, lies between 0
    and 999. *)
Theorem captured_number_range :
  forall (r : regex) (s : str) (mt : rmatch),
    r = re_numOnly \/ r = re_numAtStart ->
    exec false r s = Some mt ->
    exists g,
      m_group mt = Some g /\ forallb isDigit g = true /\
      (1 <= length g <= 3)%nat /\
      parseInt g = Some (capturedNumber mt) /\
      (0 <= capturedNumber mt <= 999)%Z.
Proof.
  intros r s mt Hr H.
  destruct (captured_group_digits r s mt Hr H) as (g & Hg & Hd & Hl).
  exists g. split; [exact Hg|]. split; [exact Hd|]. split; [exact Hl|].
  destruct (capturedNumber_is_parseInt r s mt Hr H) as (g' & Hg' & _ & Hp).
  rewrite Hg in Hg'. injection Hg' as <-. split; [exact Hp|].
  apply (parseInt_digits_range g _ Hd Hl Hp).
Qed.

Lemma captured_number_range_witness :
  exec false re_numOnly (lit " 042. ")
    = Some (mkMatch [] [] (Some (lit "042"))) /\
  exists g,
    m_group (mkMatch [] [] (Some (lit "042"))) = Some g /\
    forallb isDigit g = true /\ (1 <= length g <= 3)%nat /\
    parseInt g = Some (capturedNumber (mkMatch [] [] (Some (lit "042")))) /\
    (0 <= capturedNumber (mkMatch [] [] (Some (lit "042"))) <= 999)%Z.
Proof.
  split; [reflexivity|].
  apply (captured_number_range re_numOnly (lit " 042. ")).
  - left. reflexivity.
  - reflexivity.
Defined.

(** ** What [stripLeadingNumber] removes *)

Section MatcherPrefix.
Context {A : Type} (icase : bool).

Lemma m_rep_prefix (cl : cclass) (s : str) :
  forall lo hi prev cap (k : @kont A) x,
    m_rep icase cl lo hi prev s cap k = Some x ->
    exists pre s' p',
      s = pre ++ s' /\ forallb (class_mem icase cl) pre = true /\
      k p' s' cap = Some x.
Proof.
  intros lo hi prev cap k x H.
  apply m_rep_consumes in H as (pre & s' & p' & Hs & Hpre & _ & _ & H).
  exists pre, s', p'. auto.
Qed.

Lemma forallb_weaken (f g : char -> bool) (l : str) :
  (forall c, f c = true -> g c = true) ->
  forallb f l = true -> forallb g l = true.
Proof.
  intros Hfg. induction l as [|c l IH]; [reflexivity|].
  cbn [forallb]. intros H. apply andb_true_iff in H as [H1 H2].
  rewrite (Hfg c H1), (IH H2). reflexivity.
Qed.

(** Whatever a pattern matches is a prefix of the input made of code units
    of its alphabet; the continuation gets the rest. *)
Lemma m_prefix (r : regex) :
  forall prev s cap (k : @kont A) x,
    m icase r prev s cap k = Some x ->
    exists pre s' p' cap',
      s = pre ++ s' /\ forallb (alphabet icase r) pre = true /\
      k p' s' cap' = Some x.
Proof.
  induction r as [|cl|a IHa b IHb|a IHa b IHb|a IHa|cl lo hi| | | |a IHa];
    intros prev s cap k x H; cbn [m] in H; cbn [alphabet].
  - exists [], s, prev, cap. auto.
  - destruct s as [|c t]; [discriminate H|].
    destruct (class_mem icase cl c) eqn:E; [|discriminate H].
    exists [c], t, (Some c), cap. cbn [forallb]. rewrite E. auto.
  - apply IHa in H as (p1 & s1 & q1 & c1 & -> & Hp1 & H).
    apply IHb in H as (p2 & s2 & q2 & c2 & -> & Hp2 & H).
    exists (p1 ++ p2), s2, q2, c2. rewrite <- app_assoc.
    split; [reflexivity|]. split; [|exact H].
    rewrite forallb_app. apply andb_true_iff. split.
    + apply (forallb_weaken _ _ _ (fun c Hc => orb_true_intro _ _ (or_introl Hc)) Hp1).
    + apply (forallb_weaken _ _ _ (fun c Hc => orb_true_intro _ _ (or_intror Hc)) Hp2).
  - destruct (m icase a prev s cap k) as [x'|] eqn:E.
    + injection H as <-. apply IHa in E as (p1 & s1 & q1 & c1 & -> & Hp1 & H).
      exists p1, s1, q1, c1. split; [reflexivity|]. split; [|exact H].
      apply (forallb_weaken _ _ _ (fun c Hc => orb_true_intro _ _ (or_introl Hc)) Hp1).
    + apply IHb in H as (p1 & s1 & q1 & c1 & -> & Hp1 & H).
      exists p1, s1, q1, c1. split; [reflexivity|]. split; [|exact H].
      apply (forallb_weaken _ _ _ (fun c Hc => orb_true_intro _ _ (or_intror Hc)) Hp1).
  - destruct (m icase a prev s cap k) as [x'|] eqn:E.
    + injection H as <-. apply IHa in E. exact E.
    + exists [], s, prev, cap. auto.
  - apply m_rep_prefix in H as (pre & s' & p' & -> & Hp & H).
    exists pre, s', p', cap. auto.
  - destruct prev; [discriminate H|]. exists [], s, None, cap. auto.
  - destruct s; [|discriminate H]. exists [], [], prev, cap. auto.
  - destruct (xorb (isWordAt prev) (isWordAt (hd_error s))); [|discriminate H].
    exists [], s, prev, cap. auto.
  - apply IHa in H as (p1 & s1 & q1 & c1 & -> & Hp1 & H).
    exists p1, s1, q1, (Some (firstn (length (p1 ++ s1) - length s1) (p1 ++ s1))).
    auto.
Qed.
End MatcherPrefix.

(** A pattern that starts with [^] matches at the start of the string
    only. *)
Lemma exec_from_anchored (icase : bool) (r : regex) (s : str) :
  forall c before, exec_from icase (Seq Bol r) (Some c) before s = None.
Proof.
  induction s as [|y t IH]; intros c before; cbn [exec_from m].
  - reflexivity.
  - apply IH.
Qed.

Lemma exec_anchored (icase : bool) (r : regex) (s : str) (mt : rmatch) :
  exec icase (Seq Bol r) s = Some mt ->
  m_before mt = [] /\
  exists pre, s = pre ++ m_after mt /\
              forallb (alphabet icase r) pre = true.
Proof.
  unfold exec. intros H.
  assert (Hm : exists cap,
             m icase (Seq Bol r) None s None (fun _ s' cap => Some (s', cap))
             = Some (m_after mt, cap) /\ m_before mt = []).
  { destruct s as [|c t]; cbn [exec_from] in H.
    - destruct (m icase (Seq Bol r) None [] None (fun _ s' cap => Some (s', cap)))
        as [[s' cap]|]; [|discriminate H].
      injection H as <-. exists cap. split; reflexivity.
    - destruct (m icase (Seq Bol r) None (c :: t) None
                  (fun _ s' cap => Some (s', cap))) as [[s' cap]|].
      + injection H as <-. exists cap. split; reflexivity.
      + rewrite exec_from_anchored in H. discriminate H. }
  destruct Hm as (cap & Hm & Hb). split; [exact Hb|].
  cbn [m] in Hm.
  apply m_prefix in Hm as (pre & s' & p' & cap' & -> & Hp & Hk).
  injection Hk as <- _. exists pre. split; [reflexivity | exact Hp].
Qed.

Lemma leadingNumber_alphabet (c : char) :
  alphabet false
    (cat [ star CSpace; Opt (Cls (COneOf (lit "([")));
           star CSpace; Rep CDigit 1 (Some 3%nat);
           Opt (cat [star CSpace; Cls (COneOf (lit ".:)]"))]);
           Alt (plus CSpace) Eol ]) c = true ->
  isLabelChar c = true.
Proof.
  unfold isLabelChar. cbn -[N.eqb isWhiteSpace isDigit].
  rewrite (N.eqb_sym 40 c), (N.eqb_sym 91 c), (N.eqb_sym 46 c),
    (N.eqb_sym 58 c), (N.eqb_sym 41 c), (N.eqb_sym 93 c).
  destruct (isWhiteSpace c), (isDigit c), (c =? 40), (c =? 91), (c =? 46),
    (c =? 58), (c =? 41), (c =? 93); cbn; intros H;
    try reflexivity; discriminate H.
Qed.

Lemma stripLeadingNumber_match (s : str) (mt : rmatch) :
  exec false re_leadingNumber s = Some mt ->
  m_before mt = [] /\
  exists pre, s = pre ++ m_after mt /\ forallb isLabelChar pre = true.
Proof.
  intros E.
  apply (exec_anchored false
           (cat [ star CSpace; Opt (Cls (COneOf (lit "([")));
                  star CSpace; Rep CDigit 1 (Some 3%nat);
                  Opt (cat [star CSpace; Cls (COneOf (lit ".:)]"))]);
                  Alt (plus CSpace) Eol ])) in E as (Hb & pre & Hs & Hp).
  split; [exact Hb|]. exists pre. split; [exact Hs|].
  apply (forallb_weaken _ _ _ leadingNumber_alphabet Hp).
Qed.

(** The result of [stripLeadingNumber] is a part of its argument. *)
Lemma stripLeadingNumber_In (s : str) (c : char) :
  In c (stripLeadingNumber s) -> In c s.
Proof.
  unfold stripLeadingNumber, replace_first_empty.
  destruct s as [|x t]; [trivial|]. cbn [truthy negb].
  destruct (exec false re_leadingNumber (x :: t)) as [mt|] eqn:E; [|trivial].
  apply stripLeadingNumber_match in E as (Hb & pre & Hs & _).
  rewrite Hb, Hs. cbn [app]. intros H. apply in_or_app. right. exact H.
Qed.

(** X5.  [stripLeadingNumber] removes nothing but a prefix of its
    argument, and that prefix is made of white space, digits, opening
    brackets and the marks [.], [:], [)], []] only: no other character of
    the text is ever lost. *)
Theorem stripLeadingNumber_removes_label_prefix :
  forall s : str,
    exists pre,
      s = pre ++ stripLeadingNumber s /\ forallb isLabelChar pre = true.
Proof.
  intros s. unfold stripLeadingNumber, replace_first_empty.
  destruct s as [|c t]; [exists []; split; reflexivity|].
  cbn [truthy negb].
  destruct (exec false re_leadingNumber (c :: t)) as [mt|] eqn:E.
  - apply stripLeadingNumber_match in E as (Hb & pre & Hs & Hp).
    rewrite Hb. cbn [app]. exists pre. split; [exact Hs | exact Hp].
  - exists []. split; reflexivity.
Qed.

(** ** Fixed points of the normaliser *)

Lemma collapse_from_fixed (s : str) :
  forall b,
    (forall c, In c s -> isWhiteSpace c = true -> c = space) ->
    ws_run s = false ->
    (b = true -> starts_with_ws s = false) ->
    collapse_from b s = s.
Proof.
  induction s as [|x t IH]; intros b Hsp Hrun Hb; [reflexivity|].
  cbn [collapse_from].
  assert (Hsp' : forall c, In c t -> isWhiteSpace c = true -> c = space)
    by (intros c Hc; apply Hsp; right; exact Hc).
  assert (Hrun' : ws_run t = false).
  { cbn [ws_run] in Hrun. destruct t; [reflexivity|].
    apply orb_false_iff in Hrun. apply Hrun. }
  destruct (isWhiteSpace x) eqn:E.
  - destruct b; [specialize (Hb eq_refl); simpl in Hb; congruence|].
    rewrite (Hsp x (or_introl eq_refl) E). f_equal.
    apply IH; [exact Hsp' | exact Hrun'|]. intros _.
    cbn [ws_run] in Hrun. destruct t as [|y t']; [reflexivity|].
    apply orb_false_iff in Hrun as [Hrun _]. rewrite E in Hrun. exact Hrun.
  - f_equal. apply IH; [exact Hsp' | exact Hrun' | discriminate].
Qed.

Lemma trim_fixed (s : str) :
  starts_with_ws s = false -> ends_with_ws s = false -> trim s = s.
Proof.
  intros Hs He. unfold trim, trimEnd.
  assert (Hstart : forall u, starts_with_ws u = false -> trimStart u = u).
  { intros [|c u] H; [reflexivity|]. simpl in *. rewrite H. reflexivity. }
  rewrite (Hstart s Hs), (Hstart (rev s) He). apply rev_involutive.
Qed.

Lemma cleanText_no_nbsp (s : str) : occursb (lit "&nbsp;") (cleanText s) = false.
Proof.
  rewrite cleanText_eq. apply occursb_trim_keeps.
  apply (occursb_replaced_all (lit "&nbsp;") space); [discriminate | reflexivity].
Qed.

Lemma cleanText_clean (s : str) :
  occursb (lit "&nbsp;") s = false -> clean (cleanText s).
Proof.
  intros H. split; [apply cleanText_trimmed|]. split; [apply cleanText_trimmed|].
  split; [intros c; apply cleanText_spaces_only|].
  split; [apply cleanText_no_run; exact H | apply cleanText_no_nbsp].
Qed.

Lemma cleanText_fixed (t : str) : clean t -> cleanText t = t.
Proof.
  intros (Hs & He & Hsp & Hrun & Hnb). rewrite cleanText_eq.
  unfold collapse_ws. rewrite (collapse_from_fixed t false Hsp Hrun) by discriminate.
  rewrite (replaceAll_absent _ _ _ Hnb). apply trim_fixed; assumption.
Qed.

(** X6.  [cleanText] leaves unchanged every text that is trimmed, has plain
    spaces as only white space, none adjacent, and does not contain
    "&nbsp;"; its output is such a text whenever the input does not contain
    "&nbsp;", so that on those inputs [cleanText] is idempotent; and for
    every input the output of two applications is such a text (a third
    application changes nothing). *)
Theorem cleanText_stabilises :
  forall s : str,
    (clean s -> cleanText s = s) /\
    (occursb (lit "&nbsp;") s = false ->
     clean (cleanText s) /\ cleanText (cleanText s) = cleanText s) /\
    clean (cleanText (cleanText s)) /\
    cleanText (cleanText (cleanText s)) = cleanText (cleanText s).
Proof.
  intros s. split; [apply cleanText_fixed|]. split.
  - intros H. split; [apply cleanText_clean; exact H|].
    apply cleanText_fixed. apply cleanText_clean. exact H.
  - assert (Hc : clean (cleanText (cleanText s)))
      by (apply cleanText_clean; apply cleanText_no_nbsp).
    split; [exact Hc | apply cleanText_fixed; exact Hc].
Qed.

Lemma cleanText_stabilises_witness :
  occursb (lit "&nbsp;") (lit "  a   b ") = false /\
  cleanText (lit "  a   b ") = lit "a b" /\
  cleanText (cleanText (lit "  a   b ")) = cleanText (lit "  a   b ") /\
  cleanText (lit "a&nbsp;&nbsp;b") = lit "a  b" /\
  cleanText (cleanText (lit "a&nbsp;&nbsp;b")) = lit "a b" /\
  cleanText (cleanText (cleanText (lit "a&nbsp;&nbsp;b"))) =
    cleanText (cleanText (lit "a&nbsp;&nbsp;b")).
Proof.
  split; [reflexivity|]. split; [reflexivity|].
  split; [apply (cleanText_stabilises (lit "  a   b ")); reflexivity|].
  split; [reflexivity|]. split; [reflexivity|].
  apply (cleanText_stabilises (lit "a&nbsp;&nbsp;b")).
Defined.

Lemma replaceAll_same (c : char) (s : str) : replaceAll [c] [c] s = s.
Proof.
  unfold replaceAll. induction s as [|x t IH]; [reflexivity|].
  cbn [replace_from startsWith length Nat.pred].
  destruct (c =? x) eqn:E; cbn [andb app].
  - apply N.eqb_eq in E. subst x. f_equal. exact IH.
  - f_equal. exact IH.
Qed.

Lemma normalizeText_fixed (s : str) :
  (forall e, In e entity_table -> occursb e s = false) ->
  normalizeText s = s.
Proof.
  intros H. rewrite normalizeText_eq.
  unfold normalize_table. cbn [fold_left fst snd].
  rewrite (replaceAll_absent (lit "&aacute;")) by (apply H; simpl; auto).
  rewrite (replaceAll_absent (lit "&iacute;")) by (apply H; simpl; auto).
  rewrite (replaceAll_absent (lit "&uacute;")) by (apply H; simpl; auto).
  rewrite (replaceAll_absent (lit "&eacute;")) by (apply H; simpl; auto).
  rewrite (replaceAll_absent (lit "&oacute;")) by (apply H; simpl; auto 6).
  rewrite !replaceAll_same. reflexivity.
Qed.

(** X7.  [normalizeText] changes nothing but the five named entities: a
    text in which none of them occurs, whatever quotes and dashes it holds,
    comes out unchanged.  As no entity is left in its output, it is
    idempotent. *)
Theorem normalizeText_only_entities :
  forall s : str,
    ((forall e, In e entity_table -> occursb e s = false) ->
     normalizeText s = s) /\
    normalizeText (normalizeText s) = normalizeText s.
Proof.
  intros s. split; [apply normalizeText_fixed|].
  apply normalizeText_fixed. intros e He. apply normalizeText_no_entity. exact He.
Qed.

Lemma normalizeText_only_entities_witness :
  (forall e, In e entity_table ->
             occursb e (lit "'a' " ++ [0x201C; em_dash; 0x201D]) = false) /\
  normalizeText (lit "'a' " ++ [0x201C; em_dash; 0x201D])
    = lit "'a' " ++ [0x201C; em_dash; 0x201D] /\
  normalizeText (normalizeText (lit "caf&eacute;")) = normalizeText (lit "caf&eacute;").
Proof.
  assert (H : forall e, In e entity_table ->
             occursb e (lit "'a' " ++ [0x201C; em_dash; 0x201D]) = false).
  { intros e [<- | [<- | [<- | [<- | [<- | []]]]]]; reflexivity. }
  split; [exact H|].
  split; [apply (normalizeText_only_entities _); exact H|].
  apply (normalizeText_only_entities (lit "caf&eacute;")).
Defined.

(** ** The items of Strategy A *)

Lemma collectBetween_spaces (startEl : loc) (endEl : option loc) (t : str) :
  collectBetween startEl endEl = Ok t ->
  forall c, In c t -> isWhiteSpace c = true -> c = space.
Proof.
  unfold collectBetween. intros H. apply collectLoop_clean in H as (raw & ->).
  intros c. apply cleanText_spaces_only.
Qed.

Lemma truthy_nonempty (t : str) : truthy t = true -> t <> [].
Proof. destruct t; [discriminate | discriminate]. Qed.

Lemma increasing_cons (x : Z) (l : list Z) :
  (forall y, In y l -> (x < y)%Z) -> increasing l -> increasing (x :: l).
Proof.
  intros Hlt Hl. destruct l as [|y t]; [exact I|].
  split; [apply Hlt; left; reflexivity | exact Hl].
Qed.

Section LegacyItems.
Variable amap : Map.

Lemma scanFamily_items (prefix : str) (strip : bool) (count : nat) :
  forall i acc out,
    scanFamily amap prefix strip count i acc = Ok out ->
    exists new ns,
      out = acc ++ new /\
      map item_n new = map NumOrd ns /\
      increasing ns /\
      (forall n, In n ns -> (i <= n)%Z) /\
      (forall it, In it new -> plain_text (item_text it)).
Proof.
  induction count as [|count IH]; intros i acc out H.
  - cbn [scanFamily] in H. injection H as <-. exists [], [].
    rewrite app_nil_r. split; [reflexivity|]. split; [reflexivity|].
    split; [exact I|]. split; [intros ? [] | intros ? []].
  - cbn [scanFamily] in H.
    destruct (Map_get amap (prefix ++ String_of i)) as [el|].
    + apply bind_Ok_inv in H as (t & Ht & H). cbv zeta in H.
      pose proof (collectBetween_spaces _ _ _ Ht) as Hsp.
      set (t' := if strip && truthy t then stripLeadingNumber t else t) in *.
      assert (Hsp' : forall c, In c t' -> isWhiteSpace c = true -> c = space).
      { intros c Hc. apply Hsp. subst t'.
        destruct (strip && truthy t); [apply stripLeadingNumber_In|]; exact Hc. }
      apply IH in H as (new & ns & -> & Hn & Hinc & Hlo & Htxt).
      destruct (truthy t') eqn:Etr.
      * exists (mkItem (NumOrd i) t' :: new), (i :: ns).
        rewrite <- app_assoc. split; [reflexivity|].
        split; [cbn [map item_n]; f_equal; exact Hn|].
        split; [apply increasing_cons; [intros y Hy; specialize (Hlo y Hy); lia
                                       | exact Hinc]|].
        split; [intros n [<-|Hin]; [lia | specialize (Hlo n Hin); lia]|].
        intros it [<-|Hin]; [|apply Htxt; exact Hin].
        split; [apply truthy_nonempty; exact Etr | exact Hsp'].
      * exists new, ns. split; [reflexivity|]. split; [exact Hn|].
        split; [exact Hinc|]. split; [|exact Htxt].
        intros n Hin. specialize (Hlo n Hin). lia.
    + injection H as <-. exists [], [].
      rewrite app_nil_r. split; [reflexivity|]. split; [reflexivity|].
      split; [exact I|]. split; [intros ? [] | intros ? []].
Qed.

Lemma introStep_items (i : Z) (suf : str) (acc out : list item) :
  introStep amap i suf acc = Ok out ->
  exists new, out = acc ++ new /\
              forall it, In it new -> plain_text (item_text it).
Proof.
  unfold introStep. destruct (Map_get amap (introName i suf)) as [el|].
  - intros H. apply bind_Ok_inv in H as (t & Ht & H). injection H as <-.
    destruct (truthy t) eqn:Etr.
    + eexists. split; [reflexivity|]. intros it [<-|[]].
      split; [apply truthy_nonempty; exact Etr|].
      apply (collectBetween_spaces _ _ _ Ht).
    + exists []. rewrite app_nil_r. split; [reflexivity | intros it []].
  - intros H. injection H as <-. exists []. rewrite app_nil_r.
    split; [reflexivity | intros it []].
Qed.

Lemma scanIntro_items (count : nat) :
  forall i acc out,
    scanIntro amap count i acc = Ok out ->
    exists new, out = acc ++ new /\
                forall it, In it new -> plain_text (item_text it).
Proof.
  induction count as [|count IH]; intros i acc out H.
  - cbn [scanIntro] in H. injection H as <-. exists []. rewrite app_nil_r.
    split; [reflexivity | intros it []].
  - cbn [scanIntro] in H.
    apply bind_Ok_inv in H as (a1 & H1 & H).
    apply bind_Ok_inv in H as (a2 & H2 & H).
    apply bind_Ok_inv in H as (a3 & H3 & H).
    apply introStep_items in H1 as (n1 & -> & I1).
    apply introStep_items in H2 as (n2 & -> & I2).
    apply introStep_items in H3 as (n3 & -> & I3).
    apply IH in H as (n4 & -> & I4).
    exists (n1 ++ n2 ++ n3 ++ n4). rewrite <- !app_assoc.
    split; [reflexivity|].
    intros it Hin. repeat (apply in_app_or in Hin as [Hin|Hin]); auto.
Qed.
End LegacyItems.

(** X8.  In the model Strategy A builds, every item has a text that is not
    empty and whose white space is made of plain spaces (no line break or
    tab survives); and in the preface, description, main-text, question and
    note sections the [n] of the items are numbers in strictly increasing
    order, so that no ordinal occurs twice. *)
Theorem legacy_items_ordered :
  forall (d : document) (secs : sections),
    legacySections (anchorMap d) = Ok secs ->
    (forall fam it,
        In it (family_items fam secs) -> plain_text (item_text it)) /\
    (forall fam,
        fam <> FIntroduction ->
        exists ns,
          map item_n (family_items fam secs) = map NumOrd ns /\ increasing ns).
Proof.
  intros d secs Hsecs.
  apply legacySections_inv in Hsecs
    as (Hpref & Hintro & Hdesc & Hpar & Hq & Hnote & _).
  apply scanFamily_items in Hpref as (n1 & o1 & E1 & M1 & I1 & _ & T1).
  apply scanIntro_items in Hintro as (n2 & E2 & T2).
  apply scanFamily_items in Hdesc as (n3 & o3 & E3 & M3 & I3 & _ & T3).
  apply scanFamily_items in Hpar as (n4 & o4 & E4 & M4 & I4 & _ & T4).
  apply scanFamily_items in Hq as (n5 & o5 & E5 & M5 & I5 & _ & T5).
  apply scanFamily_items in Hnote as (n6 & o6 & E6 & M6 & I6 & _ & T6).
  cbn [app] in E1, E2, E3, E4, E5, E6. split.
  - intros fam it Hin.
    destruct fam; cbn [family_items] in Hin;
      rewrite ?E1, ?E2, ?E3, ?E4, ?E5, ?E6 in Hin; auto.
  - intros fam Hfam.
    destruct fam; cbn [family_items]; try congruence;
      rewrite ?E1, ?E3, ?E4, ?E5, ?E6; eauto.
Qed.

Lemma legacy_items_ordered_witness :
  legacySections (anchorMap doc_two_paragraphs) =
    Ok (mkSections [] [] []
          [ mkItem (NumOrd 1) (lit "AB"); mkItem (NumOrd 2) (lit "B") ]
          [] [] [] [] [] []) /\
  FMainText <> FIntroduction /\
  plain_text (lit "AB") /\
  exists ns,
    [NumOrd 1; NumOrd 2] = map NumOrd ns /\ increasing ns.
Proof.
  assert (E : legacySections (anchorMap doc_two_paragraphs) =
    Ok (mkSections [] [] []
          [ mkItem (NumOrd 1) (lit "AB"); mkItem (NumOrd 2) (lit "B") ]
          [] [] [] [] [] [])) by reflexivity.
  destruct (legacy_items_ordered doc_two_paragraphs _ E) as [Htxt Hord].
  split; [exact E|]. split; [discriminate|]. split.
  - apply (Htxt FMainText (mkItem (NumOrd 1) (lit "AB"))). left. reflexivity.
  - apply (Hord FMainText). discriminate.
Defined.

(** ** The general extraction of Strategy B *)

Lemma get_push_same (ty : sectionType) (it : item) (s : sections) :
  get_section ty (push_section ty it s) = get_section ty s ++ [it].
Proof. destruct ty; reflexivity. Qed.

Lemma get_push_other (ty ty' : sectionType) (it : item) (s : sections) :
  ty' <> ty -> get_section ty' (push_section ty it s) = get_section ty' s.
Proof. destruct ty, ty'; try reflexivity; congruence. Qed.

Lemma glossary_push (ty : sectionType) (it : item) (s : sections) :
  glossary (push_section ty it s) = glossary s.
Proof. destruct ty; reflexivity. Qed.

Lemma generalLoop_glossary (ps : list loc) :
  forall ty c s s',
    generalLoop ty c s ps = Ok s' -> glossary s' = glossary s.
Proof.
  induction ps as [|p rest IH]; intros ty c s s' H; cbn [generalLoop] in H.
  - injection H as <-. reflexivity.
  - apply bind_Ok_inv in H as (t0 & _ & H). cbv zeta in H.
    match type of H with
    | (if ?b then _ else _) = _ => destruct b
    end; apply IH in H; [exact H|].
    rewrite H. apply glossary_push.
Qed.

Lemma generalLoop_kept (ps : list loc) :
  forall ty c s,
    exists s',
      generalLoop ty c s ps = Ok s' /\
      get_section ty s' = get_section ty s ++ number_from c (keptTexts ty ps) /\
      (forall ty', ty' <> ty -> get_section ty' s' = get_section ty' s).
Proof.
  induction ps as [|p rest IH]; intros ty c s.
  - exists s. split; [reflexivity|]. split; [|reflexivity].
    cbn [keptTexts map filter number_from]. rewrite app_nil_r. reflexivity.
  - cbn [generalLoop]. unfold keptTexts. cbn [map filter].
    fold (keptTexts ty rest).
    destruct (extractTextWithFormatting_returns (Some (here p))) as [t0 Ht0].
    assert (Htext : generalText ty p =
                    match ty with
                    | TText => stripLeadingNumber (cleanText t0)
                    | _ => cleanText t0
                    end)
      by (unfold generalText, extracted; rewrite Ht0; reflexivity).
    rewrite Ht0, Htext. cbn [bind]. cbv zeta.
    set (text := match ty with
                 | TText => stripLeadingNumber (cleanText t0)
                 | _ => cleanText t0
                 end).
    destruct (negb (truthy text) || (length text <? 3)%nat) eqn:E; cbn [negb].
    + apply IH.
    + destruct (IH ty (c + 1)%Z (push_section ty (mkItem (NumOrd c) text) s))
        as (s' & Hrun & Hs & Ho).
      exists s'. split; [exact Hrun|]. split.
      * rewrite Hs, get_push_same, <- app_assoc. reflexivity.
      * intros ty' Hne. rewrite (Ho ty' Hne). apply get_push_other. exact Hne.
Qed.

(** X9.  The general extraction returns, and it numbers the blocks it
    keeps consecutively from the starting counter, in the order of the
    blocks: what it appends to the section is the list of the texts of the
    blocks ([cleanText] of what the extractor returns, without the leading
    label in the main text) that have at least three code units, numbered
    [c], [c+1], ...; no other section is touched.  With the call stack,
    the extraction returns the same model whenever it returns. *)
Theorem generalLoop_numbers_consecutively :
  forall (ty : sectionType) (c : Z) (s : sections) (ps : list loc),
    exists s',
      generalLoop ty c s ps = Ok s' /\
      get_section ty s' = get_section ty s ++ number_from c (keptTexts ty ps) /\
      (forall t, In t (keptTexts ty ps) <->
                 exists p, In p ps /\ t = generalText ty p /\
                           (3 <= length t)%nat) /\
      (forall ty', ty' <> ty -> get_section ty' s' = get_section ty' s) /\
      glossary s' = glossary s /\
      (forall stack s'',
          CallStack.generalLoop stack ty c s ps = Ok s'' -> s'' = s').
Proof.
  intros ty c s ps.
  destruct (generalLoop_kept ps ty c s) as (s' & Hrun & Hs & Ho).
  exists s'. split; [exact Hrun|]. split; [exact Hs|]. split; [|split; [exact Ho|split]].
  - intros t. unfold keptTexts. rewrite filter_In, in_map_iff. split.
    + intros ((p & <- & Hp) & Hk). exists p. split; [exact Hp|].
      split; [reflexivity|].
      apply negb_true_iff, orb_false_iff in Hk as [_ Hk].
      apply Nat.ltb_ge in Hk. exact Hk.
    + intros (p & Hp & -> & Hlen). split; [exists p; split; [reflexivity | exact Hp]|].
      apply negb_true_iff, orb_false_iff. split.
      * destruct (generalText ty p); [cbn [length] in Hlen; lia | reflexivity].
      * apply Nat.ltb_ge. exact Hlen.
  - apply (generalLoop_glossary _ _ _ _ _ Hrun).
  - intros stack s'' H.
    pose proof (refines_Ok _ _ _ (generalLoop_refines stack ty ps c s) H) as H'.
    congruence.
Qed.

Lemma generalLoop_numbers_consecutively_witness :
  keptTexts TText
    [ block (lit "1. First paragraph"); block (lit "ab"); block (lit "Third") ]
  = [ lit "First paragraph"; lit "Third" ] /\
  generalLoop TText 1 empty_sections
    [ block (lit "1. First paragraph"); block (lit "ab"); block (lit "Third") ]
  = Ok (mkSections [] [] []
          [ mkItem (NumOrd 1) (lit "First paragraph");
            mkItem (NumOrd 2) (lit "Third") ]
          [] [] [] [] [] []).
Proof.
  split; [reflexivity|].
  destruct (generalLoop_numbers_consecutively TText 1 empty_sections
              [ block (lit "1. First paragraph"); block (lit "ab");
                block (lit "Third") ])
    as (s' & Hrun & _).
  rewrite Hrun. vm_compute in Hrun. injection Hrun as <-. reflexivity.
Defined.

(** ** [collectElementsBetween] in terms of document order *)

Lemma chained_skipn (k : nat) :
  forall L final, chained L final -> chained (skipn k L) final.
Proof.
  induction k as [|k IH]; intros L final H; [exact H|].
  destruct L as [|l t]; [exact I|]. cbn [skipn]. apply IH. apply H.
Qed.

Lemma walkLoop_spec (endA : option loc) (sel : selector) (L : list loc) :
  chained L None ->
  forall fuel out,
    (todo (hd_error L) <= fuel)%nat ->
    walkLoop fuel endA sel out (hd_error L) =
    Ok (out ++ filter (fun nd => isElement (here nd) && matches sel nd)
                      (until endA L)).
Proof.
  induction L as [|l t IH]; intros Hch fuel out Hfuel.
  - destruct fuel; cbn [hd_error walkLoop until filter];
      rewrite app_nil_r; reflexivity.
  - destruct Hch as [Hnext Hch].
    assert (Hnext' : nextNode (Some l) = hd_error t)
      by (rewrite Hnext; destruct t; reflexivity).
    cbn [hd_error] in *. cbn [until].
    destruct fuel as [|fuel]; [simpl in Hfuel; lia|].
    cbn [walkLoop]. destruct (same_node l endA).
    + cbn [filter]. rewrite app_nil_r. reflexivity.
    + rewrite Hnext'. rewrite IH; [|exact Hch|].
      * cbn [filter].
        destruct (isElement (here l) && matches sel l);
          [rewrite <- app_assoc|]; reflexivity.
      * pose proof (nextNode_todo l) as Hn. rewrite Hnext' in Hn.
        change (todo (Some l)) with (S (remaining l)) in *. lia.
Qed.

Lemma hd_error_skipn {X : Type} (L : list X) (k : nat) :
  hd_error (skipn k L) = nth_error L k.
Proof.
  revert L. induction k as [|k IH]; intros [|x t]; try reflexivity.
  cbn [skipn nth_error]. apply IH.
Qed.

(** X10.  [collectElementsBetween] returns, in document order, exactly the
    elements that match the selector among the nodes that follow the start
    anchor and precede the end anchor (all the nodes that follow the start
    anchor when there is no end anchor); it returns the empty list when the
    start anchor is not found. *)
Theorem collectElementsBetween_document_order :
  forall (selectorOf : selectorEngine) (d : document)
         (startId : str) (endId : option str) (sel : selector),
    (queryAnchorById selectorOf d startId = Ok None ->
     collectElementsBetween selectorOf d startId endId sel = Ok []) /\
    (forall (i : nat) (start : loc) (endA : option loc),
        queryAnchorById selectorOf d startId = Ok (Some start) ->
        nth_error (doc_locs d) i = Some start ->
        (if truthy_opt endId
         then queryAnchorById selectorOf d (or_empty endId)
         else Ok None) = Ok endA ->
        collectElementsBetween selectorOf d startId endId sel =
        Ok (filter (fun nd => isElement (here nd) && matches sel nd)
                   (until endA (skipn (S i) (doc_locs d))))).
Proof.
  intros css d startId endId sel. split.
  - intros H. unfold collectElementsBetween. rewrite H. reflexivity.
  - intros i start endA Hstart Hi Hend.
    unfold collectElementsBetween. rewrite Hstart. cbn [bind].
    rewrite Hend. cbn [bind].
    pose proof (nextNode_document_order_aux d i start Hi) as Hnext.
    rewrite <- hd_error_skipn in Hnext. rewrite Hnext.
    rewrite (walkLoop_spec endA sel (skipn (S i) (doc_locs d))).
    + reflexivity.
    + apply chained_skipn. apply doc_locs_chained.
    + rewrite <- Hnext. pose proof (nextNode_todo start) as Hn.
      change (todo (Some start)) with (S (remaining start)) in Hn. lia.
Qed.

Lemma collectElementsBetween_document_order_witness :
  queryAnchorById plainEngine doc_nav_only (lit "s1") =
    Ok (nth_error (doc_locs doc_nav_only) 8) /\
  is_some (nth_error (doc_locs doc_nav_only) 8) = true /\
  map (fun l => here l)
    (filter (fun nd => isElement (here nd) && matches SelP nd)
       (until None (skipn 9 (doc_locs doc_nav_only))))
  = [ para [Text (lit "Some text")] ] /\
  (forall start,
      nth_error (doc_locs doc_nav_only) 8 = Some start ->
      collectElementsBetween plainEngine doc_nav_only (lit "s1") None SelP =
      Ok (filter (fun nd => isElement (here nd) && matches SelP nd)
            (until None (skipn 9 (doc_locs doc_nav_only))))).
Proof.
  split; [reflexivity|]. split; [reflexivity|]. split; [reflexivity|].
  intros start Hstart.
  apply (proj2 (collectElementsBetween_document_order plainEngine doc_nav_only
                  (lit "s1") None SelP) 8%nat start None).
  - rewrite <- Hstart. reflexivity.
  - exact Hstart.
  - reflexivity.
Defined.

(** ** What [parseDocument] can throw *)





Lemma fold_bind_inv {A B : Type} (f : A -> B -> result A) (Inv : A -> Prop)
    (l : list B) :
  (forall a b a', Inv a -> f a b = Ok a' -> Inv a') ->
  forall init a',
    fold_left (fun acc b => a <- acc ;; f a b) l init = Ok a' ->
    (forall a0, init = Ok a0 -> Inv a0) -> Inv a'.
Proof.
  intros Hf. induction l as [|b l IH]; intros init a' H Hinit.
  - apply Hinit. exact H.
  - cbn [fold_left] in H. apply (IH _ _ H).
    intros a0 H0. apply bind_Ok_inv in H0 as (a1 & H1 & H0).
    apply (Hf a1 b a0); [apply Hinit; exact H1 | exact H0].
Qed.









Section NavigationErrors.
Variable toLowerCase : str -> str.
Variable selectorOf : selectorEngine.
Variable d : document.
Variable P : exn -> Prop.
Hypothesis rejected : forall id, selectorOf id = None -> P SyntaxError.





End NavigationErrors.




(** ** Sections the parser leaves empty *)

Lemma noteStep_glossary (s s' : sections) (div : loc) :
  noteStep s div = Ok s' -> glossary s' = glossary s.
Proof.
  unfold noteStep. destruct (querySelector_in div SelSpanJb).
  - cbv zeta. intros H. apply bind_Ok_inv in H as (t & _ & H).
    injection H as <-. destruct (truthy (trim t)); reflexivity.
  - intros H. injection H as <-. reflexivity.
Qed.

Section NavigationFrame.
Variable toLowerCase : str -> str.
Variable selectorOf : selectorEngine.
Variable d : document.

Lemma navStep_glossary (s s' : sections) (e : navEntry) (nextId : option str) :
  navStep toLowerCase selectorOf d s e nextId = Ok s' -> glossary s' = glossary s.
Proof.
  unfold navStep. intros H.
  destruct (fst (nav_map e));
    apply bind_Ok_inv in H as (l & _ & H); cbv zeta in H;
    first
      [ apply (generalLoop_glossary _ _ _ _ _ H)
      | apply bind_Ok_inv in H as (q & _ & H); injection H as <-; reflexivity
      | idtac ].
  apply (fold_bind_inv noteStep (fun a => glossary a = glossary s) l) in H.
  - exact H.
  - intros a b a' Ha Hstep. rewrite (noteStep_glossary _ _ _ Hstep). exact Ha.
  - intros a0 H0. injection H0 as <-. reflexivity.
Qed.

Lemma navLoop_glossary (entries : list navEntry) :
  forall s s',
    navLoop toLowerCase selectorOf d s entries = Ok s' -> glossary s' = glossary s.
Proof.
  induction entries as [|e rest IH]; intros s s' H; cbn [navLoop] in H.
  - injection H as <-. reflexivity.
  - cbv zeta in H. apply bind_Ok_inv in H as (s1 & H1 & H).
    rewrite (IH _ _ H). apply (navStep_glossary _ _ _ _ H1).
Qed.
End NavigationFrame.

(** X12.  Sections that stay empty.  No code path stores an item in
    [glossary]: it is empty in every model [parseDocument] returns.  And
    when the legacy markers decide the strategy, [supplementary],
    [synopsis] and [keyPassages] are empty too, whatever the navigation
    list of the document names. *)
Theorem parseDocument_unfilled_sections :
  forall (toLowerCase : str -> str) (selectorOf : selectorEngine)
         (d : document) (secs : sections),
    parseDocument toLowerCase selectorOf d = Ok secs ->
    glossary secs = [] /\
    (legacyHasContent d = true ->
     supplementary secs = [] /\ synopsis secs = [] /\ keyPassages secs = []).
Proof.
  intros lower css d secs H. unfold parseDocument in H.
  destruct (legacyHasContent d) eqn:E.
  - apply legacySections_inv in H
      as (_ & _ & _ & _ & _ & _ & Hsup & Hsyn & Hglo & Hkey).
    split; [exact Hglo|]. intros _.
    split; [exact Hsup|]. split; [exact Hsyn | exact Hkey].
  - split; [|discriminate].
    unfold navigationSections in H. destruct (querySelector d SelNavGc).
    + apply bind_Ok_inv in H as (order & _ & H).
      apply navLoop_glossary in H. exact H.
    + injection H as <-. reflexivity.
Qed.

Lemma parseDocument_unfilled_sections_witness :
  legacyHasContent doc_both = true /\
  exists secs,
    parseDocument toLowerASCII plainEngine doc_both = Ok secs /\
    glossary secs = [] /\
    supplementary secs = [] /\ synopsis secs = [] /\ keyPassages secs = [].
Proof.
  split; [reflexivity|].
  destruct (parseDocument toLowerASCII plainEngine doc_both) as [secs|e] eqn:E;
    [|exfalso; vm_compute in E; discriminate E].
  exists secs. split; [reflexivity|].
  destruct (parseDocument_unfilled_sections toLowerASCII plainEngine doc_both secs E)
    as [Hg Hrest].
  split; [exact Hg|]. apply Hrest. reflexivity.
Defined.


(** ** [parseInt] reads back what [String] writes *)

Lemma lit_String (a : ascii) (s : string) :
  lit (String a s) = N_of_ascii a :: lit s.
Proof. reflexivity. Qed.

Lemma parse_digits_uint_acc (d : Decimal.uint) :
  forall acc : positive,
    parse_digits (Some (Z.pos acc)) (lit (NilEmpty.string_of_uint d))
    = Some (Z.pos (Pos.of_uint_acc d acc)).
Proof.
  induction d as [|d IH|d IH|d IH|d IH|d IH|d IH|d IH|d IH|d IH|d IH];
    intros acc; [reflexivity|..];
    cbn [NilEmpty.string_of_uint Pos.of_uint_acc]; rewrite lit_String;
    cbn [parse_digits];
    match goal with
    | |- context [isDigit ?c] =>
        change (isDigit c) with true; cbv iota
    end;
    rewrite <- IH;
    match goal with
    | |- parse_digits (Some ?x) _ = parse_digits (Some ?y) _ =>
        replace x with y; [reflexivity|]
    end;
    unfold digit_val; vm_compute (Z.of_N _); lia.
Qed.

Lemma parse_digits_uint_zero (d : Decimal.uint) :
  parse_digits (Some 0%Z) (lit (NilEmpty.string_of_uint d))
  = Some (Z.of_uint d).
Proof.
  induction d as [|d IH|d IH|d IH|d IH|d IH|d IH|d IH|d IH|d IH|d IH];
    [reflexivity|exact IH|..];
    cbn [NilEmpty.string_of_uint]; rewrite lit_String;
    cbn [parse_digits];
    match goal with
    | |- context [isDigit ?c] =>
        change (isDigit c) with true; cbv iota
    end;
    apply (parse_digits_uint_acc d).
Qed.

Lemma parse_digits_uint (d : Decimal.uint) :
  parse_digits None (lit (NilZero.string_of_uint d)) = Some (Z.of_uint d).
Proof.
  destruct d; [reflexivity|apply (parse_digits_uint_zero (Decimal.D0 d))|..];
    cbn [NilZero.string_of_uint NilEmpty.string_of_uint]; rewrite lit_String;
    cbn [parse_digits];
    match goal with
    | |- context [isDigit ?c] =>
        change (isDigit c) with true; cbv iota
    end;
    apply (parse_digits_uint_acc d).
Qed.

Lemma parseInt_uint (d : Decimal.uint) :
  parseInt (lit (NilZero.string_of_uint d)) = Some (Z.of_uint d).
Proof.
  rewrite <- parse_digits_uint.
  destruct d; [reflexivity|..];
    cbn [NilZero.string_of_uint NilEmpty.string_of_uint]; rewrite lit_String;
    reflexivity.
Qed.

Lemma parseInt_String_of (n : Z) : parseInt (String_of n) = Some n.
Proof.
  unfold String_of. rewrite <- (DecimalZ.of_to n) at 2.
  destruct (Z.to_int n) as [d|d]; cbn [NilZero.string_of_int Z.of_int].
  - apply parseInt_uint.
  - rewrite lit_String. unfold parseInt. cbn [trimStart].
    change (isWhiteSpace (N_of_ascii "-")) with false. cbv iota.
    change (N_of_ascii "-" =? 45) with true. cbv iota.
    rewrite parse_digits_uint. reflexivity.
Qed.


(** ** The questions pass *)

Lemma dropWhile_Forall {A : Type} (P : A -> Prop) (f : A -> bool) (l : list A) :
  Forall P l -> Forall P (dropWhile f l).
Proof.
  induction 1 as [|x l Hx Hl IH]; cbn [dropWhile]; [constructor|].
  destruct (f x); [exact IH | constructor; assumption].
Qed.

Lemma dropWhile_length {A : Type} (f : A -> bool) (l : list A) :
  (length (dropWhile f l) <= length l)%nat.
Proof.
  induction l as [|x l IH]; cbn [dropWhile]; [lia|].
  destruct (f x); cbn [length]; lia.
Qed.

Lemma qa_ok_weaken (qs : list item) (k k' : nat) (cur : option str)
    (prev : Z) (queue queue' : list Z) (em : list item) :
  qa_ok qs k cur prev queue em ->
  (k <= k')%nat -> Forall (fun n => 0 <= n)%Z queue' ->
  (length queue' <= length queue)%nat ->
  qa_ok qs k' cur prev queue' em.
Proof.
  intros ((new & He & Hnew & Hlen) & _ & Hp & Hc) Hk Hq Hl.
  split; [|split; [exact Hq | split; [exact Hp | exact Hc]]].
  exists new. split; [exact He|]. split; [exact Hnew | lia].
Qed.

Lemma qa_ok_start (qs : list item) (k : nat) (prev : Z) (n : Z)
    (queue queue' : list Z) (em : list item) :
  qa_ok qs k None prev queue em ->
  (0 <= n)%Z -> Forall (fun n => 0 <= n)%Z queue' ->
  (length queue' <= length queue)%nat ->
  qa_ok qs (S k) (Some (String_of n)) prev queue' em.
Proof.
  intros ((new & He & Hnew & Hlen) & _ & Hp & _) Hn Hq Hl.
  split; [|split; [exact Hq | split; [exact Hp|]]].
  - exists new. split; [exact He|]. split; [exact Hnew|].
    cbn [is_some] in *. lia.
  - intros num E. injection E as <-. exists n. split; [exact Hn | reflexivity].
Qed.

Lemma qa_ok_queue (qs : list item) (k : nat) (cur : option str) (prev : Z)
    (n : Z) (queue : list Z) (em : list item) :
  qa_ok qs k cur prev queue em -> (0 <= n)%Z ->
  qa_ok qs (S k) cur prev (queue ++ [n]) em.
Proof.
  intros ((new & He & Hnew & Hlen) & Hq & Hp & Hc) Hn.
  split; [|split; [|split; [exact Hp | exact Hc]]].
  - exists new. split; [exact He|]. split; [exact Hnew|].
    rewrite length_app. cbn [length]. lia.
  - apply Forall_app. split; [exact Hq|]. constructor; [exact Hn | constructor].
Qed.

Lemma flush_ok (qs : list item) (k : nat) (cur : option str) (prev : Z)
    (queue : list Z) (text : str) (em : list item) :
  qa_ok qs k cur prev queue em ->
  exists prev' em',
    flush (mkQa cur prev queue text em) = mkQa None prev' queue [] em' /\
    qa_ok qs k None prev' queue em'.
Proof.
  intros Hok. pose proof Hok as ((new & He & Hnew & Hlen) & Hq & Hp & Hc).
  unfold flush. cbn [currentNum prevNum pendingQueue currentText emitted].
  destruct cur as [num|].
  - destruct (Hc num eq_refl) as (n & Hn & ->).
    destruct (0 <? length (trim text))%nat.
    + eexists _, _. split; [reflexivity|].
      split; [|split; [exact Hq | split; [|discriminate]]].
      * exists (new ++ [mkItem (StrOrd (String_of n)) (cleanText text)]).
        split; [rewrite He, app_assoc; reflexivity|].
        split.
        -- apply Forall_app. split; [exact Hnew|].
           constructor; [|constructor]. exists n. split; [exact Hn | reflexivity].
        -- rewrite length_app. cbn [length is_some] in *. lia.
      * rewrite parseInt_String_of. unfold num_or.
        destruct (n =? 0)%Z; [exact Hp | exact Hn].
    + eexists _, _. split; [reflexivity|].
      apply (qa_ok_weaken qs k k (Some (String_of n)) prev queue queue em) in Hok;
        [|lia | exact Hq | lia].
      destruct Hok as ((new' & He' & Hnew' & Hlen') & _).
      split; [|split; [exact Hq | split; [exact Hp | discriminate]]].
      exists new'. split; [exact He'|]. split; [exact Hnew'|].
      cbn [is_some] in *. lia.
  - eexists _, _. split; [reflexivity | exact Hok].
Qed.

Lemma qaStep_inv (qs : list item) (k : nat) (st st' : qaState) (p : loc) :
  qa_inv qs k st -> qaStep st p = Ok st' -> qa_inv qs (S k) st'.
Proof.
  destruct st as [cur prev queue text em]. unfold qa_inv.
  cbn [currentNum prevNum pendingQueue currentText emitted].
  intros Hok H. unfold qaStep in H. cbv zeta in H.
  cbn [currentNum prevNum pendingQueue currentText emitted] in H.
  pose proof Hok as (_ & Hq & Hp & _).
  destruct (exec false re_numOnly (trim (textContent (here p)))) as [mt|] eqn:Eonly.
  { injection H as <-.
    cbn [currentNum prevNum pendingQueue currentText emitted].
    apply qa_ok_queue; [exact Hok|].
    apply (capturedNumber_bounds re_numOnly _ mt (or_introl eq_refl) Eonly). }
  destruct (test true re_isQuestion (trim (textContent (here p)))).
  { destruct (flush_ok qs k cur prev queue text em Hok)
      as (prev' & em' & Hf & Hok').
    rewrite Hf in H.
    cbn [currentNum prevNum pendingQueue currentText emitted] in H.
    pose proof Hok' as (_ & _ & Hp' & _).
    destruct (exec false re_numAtStart (trim (textContent (here p))))
      as [mt|] eqn:Eat; [|destruct queue as [|q rest]];
      cbv beta iota zeta in H; apply bind_Ok_inv in H as (t & _ & H);
      injection H as <-;
      cbn [currentNum prevNum pendingQueue currentText emitted].
    - apply (qa_ok_start qs k prev' _ queue); [exact Hok'| | |].
      + apply (capturedNumber_bounds re_numAtStart _ mt (or_intror eq_refl) Eat).
      + apply dropWhile_Forall. exact Hq.
      + apply dropWhile_length.
    - apply (qa_ok_start qs k prev' _ []); [exact Hok' | lia | constructor | lia].
    - inversion Hq as [|q0 r0 Hq0 Hr0]; subst.
      apply (qa_ok_start qs k prev' _ (q :: rest)); [exact Hok' | exact Hq0 | |].
      + apply dropWhile_Forall. exact Hr0.
      + pose proof (dropWhile_length (Z.eqb q) rest). cbn [length]. lia.
  }
  destruct (test true re_isAnswer (trim (textContent (here p))) && is_some cur).
  { apply bind_Ok_inv in H as (t & _ & H). injection H as <-.
    cbn [currentNum prevNum pendingQueue currentText emitted].
    apply (qa_ok_weaken qs k (S k) cur prev queue queue em Hok); [lia | exact Hq | lia]. }
  cbv beta in H.
  cbn [currentNum prevNum pendingQueue currentText emitted] in H.
  destruct (negb (is_some cur) &&
            negb (test true re_isAnswer (trim (textContent (here p))))) eqn:Eimp.
  - destruct cur as [num|]; [discriminate Eimp|].
    destruct (exec false re_numAtStart (trim (textContent (here p))))
      as [mt|] eqn:Eat; [|destruct queue as [|q rest]];
      cbv beta iota zeta in H;
      cbn [flush currentNum prevNum pendingQueue currentText emitted is_some] in H.
    + apply bind_Ok_inv in H as (t & _ & H).
      destruct (truthy t && (2 <? length t)%nat); injection H as <-;
        cbn [currentNum prevNum pendingQueue currentText emitted].
      * apply (qa_ok_start qs k prev _ queue); [exact Hok| | |].
        -- apply (capturedNumber_bounds re_numAtStart _ mt (or_intror eq_refl) Eat).
        -- apply dropWhile_Forall. exact Hq.
        -- apply dropWhile_length.
      * apply (qa_ok_weaken qs k (S k) None prev queue _ em Hok); [lia| |].
        -- apply dropWhile_Forall. exact Hq.
        -- apply dropWhile_length.
    + injection H as <-.
      cbn [currentNum prevNum pendingQueue currentText emitted].
      apply (qa_ok_weaken qs k (S k) None prev [] [] em Hok); [lia | exact Hq | lia].
    + inversion Hq as [|q0 r0 Hq0 Hr0]; subst.
      apply bind_Ok_inv in H as (t & _ & H).
      destruct (truthy t && (2 <? length t)%nat); injection H as <-;
        cbn [currentNum prevNum pendingQueue currentText emitted].
      * apply (qa_ok_start qs k prev _ (q :: rest)); [exact Hok | exact Hq0 | |].
        -- apply dropWhile_Forall. exact Hr0.
        -- pose proof (dropWhile_length (Z.eqb q) rest). cbn [length]. lia.
      * apply (qa_ok_weaken qs k (S k) None prev (q :: rest) _ em Hok); [lia| |].
        -- apply dropWhile_Forall. exact Hr0.
        -- pose proof (dropWhile_length (Z.eqb q) rest). cbn [length]. lia.
  - destruct (is_some cur).
    + apply bind_Ok_inv in H as (t & _ & H). injection H as <-.
      destruct (truthy t);
        cbn [currentNum prevNum pendingQueue currentText emitted];
        apply (qa_ok_weaken qs k (S k) cur prev queue queue em Hok);
        first [lia | exact Hq].
    + injection H as <-.
      cbn [currentNum prevNum pendingQueue currentText emitted].
      apply (qa_ok_weaken qs k (S k) cur prev queue queue em Hok);
        first [lia | exact Hq].
Qed.


Lemma qaLoop_inv (qs : list item) (ps : list loc) :
  forall k st st',
    qa_inv qs k st -> qaLoop st ps = Ok st' ->
    qa_inv qs (k + length ps) st'.
Proof.
  induction ps as [|p ps IH]; intros k st st' Hinv H; cbn [qaLoop] in H.
  - injection H as <-. cbn [length]. rewrite Nat.add_0_r. exact Hinv.
  - apply bind_Ok_inv in H as (st1 & H1 & H).
    cbn [length]. rewrite Nat.add_succ_r.
    apply (IH (S k) st1 st' (qaStep_inv qs k st st1 p Hinv H1) H).
Qed.

Lemma drain_ok (qs : list item) (queue : list Z) :
  forall new,
    Forall decimal_item new -> Forall (fun n => 0 <= n)%Z queue ->
    exists new',
      drain queue (qs ++ new) = qs ++ new' /\ Forall decimal_item new' /\
      (length new' <= length new + length queue)%nat.
Proof.
  induction queue as [|n rest IH]; intros new Hnew Hq; cbn [drain].
  - exists new. split; [reflexivity|]. split; [exact Hnew | lia].
  - inversion Hq as [|n0 r0 Hn Hrest]; subst. cbv zeta.
    match goal with
    | |- context [if ?b then _ else _] => destruct b
    end.
    + rewrite <- app_assoc.
      destruct (IH (new ++ [mkItem (StrOrd (String_of n)) []])) as (new' & E & Hd & Hl).
      * apply Forall_app. split; [exact Hnew|]. constructor; [|constructor].
        exists n. split; [exact Hn | reflexivity].
      * exact Hrest.
      * exists new'. split; [exact E|]. split; [exact Hd|].
        rewrite length_app in Hl. cbn [length] in *. lia.
    + destruct (IH new Hnew Hrest) as (new' & E & Hd & Hl).
      exists new'. split; [exact E|]. split; [exact Hd|]. cbn [length]. lia.
Qed.

(** X13.  The questions pass only appends to [sections.questions]: the
    items that were there stay, in place.  It adds at most one item per
    block of the range, and the [n] of every item it adds is the decimal
    numeral of a number that is not negative. *)
Theorem questionsPass_appends_numbered_items :
  forall (qs : list item) (ps : list loc) (out : list item),
    questionsPass qs ps = Ok out ->
    exists new,
      out = qs ++ new /\ (length new <= length ps)%nat /\
      Forall decimal_item new.
Proof.
  intros qs ps out H. unfold questionsPass in H.
  apply bind_Ok_inv in H as (st & Hloop & H). cbv zeta in H.
  injection H as <-.
  assert (Hinit : qa_inv qs 0 (mkQa None 0 [] [] qs)).
  { unfold qa_inv. cbn [currentNum prevNum pendingQueue currentText emitted].
    split; [|split; [constructor | split; [lia | discriminate]]].
    exists []. rewrite app_nil_r. split; [reflexivity|].
    split; [constructor | simpl; lia]. }
  pose proof (qaLoop_inv qs ps 0 _ st Hinit Hloop) as Hinv.
  destruct st as [cur prev queue text em]. unfold qa_inv in Hinv.
  cbn [currentNum prevNum pendingQueue currentText emitted] in Hinv.
  destruct (flush_ok qs _ cur prev queue text em Hinv)
    as (prev' & em' & -> & (new & -> & Hnew & Hlen) & Hq & _).
  cbn [pendingQueue emitted].
  destruct (drain_ok qs queue new Hnew Hq) as (new' & -> & Hd & Hl).
  exists new'. split; [reflexivity|]. split; [|exact Hd].
  cbn [is_some] in Hlen. lia.
Qed.

Lemma questionsPass_appends_numbered_items_witness :
  questionsPass [ mkItem (StrOrd (lit "1")) (lit "kept") ]
    [ block (lit "7"); block (lit "Question: A"); block (lit "Answer: B");
      block (lit "9") ]
  = Ok [ mkItem (StrOrd (lit "1")) (lit "kept");
         mkItem (StrOrd (lit "7")) (lit "Question: A Answer: B");
         mkItem (StrOrd (lit "9")) [] ] /\
  exists new,
    [ mkItem (StrOrd (lit "1")) (lit "kept");
      mkItem (StrOrd (lit "7")) (lit "Question: A Answer: B");
      mkItem (StrOrd (lit "9")) [] ]
    = [ mkItem (StrOrd (lit "1")) (lit "kept") ] ++ new /\
    (length new <= 4)%nat /\ Forall decimal_item new.
Proof.
  split; [reflexivity|].
  apply (questionsPass_appends_numbered_items
           [ mkItem (StrOrd (lit "1")) (lit "kept") ]
           [ block (lit "7"); block (lit "Question: A"); block (lit "Answer: B");
             block (lit "9") ]).
  reflexivity.
Defined.

(** ** Questions without a number *)

Lemma qaStep_unnumbered (cur : option str) (prev : Z) (text : str)
    (em : list item) (p : loc) :
  unnumbered_question p = true ->
  exists t,
    blockText p = Ok t /\ (0 <? length (trim t))%nat = true /\
    qaStep (mkQa cur prev [] text em) p =
    Ok (mkQa (Some (String_of (prevNum (flush (mkQa cur prev [] text em)) + 1)))
             (prevNum (flush (mkQa cur prev [] text em))) [] t
             (emitted (flush (mkQa cur prev [] text em)))).
Proof.
  unfold unnumbered_question. cbv zeta. intros H.
  apply andb_true_iff in H as [H Ht]. apply andb_true_iff in H as [H Hquestion].
  apply andb_true_iff in H as [Honly Hat].
  destruct (blockText p) as [t|e] eqn:Eb; [|discriminate Ht].
  exists t. split; [reflexivity|]. split; [exact Ht|].
  unfold qaStep. cbv zeta.
  destruct (exec false re_numOnly (trim (textContent (here p))));
    [discriminate Honly|].
  destruct (exec false re_numAtStart (trim (textContent (here p))));
    [discriminate Hat|].
  rewrite Hquestion.
  assert (Eq : pendingQueue (flush (mkQa cur prev [] text em)) = []).
  { unfold flush. cbn [currentNum prevNum pendingQueue currentText emitted].
    destruct cur; [destruct (0 <? length (trim text))%nat|]; reflexivity. }
  rewrite Eq. cbv beta iota zeta. cbn [dropWhile]. rewrite Eb. reflexivity.
Qed.

Lemma qaLoop_unnumbered (ps : list loc) :
  forall (c : Z) (t : str) (em : list item),
    (1 <= c)%Z -> (0 <? length (trim t))%nat = true ->
    forallb unnumbered_question ps = true ->
    exists st',
      qaLoop (mkQa (Some (String_of c)) (c - 1) [] t em) ps = Ok st' /\
      pendingQueue (flush st') = [] /\
      emitted (flush st') =
      em ++ mkItem (StrOrd (String_of c)) (cleanText t)
            :: numbered_questions (c + 1) ps.
Proof.
  induction ps as [|p ps IH]; intros c t em Hc Ht Hall.
  - eexists. split; [reflexivity|]. unfold flush.
    cbn [currentNum prevNum pendingQueue currentText emitted].
    rewrite Ht. split; reflexivity.
  - cbn [forallb] in Hall. apply andb_true_iff in Hall as [Hp Hall].
    destruct (qaStep_unnumbered (Some (String_of c)) (c - 1) t em p Hp)
      as (t' & Eb & Ht' & Estep).
    assert (Ef : flush (mkQa (Some (String_of c)) (c - 1) [] t em) =
                 mkQa None c [] []
                   (em ++ [mkItem (StrOrd (String_of c)) (cleanText t)])).
    { unfold flush. cbn [currentNum prevNum pendingQueue currentText emitted].
      rewrite Ht, parseInt_String_of. unfold num_or.
      destruct (c =? 0)%Z eqn:E0; [apply Z.eqb_eq in E0; lia | reflexivity]. }
    rewrite Ef in Estep. cbn [prevNum emitted] in Estep.
    cbn [qaLoop]. rewrite Estep. cbn [bind].
    destruct (IH (c + 1)%Z t'
                (em ++ [mkItem (StrOrd (String_of c)) (cleanText t)]))
      as (st' & Hloop & Hqueue & Hem); [lia | exact Ht' | exact Hall|].
    replace (c + 1 - 1)%Z with c in Hloop by lia.
    exists st'. split; [exact Hloop|]. split; [exact Hqueue|].
    rewrite Hem, <- app_assoc. cbn [numbered_questions app]. rewrite Eb.
    reflexivity.
Qed.

(** X14.  When every block of the range is a question without a number of
    its own (it carries a [Question] label, does not start with a number,
    and its text is not blank), the questions pass makes one item of each
    block and numbers them 1, 2, 3, ... in the order of the blocks, after
    the items that were there. *)
Theorem unnumbered_questions_numbered_consecutively :
  forall (qs : list item) (ps : list loc),
    forallb unnumbered_question ps = true ->
    questionsPass qs ps = Ok (qs ++ numbered_questions 1 ps).
Proof.
  intros qs [|p ps] Hall; [cbn; rewrite app_nil_r; reflexivity|].
  cbn [forallb] in Hall. apply andb_true_iff in Hall as [Hp Hall].
  destruct (qaStep_unnumbered None 0 [] qs p Hp) as (t & Eb & Ht & Estep).
  cbn [flush currentNum prevNum pendingQueue currentText emitted] in Estep.
  unfold questionsPass. cbn [qaLoop]. rewrite Estep. cbn [bind].
  destruct (qaLoop_unnumbered ps 1 t qs ltac:(lia) Ht Hall)
    as (st' & Hloop & Hqueue & Hem).
  change (1 - 1)%Z with 0%Z in Hloop. change (0 + 1)%Z with 1%Z.
  rewrite Hloop. cbn [bind]. cbv zeta. rewrite Hqueue, Hem.
  cbn [drain numbered_questions]. rewrite Eb. reflexivity.
Qed.

Lemma unnumbered_questions_numbered_consecutively_witness :
  forallb unnumbered_question
    [ block (lit "Question: first"); block (lit "Question - second") ] = true /\
  questionsPass [ mkItem (StrOrd (lit "1")) (lit "kept") ]
    [ block (lit "Question: first"); block (lit "Question - second") ]
  = Ok [ mkItem (StrOrd (lit "1")) (lit "kept");
         mkItem (StrOrd (lit "1")) (lit "Question: first");
         mkItem (StrOrd (lit "2")) (lit "Question - second") ].
Proof.
  split; [reflexivity|].
  apply (unnumbered_questions_numbered_consecutively
           [ mkItem (StrOrd (lit "1")) (lit "kept") ]
           [ block (lit "Question: first"); block (lit "Question - second") ]).
  reflexivity.
Defined.


(** ** The extractor on content without formatting *)

Lemma extractStep_unmarked (self : node -> result str) (tag : str)
    (attrs : list (str * str)) (cs : list node) (acc inner : str) :
  marks (Elem tag attrs cs) = false ->
  self (Elem tag attrs cs) = Ok inner ->
  extractStep self (Elem tag attrs cs) acc = Ok (acc ++ inner).
Proof.
  intros Hm Hself. unfold marks in Hm. cbn [existsb] in Hm.
  apply orb_false_iff in Hm as [Htags Ha].
  repeat (apply orb_false_iff in Htags as [? Htags]).
  unfold extractStep. cbv zeta. rewrite Hself.
  repeat match goal with
         | H : str_eqb _ _ = false |- _ => rewrite H; clear H
         end.
  cbn [orb bind getAttribute].
  destruct (str_eqb (toLowerASCII tag) (lit "a")).
  - cbn [andb] in Ha.
    destruct (lookup_attr (lit "href") attrs) as [h|];
      unfold and_then, truthy_opt, startsWith_of.
    + destruct (truthy h); cbn [andb] in Ha; cbn [bind];
        [rewrite Ha|]; reflexivity.
    + reflexivity.
  - destruct (str_eqb (toLowerASCII tag) (lit "span")); reflexivity.
Qed.

Lemma extractLoop_unformatted (cs : list node) :
  Forall (fun c => forallb unformatted (childNodes c) = true ->
                   extractChildren c = Ok (flat_map normalizedText (childNodes c)))
         cs ->
  forallb unformatted cs = true ->
  forall acc,
    extractLoop extractChildren cs acc = Ok (acc ++ flat_map normalizedText cs).
Proof.
  induction 1 as [|c cs Hc Hcs IH]; intros Hall acc; cbn [extractLoop flat_map].
  - rewrite app_nil_r. reflexivity.
  - cbn [forallb] in Hall. apply andb_true_iff in Hall as [Hu Hrest].
    destruct c as [d|d|tag attrs cs'].
    + cbn [extractStep bind textContent descendantText normalizedText].
      rewrite (IH Hrest), app_assoc. reflexivity.
    + cbn [extractStep bind normalizedText app]. apply (IH Hrest).
    + cbn [unformatted] in Hu. apply andb_true_iff in Hu as [Hm Hkids].
      apply negb_true_iff in Hm.
      rewrite (extractStep_unmarked extractChildren tag attrs cs' acc _ Hm
                 (Hc Hkids)).
      cbn [bind normalizedText childNodes].
      rewrite (IH Hrest), app_assoc. reflexivity.
Qed.

Lemma extractChildren_unformatted (n : node) :
  forallb unformatted (childNodes n) = true ->
  extractChildren n = Ok (flat_map normalizedText (childNodes n)).
Proof.
  induction n as [d|d|tag attrs cs IH] using node_induction; intros Hall;
    [reflexivity | reflexivity|].
  cbn [extractChildren childNodes] in *.
  apply (extractLoop_unformatted cs IH Hall []).
Qed.

Lemma normalizedText_entity_free (n : node) :
  entity_free n = true -> normalizedText n = descendantText n.
Proof.
  induction n as [d|d|tag attrs cs IH] using node_induction; intros H;
    cbn [normalizedText descendantText entity_free] in *.
  - apply normalizeText_fixed. intros e He.
    rewrite forallb_forall in H. apply negb_true_iff. apply (H e He).
  - reflexivity.
  - induction IH as [|c cs Hc Hcs IHcs]; [reflexivity|].
    cbn [forallb flat_map] in *. apply andb_true_iff in H as [H1 H2].
    rewrite (Hc H1), (IHcs H2). reflexivity.
Qed.

(** X15.  On an element whose subtree holds no formatting element ([i],
    [em], [b], [strong], [u], [sup], [sub], [br]) and no link to an [http]
    address, [extractTextWithFormatting] adds no markup: it returns the
    data of the text nodes in document order, each passed through
    [normalizeText].  When no text node holds one of the named entities,
    this is the [textContent] of the element. *)
Theorem extractTextWithFormatting_unformatted :
  forall (tag : str) (attrs : list (str * str)) (cs : list node),
    forallb unformatted cs = true ->
    extractTextWithFormatting (Some (Elem tag attrs cs))
      = Ok (flat_map normalizedText cs) /\
    (forallb entity_free cs = true ->
     extractTextWithFormatting (Some (Elem tag attrs cs))
       = Ok (textContent (Elem tag attrs cs))).
Proof.
  intros tag attrs cs Hall.
  assert (E : extractTextWithFormatting (Some (Elem tag attrs cs))
              = Ok (flat_map normalizedText cs)).
  { apply (extractChildren_unformatted (Elem tag attrs cs) Hall). }
  split; [exact E|]. intros Hfree. rewrite E. f_equal.
  cbn [textContent descendantText].
  induction cs as [|c cs IH]; [reflexivity|].
  cbn [forallb flat_map] in *.
  apply andb_true_iff in Hall as [_ Hall].
  apply andb_true_iff in Hfree as [Hc Hfree].
  rewrite (normalizedText_entity_free c Hc).
  rewrite IH; [reflexivity | exact Hall | | exact Hfree].
  apply (extractChildren_unformatted (Elem tag attrs cs) Hall).
Qed.

Lemma extractTextWithFormatting_unformatted_witness :
  extractTextWithFormatting
    (Some (para [ Text (lit "Bah&aacute; ");
                  Elem (lit "SPAN") [] [Text (lit "and")];
                  Elem (lit "A") [(lit "href", lit "#n1")] [Text (lit " more")] ]))
  = Ok ([0x42; 0x61; 0x68; 0xE1; 0x20] ++ lit "and more") /\
  extractTextWithFormatting
    (Some (para [ Text (lit "one "); Elem (lit "SPAN") [] [Text (lit "two")] ]))
  = Ok (textContent
          (para [ Text (lit "one "); Elem (lit "SPAN") [] [Text (lit "two")] ])).
Proof.
  split.
  - apply (extractTextWithFormatting_unformatted (lit "P") []
             [ Text (lit "Bah&aacute; ");
               Elem (lit "SPAN") [] [Text (lit "and")];
               Elem (lit "A") [(lit "href", lit "#n1")] [Text (lit " more")] ]).
    reflexivity.
  - apply (extractTextWithFormatting_unformatted (lit "P") []
             [ Text (lit "one "); Elem (lit "SPAN") [] [Text (lit "two")] ]);
      reflexivity.
Defined.


(** ** [escapeXML] *)

Lemma flat_map_step {A B : Type} (f : A -> list B) (x : A) (l : list A) :
  flat_map f (x :: l) = f x ++ flat_map f l.
Proof. reflexivity. Qed.

Lemma replaceAll_single (x : char) (rep s : str) :
  replaceAll [x] rep s = flat_map (fun c => if c =? x then rep else [c]) s.
Proof.
  unfold replaceAll. induction s as [|c s IH]; [reflexivity|].
  rewrite flat_map_step. cbn [replace_from startsWith length Nat.pred].
  rewrite andb_true_r, (N.eqb_sym x c). destruct (c =? x).
  - rewrite IH. reflexivity.
  - rewrite IH. reflexivity.
Qed.

Lemma escapeAngles_flat (s : str) : escapeAngles s = flat_map escapeAngle s.
Proof.
  unfold escapeAngles.
  change (lit ">") with [greater_than]. change (lit "<") with [less_than].
  rewrite !replaceAll_single.
  induction s as [|c s IH]; [reflexivity|].
  rewrite (flat_map_step escapeAngle).
  rewrite (flat_map_step (fun c : N => if c =? less_than then lit "&lt;" else [c])).
  rewrite flat_map_app. f_equal; [|exact IH].
  unfold escapeAngle. destruct (c =? less_than); [reflexivity|].
  rewrite flat_map_step. apply app_nil_r.
Qed.

Lemma teiTags_at_other (c : char) (t : str) :
  c <> less_than -> c <> ampersand -> teiTags_at (c :: t) = None.
Proof.
  intros Hl Ha. apply N.eqb_neq in Hl, Ha.
  rewrite N.eqb_sym in Hl. rewrite N.eqb_sym in Ha.
  unfold teiTags_at, re_tagHead, re_entity, cat.
  cbn [fold_right m class_mem]. rewrite Hl, Ha. reflexivity.
Qed.

Lemma escapeAmpersands_none (s : str) :
  ~ In ampersand s -> escapeAmpersands s = s.
Proof.
  induction s as [|c s IH]; intros H; [reflexivity|].
  cbn [escapeAmpersands].
  destruct (c =? ampersand) eqn:E.
  - apply N.eqb_eq in E. exfalso. apply H. left. exact E.
  - cbn [andb]. rewrite IH; [reflexivity|]. intros Hin. apply H. right. exact Hin.
Qed.

Lemma escapeLoop_no_match (s : str) :
  forall pending,
    ~ In ampersand s -> ~ In less_than s ->
    escapeLoop 0 pending s = escapeAngles (rev pending ++ s).
Proof.
  induction s as [|c s IH]; intros pending Ha Hl; cbn [escapeLoop].
  - rewrite app_nil_r. reflexivity.
  - rewrite teiTags_at_other.
    + rewrite IH.
      * cbn [rev]. rewrite <- app_assoc. reflexivity.
      * intros Hin. apply Ha. right. exact Hin.
      * intros Hin. apply Hl. right. exact Hin.
    + intros ->. apply Hl. left. reflexivity.
    + intros ->. apply Ha. left. reflexivity.
Qed.

Lemma flat_map_escapeAngle_plain (s : str) :
  ~ In less_than s -> ~ In greater_than s -> flat_map escapeAngle s = s.
Proof.
  induction s as [|c s IH]; intros Hl Hg; [reflexivity|].
  rewrite flat_map_step. unfold escapeAngle at 1.
  destruct (c =? less_than) eqn:E1;
    [apply N.eqb_eq in E1; exfalso; apply Hl; left; exact E1|].
  destruct (c =? greater_than) eqn:E2;
    [apply N.eqb_eq in E2; exfalso; apply Hg; left; exact E2|].
  cbn [app]. rewrite IH; [reflexivity | |].
  - intros Hin. apply Hl. right. exact Hin.
  - intros Hin. apply Hg. right. exact Hin.
Qed.

Lemma occursb_single_absent (x : char) (s : str) :
  ~ In x s -> occursb [x] s = false.
Proof.
  induction s as [|c s IH]; intros H; [reflexivity|].
  cbn [occursb startsWith]. rewrite andb_true_r.
  destruct (x =? c) eqn:E.
  - apply N.eqb_eq in E. exfalso. apply H. left. symmetry. exact E.
  - cbn [orb]. apply IH. intros Hin. apply H. right. exact Hin.
Qed.

(** X16.  [escapeXML] leaves alone a text that has no ampersand and no
    angle bracket.  More generally, in a text without ampersand and
    without [<] it does one thing only: it writes [&gt;] for every [>]. *)
Theorem escapeXML_plain_text :
  forall text : str,
    ~ In ampersand text -> ~ In less_than text ->
    escapeXML text = replaceAll (lit ">") (lit "&gt;") text /\
    (~ In greater_than text -> escapeXML text = text).
Proof.
  intros text Ha Hl.
  assert (E : escapeXML text = escapeAngles text).
  { unfold escapeXML. destruct text as [|c t]; [reflexivity|].
    cbn [truthy negb]. rewrite (escapeAmpersands_none _ Ha).
    apply (escapeLoop_no_match (c :: t) [] Ha Hl). }
  split.
  - rewrite E. unfold escapeAngles. f_equal.
    apply replaceAll_absent.
    apply (occursb_single_absent less_than text Hl).
  - intros Hg. rewrite E, escapeAngles_flat.
    apply (flat_map_escapeAngle_plain text Hl Hg).
Qed.

Lemma escapeXML_plain_text_witness :
  escapeXML (lit "if a > b then") = lit "if a &gt; b then" /\
  escapeXML (lit "Question: A") = lit "Question: A".
Proof.
  assert (Ha : ~ In ampersand (lit "if a > b then"))
    by (intros H; repeat (destruct H as [H|H]; [discriminate H|]); exact H).
  assert (Hl : ~ In less_than (lit "if a > b then"))
    by (intros H; repeat (destruct H as [H|H]; [discriminate H|]); exact H).
  assert (Ha' : ~ In ampersand (lit "Question: A"))
    by (intros H; repeat (destruct H as [H|H]; [discriminate H|]); exact H).
  assert (Hl' : ~ In less_than (lit "Question: A"))
    by (intros H; repeat (destruct H as [H|H]; [discriminate H|]); exact H).
  assert (Hg' : ~ In greater_than (lit "Question: A"))
    by (intros H; repeat (destruct H as [H|H]; [discriminate H|]); exact H).
  split.
  - rewrite (proj1 (escapeXML_plain_text _ Ha Hl)). reflexivity.
  - apply (proj2 (escapeXML_plain_text _ Ha' Hl') Hg').
Defined.


(** ** [escapeXML]: ampersands and angle brackets *)

Section MatcherEquations.
Context {A : Type}.

Lemma skipn_length_app {B : Type} (w b : list B) : skipn (length w) (w ++ b) = b.
Proof. induction w as [|x w IH]; [reflexivity | exact IH]. Qed.

Lemma m_word_eq (w : str) (k : @kont A) :
  (forall p p' s c, k p s c = k p' s c) ->
  forall prev s cap,
    m false (word w) prev s cap k =
    if startsWith w s then k None (skipn (length w) s) cap else None.
Proof.
  intros Hk. induction w as [|x w IH]; intros prev s cap.
  - apply Hk.
  - change (word (x :: w)) with (Seq (Cls (CChar x)) (word w)).
    cbn [m class_mem startsWith]. destruct s as [|c t]; [reflexivity|].
    destruct (x =? c); [|reflexivity]. cbn [andb length skipn]. apply IH.
Qed.

Lemma m_rep_greedy_eq (cl : cclass) (k : @kont A) :
  (forall p p' s c, k p s c = k p' s c) ->
  (forall p c t cap, class_mem false cl c = true -> k p (c :: t) cap = None) ->
  forall s lo prev cap,
    m_rep false cl lo None prev s cap k =
    if (lo <=? length s - length (dropWhile (class_mem false cl) s))%nat
    then k None (dropWhile (class_mem false cl) s) cap
    else None.
Proof.
  intros Hk Hfail. induction s as [|c t IH]; intros lo prev cap.
  - cbn [m_rep dropWhile length Nat.sub]. destruct lo; [apply Hk | reflexivity].
  - cbn [m_rep dropWhile may_take option_map]. rewrite andb_true_r.
    destruct (class_mem false cl c) eqn:Ec.
    + rewrite IH.
      pose proof (dropWhile_length (class_mem false cl) t) as Hle.
      replace (length (c :: t) - length (dropWhile (class_mem false cl) t))%nat
        with (S (length t - length (dropWhile (class_mem false cl) t)))
        by (cbn [length]; lia).
      destruct lo as [|lo]; cbn [Nat.pred Nat.leb].
      * destruct (k None (dropWhile (class_mem false cl) t) cap) eqn:E;
          [reflexivity|]. apply (Hfail prev c t cap Ec).
      * destruct (lo <=? length t - length (dropWhile (class_mem false cl) t))%nat;
          [|reflexivity].
        destruct (k None (dropWhile (class_mem false cl) t) cap); reflexivity.
    + rewrite Nat.sub_diag. destruct lo; [apply Hk | reflexivity].
Qed.
End MatcherEquations.

Lemma is_some_alt {B : Type} (a b : option B) :
  is_some (match a with Some x => Some x | None => b end) = is_some a || is_some b.
Proof. destruct a; reflexivity. Qed.

Lemma digit_not_semicolon (c : char) :
  class_mem false CDigit c = true -> (semicolon =? c) = false.
Proof.
  intros H. destruct (semicolon =? c) eqn:E; [|reflexivity].
  apply N.eqb_eq in E. subst c. discriminate H.
Qed.

Lemma hex_not_semicolon (c : char) :
  class_mem false CHex c = true -> (semicolon =? c) = false.
Proof.
  intros H. destruct (semicolon =? c) eqn:E; [|reflexivity].
  apply N.eqb_eq in E. subst c. discriminate H.
Qed.

Lemma entityAhead_eq (t : str) : entityAhead t = refAhead t.
Proof.
  unfold entityAhead, re_entityAhead, cat, plus. cbn [fold_right m class_mem].
  rewrite !is_some_alt.
  rewrite !m_word_eq by (intros; reflexivity).
  unfold refAhead. cbv zeta.
  repeat (f_equal;
          [ match goal with
            | |- context [startsWith ?w t] =>
                destruct (startsWith w t); [|reflexivity];
                destruct (skipn (length w) t) as [|c0 r0]; [reflexivity|];
                cbn [andb]; destruct (semicolon =? c0); reflexivity
            end |]).
  f_equal.
  - destruct t as [|c s]; [reflexivity|].
    destruct (number_sign =? c); [|reflexivity]. cbn [andb].
    rewrite (m_rep_greedy_eq CDigit)
      by (intros; first [reflexivity | rewrite digit_not_semicolon by assumption; reflexivity]).
    destruct (1 <=? length s - length (dropWhile (class_mem false CDigit) s))%nat;
      [|reflexivity].
    cbn [andb].
    destruct (dropWhile (class_mem false CDigit) s) as [|c0 r0]; [reflexivity|].
    destruct (semicolon =? c0); reflexivity.
  - destruct t as [|c [|x s]]; [reflexivity| |].
    + destruct (number_sign =? c); reflexivity.
    + destruct (number_sign =? c); [|reflexivity].
      destruct (0x78 =? x); [|reflexivity]. cbn [andb].
      rewrite (m_rep_greedy_eq CHex)
        by (intros; first [reflexivity | rewrite hex_not_semicolon by assumption; reflexivity]).
      destruct (1 <=? length s - length (dropWhile (class_mem false CHex) s))%nat;
        [|reflexivity].
      cbn [andb].
      destruct (dropWhile (class_mem false CHex) s) as [|c0 r0]; [reflexivity|].
      destruct (semicolon =? c0); reflexivity.
Qed.

Lemma dropWhile_split {B : Type} (f : B -> bool) (s : list B) :
  exists pre, s = pre ++ dropWhile f s /\ forallb f pre = true.
Proof.
  induction s as [|c s (pre & E & Hpre)]; [exists []; split; reflexivity|].
  cbn [dropWhile]. destruct (f c) eqn:Ec.
  - exists (c :: pre). split; [cbn [app]; f_equal; exact E|].
    cbn [forallb]. rewrite Ec, Hpre. reflexivity.
  - exists []. split; reflexivity.
Qed.

Lemma dropWhile_app_stop {B : Type} (f : B -> bool) (pre : list B) (c : B)
    (r : list B) :
  forallb f pre = true -> f c = false -> dropWhile f (pre ++ c :: r) = c :: r.
Proof.
  intros Hpre Hc. induction pre as [|x pre IH]; cbn [app dropWhile].
  - rewrite Hc. reflexivity.
  - cbn [forallb] in Hpre. apply andb_true_iff in Hpre as [-> Hpre].
    apply IH. exact Hpre.
Qed.

Lemma forallb_not_In (f : char -> bool) (x : char) (l : str) :
  forallb f l = true -> f x = false -> ~ In x l.
Proof.
  intros Hl Hx Hin. rewrite forallb_forall in Hl.
  rewrite (Hl x Hin) in Hx. discriminate Hx.
Qed.

Lemma run_then_semicolon (cl : cclass) (s : str) :
  (1 <=? length s - length (dropWhile (class_mem false cl) s))%nat &&
  match dropWhile (class_mem false cl) s with
  | c :: _ => semicolon =? c
  | [] => false
  end = true ->
  exists pre r,
    s = pre ++ semicolon :: r /\ pre <> [] /\
    forallb (class_mem false cl) pre = true.
Proof.
  intros H. apply andb_true_iff in H as [Hlen Hsemi].
  destruct (dropWhile_split (class_mem false cl) s) as (pre & E & Hpre).
  destruct (dropWhile (class_mem false cl) s) as [|c r]; [discriminate Hsemi|].
  apply N.eqb_eq in Hsemi. subst c. exists pre, r.
  split; [exact E|]. split; [|exact Hpre].
  intros ->. apply Nat.leb_le in Hlen. rewrite E in Hlen at 1.
  cbn [app] in Hlen. lia.
Qed.

Lemma semicolon_after_run (cl : cclass) (pre r : str) :
  pre <> [] -> forallb (class_mem false cl) pre = true ->
  class_mem false cl semicolon = false ->
  (1 <=? length (pre ++ semicolon :: r)
         - length (dropWhile (class_mem false cl) (pre ++ semicolon :: r)))%nat &&
  match dropWhile (class_mem false cl) (pre ++ semicolon :: r) with
  | c :: _ => semicolon =? c
  | [] => false
  end = true.
Proof.
  intros Hne Hpre Hsemi.
  rewrite (dropWhile_app_stop _ pre semicolon r Hpre Hsemi).
  rewrite length_app. apply andb_true_iff. split; [|reflexivity].
  apply Nat.leb_le. destruct pre; [contradiction|]. cbn [length]. lia.
Qed.

Ltac not_in_literal :=
  let H := fresh in
  intros H; repeat (destruct H as [H|H]; [discriminate H|]); exact H.

Lemma m_rep_head_fail {A : Type} (cl : cclass) (lo : nat) (hi : option nat)
    (prev : option char) (c : char) (t : str) (cap : option str) (k : @kont A) :
  class_mem false cl c = false ->
  m_rep false cl (S lo) hi prev (c :: t) cap k = None.
Proof. intros H. cbn [m_rep]. rewrite H. reflexivity. Qed.

Lemma run_length (pre x : str) :
  pre <> [] -> (1 <=? length (pre ++ x) - length x)%nat = true.
Proof.
  intros H. apply Nat.leb_le. rewrite length_app.
  destruct pre; [contradiction|]. cbn [length]. lia.
Qed.

Lemma m_rep_run_semicolon (cl : cclass) (pre r : str) (prev : option char)
    (cap : option str) :
  pre <> [] -> forallb (class_mem false cl) pre = true ->
  (forall c, class_mem false cl c = true -> (semicolon =? c) = false) ->
  m_rep false cl 1 None prev (pre ++ semicolon :: r) cap
    (fun (_ : option char) (s' : str) (_ : option str) =>
       match s' with
       | [] => None
       | c :: t => if semicolon =? c then Some t else None
       end)
  = Some r.
Proof.
  intros Hne Hpre Hsemi.
  rewrite m_rep_greedy_eq.
  - assert (Hs : class_mem false cl semicolon = false).
    { destruct (class_mem false cl semicolon) eqn:E; [|reflexivity].
      apply Hsemi in E. discriminate E. }
    rewrite (dropWhile_app_stop _ pre semicolon r Hpre Hs).
    rewrite (run_length pre _ Hne). reflexivity.
  - intros; reflexivity.
  - intros p c t cap' Hc. rewrite (Hsemi c Hc). reflexivity.
Qed.

Lemma entityAhead_inv (t : str) :
  entityAhead t = true ->
  exists body r,
    t = body ++ semicolon :: r /\
    ~ In ampersand body /\ ~ In greater_than body /\ ~ In less_than body /\
    (forall r', entityAhead (body ++ semicolon :: r') = true) /\
    (forall r', teiTags_at (ampersand :: body ++ semicolon :: r') = Some r').
Proof.
  rewrite entityAhead_eq. unfold refAhead. cbv zeta. intros H.
  repeat (apply orb_true_iff in H as [H|H];
          [ apply andb_true_iff in H as [Hs Hsemi];
            apply startsWith_app in Hs as [b ->];
            rewrite skipn_length_app in Hsemi;
            destruct b as [|c r]; [discriminate Hsemi|];
            apply N.eqb_eq in Hsemi; subst c;
            eexists _, r; split; [reflexivity|];
            split; [not_in_literal|]; split; [not_in_literal|];
            split; [not_in_literal|];
            split; intros r'; reflexivity
          | ]).
  apply orb_true_iff in H as [H|H].
  - destruct t as [|c s]; [discriminate H|].
    apply andb_true_iff in H as [Hc H]. apply N.eqb_eq in Hc. subst c.
    apply run_then_semicolon in H as (pre & r & -> & Hne & Hpre).
    exists (number_sign :: pre), r. split; [reflexivity|].
    split; [intros [E|Hin]; [discriminate E|];
            apply (forallb_not_In _ ampersand _ Hpre eq_refl Hin)|].
    split; [intros [E|Hin]; [discriminate E|];
            apply (forallb_not_In _ greater_than _ Hpre eq_refl Hin)|].
    split; [intros [E|Hin]; [discriminate E|];
            apply (forallb_not_In _ less_than _ Hpre eq_refl Hin)|].
    split; intros r'.
    + rewrite entityAhead_eq. unfold refAhead. cbv zeta. cbn [app].
      rewrite (semicolon_after_run CDigit pre r' Hne Hpre eq_refl).
      reflexivity.
    + unfold teiTags_at, re_tagHead, re_entity, cat, plus.
      cbn [fold_right m class_mem app].
      change (less_than =? ampersand) with false.
      change (ampersand =? ampersand) with true.
      change (number_sign =? number_sign) with true. cbv iota.
      rewrite m_rep_head_fail by reflexivity.
      rewrite (m_rep_run_semicolon CDigit pre r' _ _ Hne Hpre digit_not_semicolon).
      reflexivity.
  - destruct t as [|c [|x s]]; [discriminate H| |].
    { discriminate H. }
    apply andb_true_iff in H as [Hc H]. apply andb_true_iff in Hc as [Hc Hx].
    apply N.eqb_eq in Hc, Hx. subst c x.
    apply run_then_semicolon in H as (pre & r & -> & Hne & Hpre).
    exists (number_sign :: 0x78 :: pre), r. split; [reflexivity|].
    split; [intros [E|[E|Hin]]; [discriminate E | discriminate E|];
            apply (forallb_not_In _ ampersand _ Hpre eq_refl Hin)|].
    split; [intros [E|[E|Hin]]; [discriminate E | discriminate E|];
            apply (forallb_not_In _ greater_than _ Hpre eq_refl Hin)|].
    split; [intros [E|[E|Hin]]; [discriminate E | discriminate E|];
            apply (forallb_not_In _ less_than _ Hpre eq_refl Hin)|].
    split; intros r'.
    + rewrite entityAhead_eq. unfold refAhead. cbv zeta. cbn [app].
      rewrite (semicolon_after_run CHex pre r' Hne Hpre eq_refl).
      do 6 (apply orb_true_iff; right). reflexivity.
    + unfold teiTags_at, re_tagHead, re_entity, cat, plus.
      cbn [fold_right m class_mem app].
      change (less_than =? ampersand) with false.
      change (ampersand =? ampersand) with true.
      change (number_sign =? number_sign) with true.
      change (120 =? 120) with true. cbv iota.
      rewrite !m_rep_head_fail by reflexivity.
      rewrite (m_rep_run_semicolon CHex pre r' _ _ Hne Hpre hex_not_semicolon).
      reflexivity.
Qed.

Lemma ampersands_escaped_skip (pre y : str) :
  ~ In ampersand pre ->
  ampersands_escaped (pre ++ y) = ampersands_escaped y.
Proof.
  induction pre as [|c pre IH]; intros H; [reflexivity|].
  cbn [app ampersands_escaped].
  destruct (c =? ampersand) eqn:E.
  - apply N.eqb_eq in E. exfalso. apply H. left. exact E.
  - cbn [negb orb andb]. apply IH. intros Hin. apply H. right. exact Hin.
Qed.

Lemma escapeAmpersands_skip (pre y : str) :
  ~ In ampersand pre ->
  escapeAmpersands (pre ++ y) = pre ++ escapeAmpersands y.
Proof.
  induction pre as [|c pre IH]; intros H; [reflexivity|].
  cbn [app escapeAmpersands].
  destruct (c =? ampersand) eqn:E.
  - apply N.eqb_eq in E. exfalso. apply H. left. exact E.
  - cbn [andb]. f_equal. apply IH. intros Hin. apply H. right. exact Hin.
Qed.

Lemma escapeAmpersands_escaped (s : str) :
  ampersands_escaped (escapeAmpersands s) = true.
Proof.
  induction s as [|c t IH]; [reflexivity|].
  cbn [escapeAmpersands].
  destruct (c =? ampersand) eqn:Ec; cbn [andb].
  - destruct (entityAhead t) eqn:Ea; cbn [negb].
    + cbn [ampersands_escaped]. rewrite Ec, IH. cbn [negb orb].
      rewrite andb_true_r.
      destruct (entityAhead_inv t Ea) as (body & r & -> & Hamp & _ & _ & Hall & _).
      rewrite (escapeAmpersands_skip body _ Hamp).
      cbn [escapeAmpersands]. change (semicolon =? ampersand) with false.
      cbn [andb]. apply Hall.
    + change (lit "&amp;") with ([ampersand] ++ lit "amp;").
      rewrite <- app_assoc. cbn [app ampersands_escaped].
      change (ampersand =? ampersand) with true. cbn [negb orb].
      rewrite (ampersands_escaped_skip (lit "amp;")) by not_in_literal.
      rewrite IH. rewrite andb_true_r.
      reflexivity.
  - cbn [ampersands_escaped]. rewrite Ec, IH. reflexivity.
Qed.

Lemma escapeAngles_escaped (p y : str) :
  ~ In ampersand p -> ampersands_escaped y = true ->
  ampersands_escaped (escapeAngles p ++ y) = true.
Proof.
  intros Hp Hy. rewrite escapeAngles_flat.
  induction p as [|c p IH]; [exact Hy|].
  rewrite flat_map_step, <- app_assoc.
  assert (IH' : ampersands_escaped (flat_map escapeAngle p ++ y) = true)
    by (apply IH; intros Hin; apply Hp; right; exact Hin).
  unfold escapeAngle at 1.
  destruct (c =? less_than); [|destruct (c =? greater_than)].
  - change (lit "&lt;") with ([ampersand] ++ lit "lt;").
    rewrite <- app_assoc. cbn [app ampersands_escaped].
    change (ampersand =? ampersand) with true. cbn [negb orb].
    rewrite (ampersands_escaped_skip (lit "lt;")) by not_in_literal.
    rewrite IH'. reflexivity.
  - change (lit "&gt;") with ([ampersand] ++ lit "gt;").
    rewrite <- app_assoc. cbn [app ampersands_escaped].
    change (ampersand =? ampersand) with true. cbn [negb orb].
    rewrite (ampersands_escaped_skip (lit "gt;")) by not_in_literal.
    rewrite IH'. reflexivity.
  - rewrite (ampersands_escaped_skip [c]); [exact IH'|].
    intros [E|[]]. apply Hp. left. exact E.
Qed.

Lemma first_semicolon_inside (body : str) :
  forall (i rest r : str),
    ~ In greater_than body ->
    i ++ greater_than :: rest = body ++ semicolon :: r ->
    exists i', i = body ++ semicolon :: i'.
Proof.
  induction body as [|b body IH]; intros i rest r Hb E.
  - destruct i as [|c i]; [discriminate E|].
    injection E as -> _. exists i. reflexivity.
  - destruct i as [|c i].
    + injection E as E _. exfalso. apply Hb. left. symmetry. exact E.
    + injection E as -> E.
      destruct (IH i rest r) as (i' & ->); [|exact E|].
      * intros Hin. apply Hb. right. exact Hin.
      * exists i'. reflexivity.
Qed.

Lemma tag_inside_escaped (inner : str) :
  forall rest x : str,
    ampersands_escaped (inner ++ greater_than :: rest) = true ->
    ampersands_escaped x = true ->
    ampersands_escaped (inner ++ greater_than :: x) = true.
Proof.
  induction inner as [|c inner IH]; intros rest x H Hx.
  - cbn [app ampersands_escaped] in *. exact Hx.
  - cbn [app ampersands_escaped] in *.
    apply andb_true_iff in H as [Hc H]. rewrite (IH rest x H Hx), andb_true_r.
    destruct (c =? ampersand); [|reflexivity].
    cbn [negb orb] in *.
    destruct (entityAhead_inv _ Hc) as (body & r & E & _ & Hgt & _ & Hall & _).
    destruct (first_semicolon_inside body inner rest r Hgt E) as (i' & ->).
    rewrite <- app_assoc. cbn [app]. apply Hall.
Qed.

Lemma m_gt_inv {A : Type} (s : str) (k : str -> option A) (x : A) :
  m_gt s k = Some x -> exists t, s = greater_than :: t /\ k t = Some x.
Proof.
  unfold m_gt. destruct s as [|c t]; [discriminate|].
  destruct (c =? greater_than) eqn:E; [|discriminate].
  apply N.eqb_eq in E. subst c. intros H. exists t. split; [reflexivity | exact H].
Qed.

Lemma m_not_gt_star_inv {A : Type} (s : str) (k : str -> option A) (x : A) :
  m_not_gt_star s k = Some x ->
  exists run s', s = run ++ s' /\ ~ In greater_than run /\ k s' = Some x.
Proof.
  induction s as [|c t IH]; cbn [m_not_gt_star]; intros H.
  - exists [], []. split; [reflexivity|]. split; [intros []|exact H].
  - destruct (c =? greater_than) eqn:E; cbn [negb] in H.
    + exists [], (c :: t). split; [reflexivity|]. split; [intros []|exact H].
    + destruct (m_not_gt_star t k) as [y|] eqn:Et.
      * injection H as <-. destruct (IH eq_refl) as (run & s' & -> & Hrun & Hk).
        exists (c :: run), s'. split; [reflexivity|]. split; [|exact Hk].
        intros [Hc|Hin]; [|exact (Hrun Hin)].
        subst c. discriminate E.
      * exists [], (c :: t). split; [reflexivity|]. split; [intros []|exact H].
Qed.

Lemma m_tagTail_inv (b rest : str) :
  m_tagTail b Some = Some rest ->
  exists inner, b = inner ++ greater_than :: rest /\ ~ In greater_than inner.
Proof.
  unfold m_tagTail. intros H.
  assert (Hdirect : m_gt b Some = Some rest ->
                    exists inner, b = inner ++ greater_than :: rest /\
                                  ~ In greater_than inner).
  { intros Hg. apply m_gt_inv in Hg as (t & -> & E). injection E as <-.
    exists []. split; [reflexivity | intros []]. }
  destruct b as [|c t]; [apply Hdirect; exact H|].
  destruct (isWhiteSpace c) eqn:Ews; [|apply Hdirect; exact H].
  destruct (m_not_gt_star t (fun s' => m_gt s' Some)) as [y|] eqn:Et;
    [|apply Hdirect; exact H].
  injection H as ->.
  apply m_not_gt_star_inv in Et as (run & s' & -> & Hrun & Hg).
  apply m_gt_inv in Hg as (t' & -> & E). injection E as <-.
  exists (c :: run). split; [reflexivity|].
  intros [Hc|Hin]; [|exact (Hrun Hin)].
  subst c. discriminate Ews.
Qed.

Lemma teiTags_at_tag (t rest : str) :
  teiTags_at (less_than :: t) = Some rest ->
  exists name inner,
    t = name ++ inner ++ greater_than :: rest /\
    In name [lit "hi"; lit "ref"; lit "/hi"; lit "/ref"] /\
    ~ In greater_than inner.
Proof.
  unfold teiTags_at, re_tagHead, re_entity, cat, plus.
  cbn [fold_right m class_mem].
  change (less_than =? less_than) with true.
  change (ampersand =? less_than) with false. cbv iota.
  rewrite !m_word_eq by (intros; reflexivity).
  intros H.
  repeat match type of H with
         | context [startsWith ?w t] =>
             let E := fresh "E" in
             let Et := fresh "Et" in
             destruct (startsWith w t) eqn:E;
             [ apply startsWith_app in E as [b ->];
               rewrite skipn_length_app in H;
               destruct (m_tagTail b Some) as [y|] eqn:Et;
               [ injection H as ->;
                 apply m_tagTail_inv in Et as (inner & -> & Hinner);
                 exists w, inner; split; [reflexivity|];
                 split; [cbn [In]; auto 6 | exact Hinner]
               | cbn in H; discriminate H ]
             | ]
         end.
  discriminate H.
Qed.

Lemma firstn_matched {B : Type} (pre r : list B) :
  firstn (length (pre ++ r) - length r) (pre ++ r) = pre.
Proof.
  rewrite length_app. replace (length pre + length r - length r)%nat
    with (length pre) by lia.
  rewrite firstn_app, Nat.sub_diag, firstn_all. cbn [firstn]. apply app_nil_r.
Qed.

Lemma escapeLoop_escaped (s : str) :
  forall skip pending,
    ampersands_escaped s = true -> ~ In ampersand pending ->
    ampersands_escaped (escapeLoop skip pending s) = true.
Proof.
  induction s as [|c t IH]; intros skip pending Hs Hp; cbn [escapeLoop].
  - rewrite <- (app_nil_r (escapeAngles (rev pending))).
    apply escapeAngles_escaped; [|reflexivity].
    intros Hin. apply Hp. apply in_rev. exact Hin.
  - cbn [ampersands_escaped] in Hs. apply andb_true_iff in Hs as [Hc Ht].
    destruct skip as [|k]; [|apply IH; assumption].
    assert (Hamp : c = ampersand ->
              exists body r,
                t = body ++ semicolon :: r /\ ~ In ampersand body /\
                (forall r', entityAhead (body ++ semicolon :: r') = true) /\
                teiTags_at (c :: t) = Some r).
    { intros ->. change (ampersand =? ampersand) with true in Hc.
      cbn [negb orb] in Hc.
      destruct (entityAhead_inv t Hc)
        as (body & r & -> & Ha & _ & _ & Hall & Htei).
      exists body, r. split; [reflexivity|]. split; [exact Ha|].
      split; [exact Hall | apply Htei]. }
    destruct (teiTags_at (c :: t)) as [rest|] eqn:Etei.
    + cbv zeta. apply escapeAngles_escaped;
        [intros Hin; apply Hp; apply in_rev; exact Hin|].
      set (x := escapeLoop _ [] t).
      assert (Hx : ampersands_escaped x = true)
        by (apply IH; [exact Ht | intros []]).
      destruct (N.eq_dec c ampersand) as [Ea|Ea].
      * destruct (Hamp Ea) as (body & r & -> & Ha & Hall & E).
        injection E as ->. subst c.
        replace (ampersand :: body ++ semicolon :: r)
          with ((ampersand :: body ++ [semicolon]) ++ r)
          by (cbn [app]; rewrite <- app_assoc; reflexivity).
        rewrite firstn_matched. cbn [app ampersands_escaped].
        rewrite <- !app_assoc. cbn [app]. rewrite Hall. cbn [orb andb].
        rewrite orb_true_r. cbn [andb].
        rewrite (ampersands_escaped_skip body) by exact Ha.
        cbn [ampersands_escaped]. rewrite Hx. reflexivity.
      * destruct (N.eq_dec c less_than) as [El|El].
        -- subst c.
           destruct (teiTags_at_tag t rest Etei)
             as (name & inner & -> & Hname & _).
           replace (less_than :: name ++ inner ++ greater_than :: rest)
             with ((less_than :: name ++ inner ++ [greater_than]) ++ rest)
             by (cbn [app]; rewrite <- !app_assoc; reflexivity).
           rewrite firstn_matched.
           assert (Hn : ~ In ampersand name).
           { cbn [In] in Hname.
             destruct Hname as [<-|[<-|[<-|[<-|[]]]]]; not_in_literal. }
           rewrite (ampersands_escaped_skip name) in Ht by exact Hn.
           cbn [app ampersands_escaped].
           change (less_than =? ampersand) with false. cbn [negb orb andb].
           rewrite <- !app_assoc.
           rewrite (ampersands_escaped_skip name) by exact Hn.
           cbn [app]. apply (tag_inside_escaped inner rest x Ht Hx).
        -- rewrite (teiTags_at_other c t El Ea) in Etei. discriminate Etei.
    + apply IH; [exact Ht|].
      intros [E|Hin]; [|exact (Hp Hin)].
      destruct (Hamp E) as (_ & r & _ & _ & _ & E'). discriminate E'.
Qed.

(** X17.  In the output of [escapeXML] every ampersand starts a reference:
    it is followed by one of the names [amp], [lt], [gt], [quot], [apos],
    or by [#] and decimal digits, or by [#x] and hexadecimal digits, and
    then a semicolon.  This holds for every input, also inside the tags
    that are kept. *)
Theorem escapeXML_escapes_ampersands :
  forall text : str, ampersands_escaped (escapeXML text) = true.
Proof.
  intros text. unfold escapeXML. destruct (negb (truthy text)); [reflexivity|].
  apply escapeLoop_escaped; [apply escapeAmpersands_escaped | intros []].
Qed.

Lemma startsWith_escapeAmpersands (w : str) :
  forall s,
    (forall x, In x w -> ~ In x (lit "&amp;")) ->
    startsWith w (escapeAmpersands s) = true -> startsWith w s = true.
Proof.
  induction w as [|x w IH]; intros s Hw H; [reflexivity|].
  destruct s as [|c t]; [discriminate H|].
  cbn [escapeAmpersands] in H.
  destruct ((c =? ampersand) && negb (entityAhead t)).
  - exfalso. cbn [startsWith app lit] in H.
    apply andb_true_iff in H as [H _]. apply N.eqb_eq in H.
    apply (Hw x); [left; reflexivity | left; symmetry; exact H].
  - cbn [startsWith] in *. apply andb_true_iff in H as [-> H]. cbn [andb].
    apply IH; [|exact H]. intros y Hy. apply Hw. right. exact Hy.
Qed.

Lemma occursb_escapeAmpersands (w : str) (s : str) :
  w <> [] -> (forall x, In x w -> ~ In x (lit "&amp;")) ->
  occursb w s = false -> occursb w (escapeAmpersands s) = false.
Proof.
  intros Hne Hw. induction s as [|c t IH]; intros H.
  - exact H.
  - cbn [occursb] in H. apply orb_false_iff in H as [Hs Ht].
    specialize (IH Ht).
    destruct (occursb w (escapeAmpersands (c :: t))) eqn:E; [|reflexivity].
    exfalso. cbn [escapeAmpersands] in E.
    destruct ((c =? ampersand) && negb (entityAhead t)) eqn:Ec.
    + destruct w as [|x w]; [contradiction|].
      assert (Hx : forall y, In y (lit "&amp;") -> (x =? y) = false).
      { intros y Hy. apply N.eqb_neq. intros ->.
        apply (Hw y); [left; reflexivity | exact Hy]. }
      cbn [app lit list_ascii_of_string map] in E.
      cbn [occursb startsWith] in E.
      rewrite !Hx in E by (cbn; auto 8). cbn [andb orb] in E.
      cbn [occursb startsWith] in IH. rewrite IH in E. discriminate E.
    + cbn [occursb] in E. rewrite IH, orb_false_r in E.
      assert (E' : startsWith w (escapeAmpersands (c :: t)) = true)
        by (cbn [escapeAmpersands]; rewrite Ec; exact E).
      apply (startsWith_escapeAmpersands w (c :: t) Hw) in E'.
      rewrite E' in Hs. discriminate Hs.
Qed.

Lemma escapeAngle_no_brackets (p : str) :
  ~ In less_than (flat_map escapeAngle p) /\
  ~ In greater_than (flat_map escapeAngle p).
Proof.
  induction p as [|c p [IH1 IH2]]; [split; intros []|].
  rewrite flat_map_step. unfold escapeAngle at 1 3.
  destruct (c =? less_than) eqn:El; [|destruct (c =? greater_than) eqn:Eg].
  - split; intros Hin; apply in_app_or in Hin as [Hin|Hin];
      first [ exact (IH1 Hin) | exact (IH2 Hin)
            | revert Hin; not_in_literal ].
  - split; intros Hin; apply in_app_or in Hin as [Hin|Hin];
      first [ exact (IH1 Hin) | exact (IH2 Hin)
            | revert Hin; not_in_literal ].
  - apply N.eqb_neq in El, Eg.
    split; intros [E|Hin]; first [ exact (IH1 Hin) | exact (IH2 Hin) | congruence ].
Qed.

Lemma occursb_tail_false (w : str) (c : char) (t : str) :
  occursb w (c :: t) = false -> occursb w t = false.
Proof. cbn [occursb]. intros H. apply orb_false_iff in H as [_ H]. exact H. Qed.

Lemma escapeLoop_no_brackets (s : str) :
  forall skip pending,
    ampersands_escaped s = true ->
    (forall w, In w tag_starts -> occursb w s = false) ->
    ~ In less_than (escapeLoop skip pending s) /\
    ~ In greater_than (escapeLoop skip pending s).
Proof.
  induction s as [|c t IH]; intros skip pending Hs Htag; cbn [escapeLoop].
  - rewrite escapeAngles_flat. apply escapeAngle_no_brackets.
  - cbn [ampersands_escaped] in Hs. apply andb_true_iff in Hs as [Hc Ht].
    assert (Htag' : forall w, In w tag_starts -> occursb w t = false)
      by (intros w Hw; apply (occursb_tail_false w c t); apply Htag; exact Hw).
    destruct skip as [|k]; [|apply IH; assumption].
    destruct (teiTags_at (c :: t)) as [rest|] eqn:Etei;
      [|apply IH; assumption].
    cbv zeta. set (x := escapeLoop _ [] t).
    assert (Hx : ~ In less_than x /\ ~ In greater_than x)
      by (apply IH; assumption).
    destruct Hx as [Hx1 Hx2].
    destruct (escapeAngle_no_brackets (rev pending)) as [Hp1 Hp2].
    rewrite <- escapeAngles_flat in Hp1, Hp2.
    destruct (N.eq_dec c ampersand) as [Ea|Ea].
    + subst c. change (ampersand =? ampersand) with true in Hc.
      cbn [negb orb] in Hc.
      destruct (entityAhead_inv t Hc)
        as (body & r & -> & _ & Hg & Hl & _ & Htei).
      rewrite Htei in Etei. injection Etei as <-.
      replace (ampersand :: body ++ semicolon :: r)
        with ((ampersand :: body ++ [semicolon]) ++ r)
        by (cbn [app]; rewrite <- app_assoc; reflexivity).
      rewrite firstn_matched.
      split; intros Hin;
        repeat (apply in_app_or in Hin as [Hin|Hin]);
        first [ exact (Hp1 Hin) | exact (Hp2 Hin)
              | exact (Hx1 Hin) | exact (Hx2 Hin) | idtac ];
        (destruct Hin as [E|Hin]; [discriminate E|]);
        (apply in_app_or in Hin as [Hin|[E|[]]];
         [first [exact (Hl Hin) | exact (Hg Hin)] | discriminate E]).
    + destruct (N.eq_dec c less_than) as [El|El].
      * subst c. exfalso.
        destruct (teiTags_at_tag t rest Etei) as (name & inner & -> & Hname & _).
        assert (Hocc : occursb (less_than :: name)
                         (less_than :: name ++ inner ++ greater_than :: rest)
                       = true).
        { apply occursb_app. exists [], (inner ++ greater_than :: rest).
          reflexivity. }
        rewrite Htag in Hocc; [discriminate Hocc|].
        unfold tag_starts. cbn [In] in *.
        destruct Hname as [<-|[<-|[<-|[<-|[]]]]]; auto 6.
      * rewrite (teiTags_at_other c t El Ea) in Etei. discriminate Etei.
Qed.

(** X18.  When the text holds none of [<hi], [<ref], [</hi] and [</ref],
    the output of [escapeXML] holds no angle bracket at all: every [<] and
    every [>] of the text has been written as a reference. *)
Theorem escapeXML_without_tags_no_brackets :
  forall text : str,
    (forall w, In w tag_starts -> occursb w text = false) ->
    ~ In less_than (escapeXML text) /\ ~ In greater_than (escapeXML text).
Proof.
  intros text Htag. unfold escapeXML.
  destruct (negb (truthy text)); [split; intros []|].
  apply escapeLoop_no_brackets; [apply escapeAmpersands_escaped|].
  intros w Hw. apply occursb_escapeAmpersands; [| |apply Htag; exact Hw].
  - unfold tag_starts in Hw. cbn [In] in Hw.
    destruct Hw as [<-|[<-|[<-|[<-|[]]]]]; discriminate.
  - unfold tag_starts in Hw. cbn [In] in Hw.
    destruct Hw as [<-|[<-|[<-|[<-|[]]]]]; intros x Hx Hamp;
      repeat (destruct Hx as [<-|Hx];
              [repeat (destruct Hamp as [E|Hamp]; [discriminate E|]); exact Hamp|]);
      exact Hx.
Qed.

Lemma escapeXML_without_tags_no_brackets_witness :
  escapeXML (lit "1 < 2 & <b>x</b> &lt;")
    = lit "1 &lt; 2 &amp; &lt;b&gt;x&lt;/b&gt; &lt;" /\
  ~ In less_than (escapeXML (lit "1 < 2 & <b>x</b> &lt;")) /\
  ~ In greater_than (escapeXML (lit "1 < 2 & <b>x</b> &lt;")).
Proof.
  split; [reflexivity|].
  apply (escapeXML_without_tags_no_brackets (lit "1 < 2 & <b>x</b> &lt;")).
  intros w Hw. unfold tag_starts in Hw. cbn [In] in Hw.
  destruct Hw as [<-|[<-|[<-|[<-|[]]]]]; reflexivity.
Defined.


(** ** The ordinals of the model *)

Lemma string_of_uint_digits (d : Decimal.uint) :
  forallb isDigit (lit (NilEmpty.string_of_uint d)) = true.
Proof.
  induction d as [|d IH|d IH|d IH|d IH|d IH|d IH|d IH|d IH|d IH|d IH];
    [reflexivity|..];
    cbn [NilEmpty.string_of_uint]; rewrite lit_String; cbn [forallb];
    rewrite IH; reflexivity.
Qed.

Lemma String_of_digits (n : Z) :
  (0 <= n)%Z -> forallb isDigit (String_of n) = true.
Proof.
  intros Hn. unfold String_of. destruct n as [|p|p]; [reflexivity| |lia].
  cbn [Z.to_int NilZero.string_of_int]. unfold NilZero.string_of_uint.
  destruct (Pos.to_uint p) eqn:E; [reflexivity|..];
    rewrite <- E; apply string_of_uint_digits.
Qed.

Lemma digits_ordinal (s : str) :
  forallb isDigit s = true -> forallb ordinal_char s = true.
Proof.
  apply forallb_weaken. intros c Hc. unfold ordinal_char. rewrite Hc. reflexivity.
Qed.

Lemma plain_ordinal_NumOrd (i : Z) (t : str) :
  (0 <= i)%Z -> plain_ordinal (mkItem (NumOrd i) t) = true.
Proof. intros Hi. apply digits_ordinal. apply String_of_digits. exact Hi. Qed.

Lemma plain_ordinal_decimal (it : item) :
  decimal_item it -> plain_ordinal it = true.
Proof.
  intros (n & Hn & E). unfold plain_ordinal. rewrite E.
  apply digits_ordinal. apply String_of_digits. exact Hn.
Qed.

Lemma leadingDigits_group (s : str) (mt : rmatch) :
  exec false re_leadingDigits s = Some mt ->
  forallb isDigit (or_empty (m_group mt)) = true.
Proof.
  intros H. unfold exec in H. apply exec_from_inv in H as (p0 & s0 & H).
  unfold re_leadingDigits, cat, plus in H. cbn [fold_right] in H.
  apply m_seq_groupless in H as (p1 & s1 & H); [|reflexivity].
  apply m_seq_group_digits in H as (g & p2 & s2 & Hd & _ & H).
  cbn [m] in H. injection H as _ <-. exact Hd.
Qed.

Section LegacyOrdinals.
Variable amap : Map.

Lemma scanFamily_ordinals (prefix : str) (strip : bool) (count : nat) :
  forall i acc out,
    (0 <= i)%Z -> Forall (fun it => plain_ordinal it = true) acc ->
    scanFamily amap prefix strip count i acc = Ok out ->
    Forall (fun it => plain_ordinal it = true) out.
Proof.
  induction count as [|count IH]; intros i acc out Hi Hacc H;
    cbn [scanFamily] in H.
  - injection H as <-. exact Hacc.
  - destruct (Map_get amap (prefix ++ String_of i)) as [el|].
    + apply bind_Ok_inv in H as (t & _ & H). cbv zeta in H.
      apply IH in H; [exact H | lia|].
      match goal with
      | |- Forall _ (if ?b then _ else _) => destruct b
      end; [|exact Hacc].
      apply Forall_app. split; [exact Hacc|].
      constructor; [apply plain_ordinal_NumOrd; exact Hi | constructor].
    + injection H as <-. exact Hacc.
Qed.

Lemma introStep_ordinals (i : Z) (suf : str) (acc out : list item) :
  (0 <= i)%Z -> In suf [[]; lit "b"; lit "c"] ->
  Forall (fun it => plain_ordinal it = true) acc ->
  introStep amap i suf acc = Ok out ->
  Forall (fun it => plain_ordinal it = true) out.
Proof.
  intros Hi Hsuf Hacc H. unfold introStep in H.
  destruct (Map_get amap (introName i suf)); [|injection H as <-; exact Hacc].
  cbv zeta in H. apply bind_Ok_inv in H as (t & _ & H). injection H as <-.
  destruct (truthy t); [|exact Hacc].
  apply Forall_app. split; [exact Hacc|].
  constructor; [|constructor].
  unfold plain_ordinal. cbn [item_n ordinal_text].
  rewrite forallb_app, (digits_ordinal _ (String_of_digits i Hi)).
  cbn [In] in Hsuf. destruct Hsuf as [<-|[<-|[<-|[]]]]; reflexivity.
Qed.

Lemma scanIntro_ordinals (count : nat) :
  forall i acc out,
    (0 <= i)%Z -> Forall (fun it => plain_ordinal it = true) acc ->
    scanIntro amap count i acc = Ok out ->
    Forall (fun it => plain_ordinal it = true) out.
Proof.
  induction count as [|count IH]; intros i acc out Hi Hacc H;
    cbn [scanIntro] in H.
  - injection H as <-. exact Hacc.
  - apply bind_Ok_inv in H as (a1 & H1 & H).
    apply bind_Ok_inv in H as (a2 & H2 & H).
    apply bind_Ok_inv in H as (a3 & H3 & H).
    apply introStep_ordinals in H1; [|exact Hi | cbn; auto | exact Hacc].
    apply introStep_ordinals in H2; [|exact Hi | cbn; auto | exact H1].
    apply introStep_ordinals in H3; [|exact Hi | cbn; auto | exact H2].
    apply IH in H; [exact H | lia | exact H3].
Qed.

Lemma legacySections_ordinals (secs : sections) :
  legacySections amap = Ok secs -> plain_ordinals secs.
Proof.
  intros H.
  apply legacySections_inv in H
    as (H1 & H2 & H3 & H4 & H5 & H6 & E7 & E8 & _ & E10).
  apply scanFamily_ordinals in H1; [|lia | constructor].
  apply scanIntro_ordinals in H2; [|lia | constructor].
  apply scanFamily_ordinals in H3; [|lia | constructor].
  apply scanFamily_ordinals in H4; [|lia | constructor].
  apply scanFamily_ordinals in H5; [|lia | constructor].
  apply scanFamily_ordinals in H6; [|lia | constructor].
  intros ty. destruct ty; cbn [get_section];
    rewrite ?E7, ?E8, ?E10; first [assumption | constructor].
Qed.
End LegacyOrdinals.

Lemma plain_ordinals_push (ty : sectionType) (it : item) (s : sections) :
  plain_ordinal it = true -> plain_ordinals s ->
  plain_ordinals (push_section ty it s).
Proof.
  intros Hit Hs ty'. specialize (Hs ty') as Hty'.
  destruct ty, ty'; cbn [get_section push_section preface introduction
    description mainText questions supplementary synopsis notes glossary
    keyPassages] in *;
    first [ exact Hty'
          | apply Forall_app; split; [exact Hty' | constructor; [exact Hit | constructor]] ].
Qed.

Lemma generalLoop_ordinals (ps : list loc) :
  forall ty c s s',
    (0 <= c)%Z -> plain_ordinals s ->
    generalLoop ty c s ps = Ok s' -> plain_ordinals s'.
Proof.
  induction ps as [|p rest IH]; intros ty c s s' Hc Hs H; cbn [generalLoop] in H.
  - injection H as <-. exact Hs.
  - apply bind_Ok_inv in H as (t0 & _ & H). cbv zeta in H.
    match type of H with
    | (if ?b then _ else _) = _ => destruct b
    end.
    + apply (IH _ _ _ _ Hc Hs H).
    + apply IH in H; [exact H | lia|].
      apply plain_ordinals_push; [|exact Hs].
      apply plain_ordinal_NumOrd. exact Hc.
Qed.

Lemma noteStep_ordinals (s s' : sections) (div : loc) :
  plain_ordinals s -> noteStep s div = Ok s' -> plain_ordinals s'.
Proof.
  intros Hs H. unfold noteStep in H.
  destruct (querySelector_in div SelSpanJb) as [titleSpan|];
    [|injection H as <-; exact Hs].
  cbv zeta in H. apply bind_Ok_inv in H as (t & _ & H). injection H as <-.
  destruct (truthy (trim t)); [|exact Hs].
  apply (plain_ordinals_push TNotes _ s); [|exact Hs].
  unfold plain_ordinal. cbn [item_n ordinal_text]. apply digits_ordinal.
  destruct (exec false re_leadingDigits (trim (textContent (here titleSpan))))
    as [mt|] eqn:E; [|reflexivity].
  apply (leadingDigits_group _ _ E).
Qed.

Lemma questionsPass_ordinals (qs out : list item) (ps : list loc) :
  Forall (fun it => plain_ordinal it = true) qs ->
  questionsPass qs ps = Ok out ->
  Forall (fun it => plain_ordinal it = true) out.
Proof.
  intros Hqs H. unfold questionsPass in H.
  apply bind_Ok_inv in H as (st & Hloop & H). cbv zeta in H.
  injection H as <-.
  assert (Hinit : qa_inv qs 0 (mkQa None 0 [] [] qs)).
  { unfold qa_inv. cbn [currentNum prevNum pendingQueue currentText emitted].
    split; [|split; [constructor | split; [lia | discriminate]]].
    exists []. rewrite app_nil_r. split; [reflexivity|].
    split; [constructor | simpl; lia]. }
  pose proof (qaLoop_inv qs ps 0 _ st Hinit Hloop) as Hinv.
  destruct st as [cur prev queue text em]. unfold qa_inv in Hinv.
  cbn [currentNum prevNum pendingQueue currentText emitted] in Hinv.
  destruct (flush_ok qs _ cur prev queue text em Hinv)
    as (prev' & em' & -> & (new & -> & Hnew & _) & Hq & _).
  cbn [pendingQueue emitted].
  destruct (drain_ok qs queue new Hnew Hq) as (new' & -> & Hd & _).
  apply Forall_app. split; [exact Hqs|].
  apply (Forall_impl _ plain_ordinal_decimal Hd).
Qed.

Section NavigationOrdinals.
Variable toLowerCase : str -> str.
Variable selectorOf : selectorEngine.
Variable d : document.

Lemma navStep_ordinals (s s' : sections) (e : navEntry) (nextId : option str) :
  plain_ordinals s ->
  navStep toLowerCase selectorOf d s e nextId = Ok s' -> plain_ordinals s'.
Proof.
  intros Hs H. unfold navStep in H.
  destruct (fst (nav_map e));
    apply bind_Ok_inv in H as (l & _ & H); cbv zeta in H;
    first
      [ refine (generalLoop_ordinals _ _ _ _ _ _ Hs H); lia
      | idtac ].
  - apply bind_Ok_inv in H as (q & Hq & H). injection H as <-.
    apply questionsPass_ordinals in Hq; [|apply (Hs TQuestions)].
    intros ty. specialize (Hs ty).
    destruct ty; cbn [get_section set_questions preface introduction
      description mainText questions supplementary synopsis notes glossary
      keyPassages] in *; first [exact Hs | exact Hq].
  - apply (fold_bind_inv noteStep plain_ordinals l) in H.
    + exact H.
    + intros a b a' Ha Hstep. apply (noteStep_ordinals _ _ _ Ha Hstep).
    + intros a0 H0. injection H0 as <-. exact Hs.
Qed.

Lemma navLoop_ordinals (entries : list navEntry) :
  forall s s',
    plain_ordinals s ->
    navLoop toLowerCase selectorOf d s entries = Ok s' -> plain_ordinals s'.
Proof.
  induction entries as [|e rest IH]; intros s s' Hs H; cbn [navLoop] in H.
  - injection H as <-. exact Hs.
  - cbv zeta in H. apply bind_Ok_inv in H as (s1 & H1 & H).
    apply (IH _ _ (navStep_ordinals _ _ _ _ Hs H1) H).
Qed.

Lemma parseDocument_ordinals (secs : sections) :
  parseDocument toLowerCase selectorOf d = Ok secs -> plain_ordinals secs.
Proof.
  intros H. unfold parseDocument in H.
  destruct (legacyHasContent d).
  - apply (legacySections_ordinals _ _ H).
  - assert (Hempty : plain_ordinals empty_sections)
      by (intros ty; destruct ty; constructor).
    unfold navigationSections in H. destruct (querySelector d SelNavGc).
    + apply bind_Ok_inv in H as (order & _ & H).
      apply (navLoop_ordinals _ _ _ Hempty H).
    + injection H as <-. exact Hempty.
Qed.
End NavigationOrdinals.

(** ** The shape of the ordinals *)

(** The ordinals of a model come from four places: a counter, the number
    of a question, the number and the suffix of an introduction marker, and
    the digits at the head of the title of a note. *)
Section OrdinalSources.
Variable Q : sectionType -> item -> Prop.
Hypothesis Q_counter :
  forall ty i t, (0 <= i)%Z -> Q ty (mkItem (NumOrd i) t).
Hypothesis Q_question : forall it, decimal_item it -> Q TQuestions it.
Hypothesis Q_introduction :
  forall i suf t,
    (0 <= i)%Z -> In suf [[]; lit "b"; lit "c"] ->
    Q TIntroduction (mkItem (StrOrd (String_of i ++ suf)) t).
Hypothesis Q_note :
  forall g t, forallb isDigit g = true -> Q TNotes (mkItem (StrOrd g) t).

Lemma scanFamily_source (ty : sectionType) (amap : Map) (prefix : str)
    (strip : bool) (count : nat) :
  forall i acc out,
    (0 <= i)%Z -> Forall (Q ty) acc ->
    scanFamily amap prefix strip count i acc = Ok out ->
    Forall (Q ty) out.
Proof.
  induction count as [|count IH]; intros i acc out Hi Hacc H;
    cbn [scanFamily] in H.
  - injection H as <-. exact Hacc.
  - destruct (Map_get amap (prefix ++ String_of i)) as [el|].
    + apply bind_Ok_inv in H as (t & _ & H). cbv zeta in H.
      apply IH in H; [exact H | lia|].
      match goal with
      | |- Forall _ (if ?b then _ else _) => destruct b
      end; [|exact Hacc].
      apply Forall_app. split; [exact Hacc|].
      constructor; [apply Q_counter; exact Hi | constructor].
    + injection H as <-. exact Hacc.
Qed.

Lemma introStep_source (amap : Map) (i : Z) (suf : str) (acc out : list item) :
  (0 <= i)%Z -> In suf [[]; lit "b"; lit "c"] ->
  Forall (Q TIntroduction) acc ->
  introStep amap i suf acc = Ok out ->
  Forall (Q TIntroduction) out.
Proof.
  intros Hi Hsuf Hacc H. unfold introStep in H.
  destruct (Map_get amap (introName i suf)); [|injection H as <-; exact Hacc].
  cbv zeta in H. apply bind_Ok_inv in H as (t & _ & H). injection H as <-.
  destruct (truthy t); [|exact Hacc].
  apply Forall_app. split; [exact Hacc|].
  constructor; [|constructor].
  apply Q_introduction; assumption.
Qed.

Lemma scanIntro_source (amap : Map) (count : nat) :
  forall i acc out,
    (0 <= i)%Z -> Forall (Q TIntroduction) acc ->
    scanIntro amap count i acc = Ok out ->
    Forall (Q TIntroduction) out.
Proof.
  induction count as [|count IH]; intros i acc out Hi Hacc H;
    cbn [scanIntro] in H.
  - injection H as <-. exact Hacc.
  - apply bind_Ok_inv in H as (a1 & H1 & H).
    apply bind_Ok_inv in H as (a2 & H2 & H).
    apply bind_Ok_inv in H as (a3 & H3 & H).
    apply introStep_source in H1; [|exact Hi | cbn; auto | exact Hacc].
    apply introStep_source in H2; [|exact Hi | cbn; auto | exact H1].
    apply introStep_source in H3; [|exact Hi | cbn; auto | exact H2].
    apply IH in H; [exact H | lia | exact H3].
Qed.

Lemma legacySections_source (amap : Map) (secs : sections) :
  legacySections amap = Ok secs -> sections_all Q secs.
Proof.
  intros H.
  apply legacySections_inv in H
    as (H1 & H2 & H3 & H4 & H5 & H6 & E7 & E8 & _ & E10).
  apply (scanFamily_source TPreface) in H1; [|lia | constructor].
  apply scanIntro_source in H2; [|lia | constructor].
  apply (scanFamily_source TDescription) in H3; [|lia | constructor].
  apply (scanFamily_source TText) in H4; [|lia | constructor].
  apply (scanFamily_source TQuestions) in H5; [|lia | constructor].
  apply (scanFamily_source TNotes) in H6; [|lia | constructor].
  intros ty. destruct ty; cbn [get_section];
    rewrite ?E7, ?E8, ?E10; first [assumption | constructor].
Qed.

Lemma sections_all_push (ty : sectionType) (it : item) (s : sections) :
  Q ty it -> sections_all Q s -> sections_all Q (push_section ty it s).
Proof.
  intros Hit Hs ty'. specialize (Hs ty') as Hty'.
  destruct ty, ty'; cbn [get_section push_section preface introduction
    description mainText questions supplementary synopsis notes glossary
    keyPassages] in *;
    first [ exact Hty'
          | apply Forall_app; split; [exact Hty' | constructor; [exact Hit | constructor]] ].
Qed.

Lemma generalLoop_source (ps : list loc) :
  forall ty c s s',
    (0 <= c)%Z -> sections_all Q s ->
    generalLoop ty c s ps = Ok s' -> sections_all Q s'.
Proof.
  induction ps as [|p rest IH]; intros ty c s s' Hc Hs H; cbn [generalLoop] in H.
  - injection H as <-. exact Hs.
  - apply bind_Ok_inv in H as (t0 & _ & H). cbv zeta in H.
    match type of H with
    | (if ?b then _ else _) = _ => destruct b
    end.
    + apply (IH _ _ _ _ Hc Hs H).
    + apply IH in H; [exact H | lia|].
      apply sections_all_push; [|exact Hs].
      apply Q_counter. exact Hc.
Qed.

Lemma noteStep_source (s s' : sections) (div : loc) :
  sections_all Q s -> noteStep s div = Ok s' -> sections_all Q s'.
Proof.
  intros Hs H. unfold noteStep in H.
  destruct (querySelector_in div SelSpanJb) as [titleSpan|];
    [|injection H as <-; exact Hs].
  cbv zeta in H. apply bind_Ok_inv in H as (t & _ & H). injection H as <-.
  destruct (truthy (trim t)); [|exact Hs].
  apply (sections_all_push TNotes _ s); [|exact Hs].
  apply Q_note.
  destruct (exec false re_leadingDigits (trim (textContent (here titleSpan))))
    as [mt|] eqn:E; [|reflexivity].
  apply (leadingDigits_group _ _ E).
Qed.

Lemma questionsPass_source (qs out : list item) (ps : list loc) :
  Forall (Q TQuestions) qs ->
  questionsPass qs ps = Ok out ->
  Forall (Q TQuestions) out.
Proof.
  intros Hqs H. unfold questionsPass in H.
  apply bind_Ok_inv in H as (st & Hloop & H). cbv zeta in H.
  injection H as <-.
  assert (Hinit : qa_inv qs 0 (mkQa None 0 [] [] qs)).
  { unfold qa_inv. cbn [currentNum prevNum pendingQueue currentText emitted].
    split; [|split; [constructor | split; [lia | discriminate]]].
    exists []. rewrite app_nil_r. split; [reflexivity|].
    split; [constructor | simpl; lia]. }
  pose proof (qaLoop_inv qs ps 0 _ st Hinit Hloop) as Hinv.
  destruct st as [cur prev queue text em]. unfold qa_inv in Hinv.
  cbn [currentNum prevNum pendingQueue currentText emitted] in Hinv.
  destruct (flush_ok qs _ cur prev queue text em Hinv)
    as (prev' & em' & -> & (new & -> & Hnew & _) & Hq & _).
  cbn [pendingQueue emitted].
  destruct (drain_ok qs queue new Hnew Hq) as (new' & -> & Hd & _).
  apply Forall_app. split; [exact Hqs|].
  apply (Forall_impl _ Q_question Hd).
Qed.

Section Navigation.
Variable toLowerCase : str -> str.
Variable selectorOf : selectorEngine.
Variable d : document.

Lemma navStep_source (s s' : sections) (e : navEntry) (nextId : option str) :
  sections_all Q s ->
  navStep toLowerCase selectorOf d s e nextId = Ok s' -> sections_all Q s'.
Proof.
  intros Hs H. unfold navStep in H.
  destruct (fst (nav_map e));
    apply bind_Ok_inv in H as (l & _ & H); cbv zeta in H;
    first
      [ refine (generalLoop_source _ _ _ _ _ _ Hs H); lia
      | idtac ].
  - apply bind_Ok_inv in H as (q & Hq & H). injection H as <-.
    apply questionsPass_source in Hq; [|apply (Hs TQuestions)].
    intros ty. specialize (Hs ty).
    destruct ty; cbn [get_section set_questions preface introduction
      description mainText questions supplementary synopsis notes glossary
      keyPassages] in *; first [exact Hs | exact Hq].
  - apply (fold_bind_inv noteStep (sections_all Q) l) in H.
    + exact H.
    + intros a b a' Ha Hstep. apply (noteStep_source _ _ _ Ha Hstep).
    + intros a0 H0. injection H0 as <-. exact Hs.
Qed.

Lemma navLoop_source (entries : list navEntry) :
  forall s s',
    sections_all Q s ->
    navLoop toLowerCase selectorOf d s entries = Ok s' -> sections_all Q s'.
Proof.
  induction entries as [|e rest IH]; intros s s' Hs H; cbn [navLoop] in H.
  - injection H as <-. exact Hs.
  - cbv zeta in H. apply bind_Ok_inv in H as (s1 & H1 & H).
    apply (IH _ _ (navStep_source _ _ _ _ Hs H1) H).
Qed.

Lemma parseDocument_source (secs : sections) :
  parseDocument toLowerCase selectorOf d = Ok secs -> sections_all Q secs.
Proof.
  intros H. unfold parseDocument in H.
  destruct (legacyHasContent d).
  - apply (legacySections_source _ _ H).
  - assert (Hempty : sections_all Q empty_sections)
      by (intros ty; destruct ty; constructor).
    unfold navigationSections in H. destruct (querySelector d SelNavGc).
    + apply bind_Ok_inv in H as (order & _ & H).
      apply (navLoop_source _ _ _ Hempty H).
    + injection H as <-. exact Hempty.
Qed.
End Navigation.
End OrdinalSources.

Lemma String_of_head (n : Z) :
  (0 <= n)%Z -> beginsWithDigit (String_of n) = true.
Proof.
  intros Hn. unfold String_of. destruct n as [|p|p]; [reflexivity| |lia].
  cbn [Z.to_int NilZero.string_of_int]. unfold NilZero.string_of_uint.
  destruct (Pos.to_uint p) eqn:E; reflexivity.
Qed.

Lemma beginsWithDigit_app (a b : str) :
  beginsWithDigit a = true -> beginsWithDigit (a ++ b) = true.
Proof. destruct a; [discriminate | intros H; exact H]. Qed.

Lemma dropWhile_all {B : Type} (f : B -> bool) (s : list B) :
  forallb f s = true -> dropWhile f s = [].
Proof.
  induction s as [|c s IH]; [reflexivity|]. cbn [forallb dropWhile].
  intros H. apply andb_true_iff in H as [-> H]. apply IH, H.
Qed.

Lemma dropWhile_app_all {B : Type} (f : B -> bool) (a b : list B) :
  forallb f a = true -> dropWhile f (a ++ b) = dropWhile f b.
Proof.
  induction a as [|c a IH]; [reflexivity|]. cbn [forallb dropWhile app].
  intros H. apply andb_true_iff in H as [-> H]. apply IH, H.
Qed.

Lemma ordinal_shape_decimal (ty : sectionType) (n : Z) :
  (0 <= n)%Z -> ordinal_shape ty (String_of n) = true.
Proof.
  intros Hn. pose proof (String_of_digits n Hn) as Hd.
  pose proof (String_of_head n Hn) as Hh.
  destruct ty; cbn [ordinal_shape]; rewrite ?Hh, ?Hd; try reflexivity.
  cbv zeta. rewrite (dropWhile_all _ _ Hd). reflexivity.
Qed.

Lemma ordinal_shape_introduction (i : Z) (suf : str) :
  (0 <= i)%Z -> In suf [[]; lit "b"; lit "c"] ->
  ordinal_shape TIntroduction (String_of i ++ suf) = true.
Proof.
  intros Hi Hsuf. cbn [ordinal_shape]. cbv zeta.
  rewrite (beginsWithDigit_app _ _ (String_of_head i Hi)).
  rewrite (dropWhile_app_all _ _ _ (String_of_digits i Hi)).
  cbn [In] in Hsuf. destruct Hsuf as [<-|[<-|[<-|[]]]]; reflexivity.
Qed.

Lemma ordinal_shape_plain (ty : sectionType) (n : str) :
  ordinal_shape ty n = true -> forallb ordinal_char n = true.
Proof.
  intros H.
  assert (Hd : forallb isDigit n = true \/
               exists g suffix, n = g ++ suffix /\ forallb isDigit g = true /\
                                (suffix = lit "b" \/ suffix = lit "c")).
  { destruct ty; cbn [ordinal_shape] in H;
      try (apply andb_true_iff in H as [_ H]; left; exact H);
      try (left; exact H).
    apply andb_true_iff in H as [_ H]. cbv zeta in H.
    destruct (dropWhile_split isDigit n) as (g & E & Hg).
    apply orb_true_iff in H as [H|H]; [apply orb_true_iff in H as [H|H]|].
    - apply str_eqb_eq in H. left. rewrite E, H, app_nil_r. exact Hg.
    - apply str_eqb_eq in H. right. exists g, (lit "b"). rewrite <- H. auto.
    - apply str_eqb_eq in H. right. exists g, (lit "c"). rewrite <- H. auto. }
  destruct Hd as [Hd|(g & suffix & -> & Hg & Hs)].
  - apply digits_ordinal, Hd.
  - rewrite forallb_app, (digits_ordinal _ Hg).
    destruct Hs as [->| ->]; reflexivity.
Qed.

(** X19.  The [n] of every item of every model [parseDocument] returns is
    a decimal number; in the introduction the number may be followed by
    one of the suffixes [b] and [c], and in the notes it may be missing.  So
    the attribute [n="..."] of the serialiser, which is written without
    escaping, never receives a quote, an ampersand or an angle bracket. *)
Theorem parseDocument_ordinals_plain :
  forall (toLowerCase : str -> str) (selectorOf : selectorEngine)
         (d : document) (secs : sections) (ty : sectionType) (it : item),
    parseDocument toLowerCase selectorOf d = Ok secs ->
    In it (get_section ty secs) ->
    ordinal_shape ty (ordinal_text (item_n it)) = true /\
    ~ In quotation (ordinal_text (item_n it)) /\
    ~ In ampersand (ordinal_text (item_n it)) /\
    ~ In less_than (ordinal_text (item_n it)) /\
    ~ In greater_than (ordinal_text (item_n it)).
Proof.
  intros lower css d secs ty it H Hin.
  assert (Hshape : ordinal_shape ty (ordinal_text (item_n it)) = true).
  { pose proof (parseDocument_source
                  (fun ty it => ordinal_shape ty (ordinal_text (item_n it)) = true))
      as Hsrc.
    cbv beta in Hsrc.
    specialize (Hsrc (fun ty i t Hi => ordinal_shape_decimal ty i Hi)).
    assert (Hq : forall it0, decimal_item it0 ->
                   ordinal_shape TQuestions (ordinal_text (item_n it0)) = true).
    { intros it0 (n & Hn & E). rewrite E. apply ordinal_shape_decimal, Hn. }
    specialize (Hsrc Hq
                  (fun i suf t Hi Hsuf => ordinal_shape_introduction i suf Hi Hsuf)
                  (fun g t Hg => Hg)).
    specialize (Hsrc lower css d secs H ty).
    rewrite Forall_forall in Hsrc. apply (Hsrc it Hin). }
  split; [exact Hshape|].
  pose proof (ordinal_shape_plain _ _ Hshape) as Hall.
  repeat split; apply (forallb_not_In ordinal_char _ _ Hall); reflexivity.
Qed.

Lemma parseDocument_ordinals_plain_witness :
  parseDocument toLowerASCII plainEngine
    (page [ para [ anchor (lit "par1"); Text (lit "Fish & chips") ];
            para [ anchor (lit "intro1b"); Text (lit "a < b") ] ])
  = Ok (mkSections []
          [ mkItem (StrOrd (lit "1b")) (lit "a < b") ] []
          [ mkItem (NumOrd 1) (lit "Fish & chipsa < b") ]
          [] [] [] [] [] []) /\
  ordinal_shape TIntroduction (lit "1b") = true /\
  ordinal_shape TText (lit "1b") = false /\
  ordinal_shape TIntroduction (lit "cb1b") = false /\
  ~ In quotation (lit "1b") /\ ~ In ampersand (lit "1b") /\
  ~ In less_than (lit "1b") /\ ~ In greater_than (lit "1b").
Proof.
  assert (E : parseDocument toLowerASCII plainEngine
    (page [ para [ anchor (lit "par1"); Text (lit "Fish & chips") ];
            para [ anchor (lit "intro1b"); Text (lit "a < b") ] ])
  = Ok (mkSections []
          [ mkItem (StrOrd (lit "1b")) (lit "a < b") ] []
          [ mkItem (NumOrd 1) (lit "Fish & chipsa < b") ]
          [] [] [] [] [] [])) by reflexivity.
  split; [exact E|].
  destruct (parseDocument_ordinals_plain toLowerASCII plainEngine _ _ TIntroduction
              (mkItem (StrOrd (lit "1b")) (lit "a < b")) E)
    as (Hshape & Hrest); [left; reflexivity|].
  split; [exact Hshape|]. split; [reflexivity|]. split; [reflexivity|].
  exact Hrest.
Defined.

(** ** The serialised body *)

Lemma ampersands_escaped_app (a b : str) :
  ampersands_escaped a = true -> ampersands_escaped b = true ->
  ampersands_escaped (a ++ b) = true.
Proof.
  intros Ha Hb. induction a as [|c a IH]; [exact Hb|].
  cbn [app ampersands_escaped] in *.
  apply andb_true_iff in Ha as [Hc Ha]. rewrite (IH Ha), andb_true_r.
  destruct (c =? ampersand); [|reflexivity]. cbn [negb orb] in *.
  destruct (entityAhead_inv a Hc) as (body & r & -> & _ & _ & _ & Hall & _).
  rewrite <- app_assoc. cbn [app]. apply Hall.
Qed.

Lemma escapeXML_then (text y : str) :
  ampersands_escaped y = true ->
  ampersands_escaped (escapeXML text ++ y) = true.
Proof.
  intros Hy. apply ampersands_escaped_app; [|exact Hy].
  unfold escapeXML. destruct (negb (truthy text)); [reflexivity|].
  apply escapeLoop_escaped; [apply escapeAmpersands_escaped | intros []].
Qed.

Lemma item_line_escaped (tag : str) (it : item) (y : str) :
  ~ In ampersand tag -> plain_ordinal it = true ->
  ampersands_escaped y = true ->
  ampersands_escaped (item_line tag it ++ y) = true.
Proof.
  intros Htag Hit Hy. unfold item_line. rewrite <- !app_assoc.
  rewrite (ampersands_escaped_skip (lit "        <")) by not_in_literal.
  rewrite (ampersands_escaped_skip tag) by exact Htag.
  rewrite (ampersands_escaped_skip (lit " n=")) by not_in_literal.
  rewrite (ampersands_escaped_skip [quotation]) by not_in_literal.
  rewrite (ampersands_escaped_skip (ordinal_text (item_n it)))
    by (apply (forallb_not_In ordinal_char _ _ Hit); reflexivity).
  rewrite (ampersands_escaped_skip [quotation]) by not_in_literal.
  rewrite (ampersands_escaped_skip (lit ">")) by not_in_literal.
  apply escapeXML_then.
  rewrite (ampersands_escaped_skip (lit "</")) by not_in_literal.
  rewrite (ampersands_escaped_skip tag) by exact Htag.
  rewrite (ampersands_escaped_skip (lit ">")) by not_in_literal.
  rewrite (ampersands_escaped_skip newline) by not_in_literal.
  exact Hy.
Qed.

Lemma section_block_escaped (type head tag : str) (items : list item) (y : str) :
  ~ In ampersand type -> ~ In ampersand head -> ~ In ampersand tag ->
  Forall (fun it => plain_ordinal it = true) items ->
  ampersands_escaped y = true ->
  ampersands_escaped (section_block type head tag items ++ y) = true.
Proof.
  intros Htype Hhead Htag Hitems Hy. unfold section_block.
  destruct (0 <? length items)%nat; [|exact Hy].
  rewrite <- !app_assoc.
  rewrite (ampersands_escaped_skip (lit "      <div type=")) by not_in_literal.
  rewrite (ampersands_escaped_skip [quotation]) by not_in_literal.
  rewrite (ampersands_escaped_skip type) by exact Htype.
  rewrite (ampersands_escaped_skip [quotation]) by not_in_literal.
  rewrite (ampersands_escaped_skip (lit ">")) by not_in_literal.
  rewrite (ampersands_escaped_skip newline) by not_in_literal.
  rewrite (ampersands_escaped_skip (lit "        <head>")) by not_in_literal.
  rewrite (ampersands_escaped_skip head) by exact Hhead.
  rewrite (ampersands_escaped_skip (lit "</head>")) by not_in_literal.
  rewrite (ampersands_escaped_skip newline) by not_in_literal.
  induction Hitems as [|it items Hit Hitems IH].
  - cbn [flat_map app].
    rewrite (ampersands_escaped_skip (lit "      </div>")) by not_in_literal.
    rewrite (ampersands_escaped_skip newline) by not_in_literal.
    rewrite (ampersands_escaped_skip newline) by not_in_literal.
    exact Hy.
  - rewrite flat_map_step, <- app_assoc.
    apply (item_line_escaped tag it _ Htag Hit IH).
Qed.

Lemma generateTEIBody_escaped (s : sections) :
  plain_ordinals s -> ampersands_escaped (generateTEIBody s) = true.
Proof.
  intros Hs. unfold generateTEIBody.
  rewrite (ampersands_escaped_skip (lit "  <text>")) by not_in_literal.
  rewrite (ampersands_escaped_skip newline) by not_in_literal.
  rewrite (ampersands_escaped_skip (lit "    <body>")) by not_in_literal.
  rewrite (ampersands_escaped_skip newline) by not_in_literal.
  apply section_block_escaped;
    [not_in_literal | not_in_literal | not_in_literal | apply (Hs TPreface)|].
  apply section_block_escaped;
    [not_in_literal | not_in_literal | not_in_literal | apply (Hs TIntroduction)|].
  apply section_block_escaped;
    [not_in_literal | not_in_literal | not_in_literal | apply (Hs TDescription)|].
  apply section_block_escaped;
    [not_in_literal | | not_in_literal | apply (Hs TText)|].
  { intros Hin. apply in_app_or in Hin as [Hin|Hin]; [revert Hin; not_in_literal|].
    apply in_app_or in Hin as [Hin|Hin]; revert Hin; not_in_literal. }
  apply section_block_escaped;
    [not_in_literal | not_in_literal | not_in_literal | apply (Hs TQuestions)|].
  apply section_block_escaped;
    [not_in_literal | not_in_literal | not_in_literal | apply (Hs TNotes)|].
  reflexivity.
Qed.

(** X20.  Whatever the document, the body that [generateTEIBody] writes for
    the model [parseDocument] returns has no bare ampersand: every
    ampersand of the output starts an entity or character reference. *)
Theorem serialised_body_escapes_ampersands :
  forall (toLowerCase : str -> str) (selectorOf : selectorEngine)
         (d : document) (secs : sections),
    parseDocument toLowerCase selectorOf d = Ok secs ->
    ampersands_escaped (generateTEIBody secs) = true.
Proof.
  intros lower css d secs H.
  apply generateTEIBody_escaped.
  apply (parseDocument_ordinals lower css d secs H).
Qed.

Lemma serialised_body_escapes_ampersands_witness :
  parseDocument toLowerASCII plainEngine
    (page [ para [ anchor (lit "par1"); Text (lit "Fish & chips") ] ])
  = Ok (mkSections [] [] [] [ mkItem (NumOrd 1) (lit "Fish & chips") ]
          [] [] [] [] [] []) /\
  ampersands_escaped
    (generateTEIBody
       (mkSections [] [] [] [ mkItem (NumOrd 1) (lit "Fish & chips") ]
          [] [] [] [] [] [])) = true.
Proof.
  assert (E : parseDocument toLowerASCII plainEngine
    (page [ para [ anchor (lit "par1"); Text (lit "Fish & chips") ] ])
  = Ok (mkSections [] [] [] [ mkItem (NumOrd 1) (lit "Fish & chips") ]
          [] [] [] [] [] [])) by reflexivity.
  split; [exact E|].
  apply (serialised_body_escapes_ampersands toLowerASCII plainEngine _ _ E).
Defined.


(** ** [escapeXML] applied twice *)

Lemma escapeAmpersands_fixed (s : str) :
  ampersands_escaped s = true -> escapeAmpersands s = s.
Proof.
  induction s as [|c t IH]; [reflexivity|].
  cbn [ampersands_escaped escapeAmpersands]. intros H.
  apply andb_true_iff in H as [Hc Ht]. rewrite (IH Ht).
  destruct (c =? ampersand); [|reflexivity].
  cbn [negb orb] in Hc. rewrite Hc. reflexivity.
Qed.

Lemma escapeLoop_skip (pre : str) :
  forall pending y,
    escapeLoop (length pre) pending (pre ++ y) = escapeLoop 0 pending y.
Proof.
  induction pre as [|c pre IH]; intros pending y; [reflexivity|].
  cbn [length app escapeLoop]. apply IH.
Qed.

Lemma loop_fixed_nil : loop_fixed [].
Proof. intros p. cbn [escapeLoop]. rewrite app_nil_r. reflexivity. Qed.

Lemma loop_fixed_char (c : char) (y : str) :
  c <> less_than -> c <> greater_than -> c <> ampersand ->
  loop_fixed y -> loop_fixed (c :: y).
Proof.
  intros Hl Hg Ha Hy p. cbn [escapeLoop].
  rewrite (teiTags_at_other c y Hl Ha), Hy. cbn [rev].
  rewrite !escapeAngles_flat, flat_map_app, <- app_assoc. f_equal.
  rewrite flat_map_step. unfold escapeAngle.
  apply N.eqb_neq in Hl, Hg. rewrite Hl, Hg. reflexivity.
Qed.

Lemma loop_fixed_match (c : char) (mt y : str) :
  teiTags_at (c :: mt ++ y) = Some y ->
  loop_fixed y -> loop_fixed (c :: mt ++ y).
Proof.
  intros Hm Hy p. cbn [escapeLoop]. rewrite Hm. cbv zeta.
  change (c :: mt ++ y) with ((c :: mt) ++ y).
  rewrite firstn_matched, length_app.
  replace (length (c :: mt) + length y - length y)%nat
    with (S (length mt)) by (cbn [length]; lia).
  cbn [Nat.pred]. rewrite escapeLoop_skip, Hy. cbn [rev app].
  reflexivity.
Qed.

Lemma loop_fixed_escaped (q : str) (y : str) :
  ~ In ampersand q -> loop_fixed y -> loop_fixed (escapeAngles q ++ y).
Proof.
  intros Hq Hy. rewrite escapeAngles_flat.
  induction q as [|c q IH]; [exact Hy|].
  rewrite flat_map_step, <- app_assoc.
  assert (IH' : loop_fixed (flat_map escapeAngle q ++ y))
    by (apply IH; intros Hin; apply Hq; right; exact Hin).
  unfold escapeAngle at 1.
  destruct (c =? less_than) eqn:El; [|destruct (c =? greater_than) eqn:Eg].
  - apply (loop_fixed_match ampersand (lit "lt;")); [reflexivity | exact IH'].
  - apply (loop_fixed_match ampersand (lit "gt;")); [reflexivity | exact IH'].
  - apply N.eqb_neq in El, Eg.
    apply loop_fixed_char; [exact El | exact Eg | | exact IH'].
    intros ->. apply Hq. left. reflexivity.
Qed.

Lemma m_not_gt_star_run (run y : str) :
  ~ In greater_than run ->
  m_not_gt_star (run ++ greater_than :: y) (fun s' => m_gt s' Some) = Some y.
Proof.
  induction run as [|x run IH]; intros H; cbn [app m_not_gt_star].
  - reflexivity.
  - destruct (x =? greater_than) eqn:E.
    + apply N.eqb_eq in E. exfalso. apply H. left. exact E.
    + cbn [negb]. rewrite IH; [reflexivity|].
      intros Hin. apply H. right. exact Hin.
Qed.

Lemma m_tagTail_stable (b rest : str) :
  m_tagTail b Some = Some rest ->
  exists inner,
    b = inner ++ greater_than :: rest /\
    forall y, m_tagTail (inner ++ greater_than :: y) Some = Some y.
Proof.
  unfold m_tagTail. intros H.
  assert (Hdirect : m_gt b Some = Some rest ->
            exists inner,
              b = inner ++ greater_than :: rest /\
              forall y, m_tagTail (inner ++ greater_than :: y) Some = Some y).
  { intros Hg. apply m_gt_inv in Hg as (t & -> & E). injection E as <-.
    exists []. split; [reflexivity | intros y; reflexivity]. }
  destruct b as [|c t]; [apply Hdirect; exact H|].
  destruct (isWhiteSpace c) eqn:Ews; [|apply Hdirect; exact H].
  destruct (m_not_gt_star t (fun s' => m_gt s' Some)) as [y|] eqn:Et;
    [|apply Hdirect; exact H].
  injection H as ->.
  apply m_not_gt_star_inv in Et as (run & s' & -> & Hrun & Hg).
  apply m_gt_inv in Hg as (t' & -> & E). injection E as <-.
  exists (c :: run). split; [reflexivity|].
  intros y. unfold m_tagTail. cbn [app]. rewrite Ews.
  rewrite (m_not_gt_star_run run y Hrun). reflexivity.
Qed.

Lemma teiTags_at_tag_stable (t rest : str) :
  teiTags_at (less_than :: t) = Some rest ->
  exists mt,
    t = mt ++ rest /\
    forall y, teiTags_at (less_than :: mt ++ y) = Some y.
Proof.
  intros H.
  assert (Hgoal : forall w inner,
            In w [lit "hi"; lit "ref"; lit "/hi"; lit "/ref"] ->
            (forall y, m_tagTail (inner ++ greater_than :: y) Some = Some y) ->
            forall y,
              teiTags_at (less_than :: (w ++ inner ++ [greater_than]) ++ y)
              = Some y).
  { intros w inner Hw Hst y. rewrite <- !app_assoc. cbn [app].
    unfold teiTags_at, re_tagHead, re_entity, cat, plus.
    cbn [fold_right m class_mem].
    change (less_than =? less_than) with true. cbv iota.
    rewrite !m_word_eq by (intros; reflexivity).
    cbn [In] in Hw.
    destruct Hw as [<-|[<-|[<-|[<-|[]]]]];
      cbn [lit list_ascii_of_string map N_of_ascii app startsWith length skipn
           N.eqb Pos.eqb andb N.add N.mul Pos.add Pos.mul Pos.succ];
      rewrite Hst; reflexivity. }
  revert H.
  unfold teiTags_at at 1. unfold re_tagHead, re_entity, cat, plus.
  cbn [fold_right m class_mem].
  change (less_than =? less_than) with true.
  change (ampersand =? less_than) with false. cbv iota.
  rewrite !m_word_eq by (intros; reflexivity).
  intros H.
  repeat match type of H with
         | context [startsWith ?w t] =>
             let E := fresh "E" in
             let Et := fresh "Et" in
             destruct (startsWith w t) eqn:E;
             [ apply startsWith_app in E as [b ->];
               rewrite skipn_length_app in H;
               destruct (m_tagTail b Some) as [y|] eqn:Et;
               [ injection H as ->;
                 apply m_tagTail_stable in Et as (inner & -> & Hst);
                 exists (w ++ inner ++ [greater_than]);
                 split; [rewrite <- !app_assoc; reflexivity|];
                 apply Hgoal; [cbn [In]; auto 6 | exact Hst]
               | cbn in H; discriminate H ]
             | ]
         end.
  discriminate H.
Qed.

Lemma escapeLoop_fixed (s : str) :
  forall skip pending,
    ampersands_escaped s = true -> ~ In ampersand pending ->
    loop_fixed (escapeLoop skip pending s).
Proof.
  induction s as [|c t IH]; intros skip pending Hs Hp; cbn [escapeLoop].
  - rewrite <- (app_nil_r (escapeAngles (rev pending))).
    apply loop_fixed_escaped; [|exact loop_fixed_nil].
    intros Hin. apply Hp. apply in_rev. exact Hin.
  - cbn [ampersands_escaped] in Hs. apply andb_true_iff in Hs as [Hc Ht].
    destruct skip as [|k]; [|apply IH; assumption].
    destruct (teiTags_at (c :: t)) as [rest|] eqn:Etei.
    + cbv zeta. apply loop_fixed_escaped;
        [intros Hin; apply Hp; apply in_rev; exact Hin|].
      set (x := escapeLoop _ [] t).
      assert (Hx : loop_fixed x) by (apply IH; [exact Ht | intros []]).
      destruct (N.eq_dec c ampersand) as [Ea|Ea].
      * subst c. change (ampersand =? ampersand) with true in Hc.
        cbn [negb orb] in Hc.
        destruct (entityAhead_inv t Hc)
          as (body & r & -> & _ & _ & _ & _ & Htei).
        rewrite Htei in Etei. injection Etei as <-.
        replace (ampersand :: body ++ semicolon :: r)
          with ((ampersand :: body ++ [semicolon]) ++ r)
          by (cbn [app]; rewrite <- app_assoc; reflexivity).
        rewrite firstn_matched. cbn [app].
        apply loop_fixed_match; [|exact Hx].
        rewrite <- app_assoc. apply Htei.
      * destruct (N.eq_dec c less_than) as [El|El].
        -- subst c.
           destruct (teiTags_at_tag_stable t rest Etei) as (mt & -> & Hst).
           change (less_than :: mt ++ rest) with ((less_than :: mt) ++ rest).
           rewrite firstn_matched. cbn [app].
           apply loop_fixed_match; [apply Hst | exact Hx].
        -- rewrite (teiTags_at_other c t El Ea) in Etei. discriminate Etei.
    + apply IH; [exact Ht|].
      intros [E|Hin]; [|exact (Hp Hin)].
      subst c. change (ampersand =? ampersand) with true in Hc.
      cbn [negb orb] in Hc.
      destruct (entityAhead_inv t Hc) as (body & r & -> & _ & _ & _ & _ & Htei).
      rewrite Htei in Etei. discriminate Etei.
Qed.

(** X21.  [escapeXML] is idempotent: escaping an escaped text changes
    nothing, so a text can pass through it more than once. *)
Theorem escapeXML_idempotent :
  forall text : str, escapeXML (escapeXML text) = escapeXML text.
Proof.
  intros text. destruct text as [|c t]; [reflexivity|].
  change (escapeXML (c :: t))
    with (escapeLoop 0 [] (escapeAmpersands (c :: t))).
  set (out := escapeLoop 0 [] (escapeAmpersands (c :: t))).
  assert (Hamp : ampersands_escaped out = true)
    by (apply escapeLoop_escaped; [apply escapeAmpersands_escaped | intros []]).
  assert (Hfix : loop_fixed out)
    by (apply escapeLoop_fixed; [apply escapeAmpersands_escaped | intros []]).
  unfold escapeXML. destruct (negb (truthy out)) eqn:Eo.
  - destruct out; [reflexivity | discriminate Eo].
  - rewrite (escapeAmpersands_fixed out Hamp). apply (Hfix []).
Qed.

(** * The label pattern and the entity table, read exactly *)

(** ** What the pattern of [stripLeadingNumber] removes *)

Section MatcherReading.
Context {A : Type}.

(** A greedy star whose continuation fails on a shorter repetition
    whenever it fails on the longest one. *)
Lemma m_rep_star_eq (cl : cclass) (k : @kont A) :
  (forall p p' s c, k p s c = k p' s c) ->
  (forall p c t cap,
      class_mem false cl c = true ->
      k None (dropWhile (class_mem false cl) t) cap = None ->
      k p (c :: t) cap = None) ->
  forall s prev cap,
    m_rep false cl 0 None prev s cap k =
    k None (dropWhile (class_mem false cl) s) cap.
Proof.
  intros Hk Hfail. induction s as [|c t IH]; intros prev cap.
  - cbn [m_rep dropWhile]. apply Hk.
  - cbn [m_rep dropWhile may_take option_map Nat.pred]. rewrite andb_true_r.
    destruct (class_mem false cl c) eqn:Ec; [|apply Hk].
    rewrite IH.
    destruct (k None (dropWhile (class_mem false cl) t) cap) as [x|] eqn:E;
      [reflexivity|].
    apply (Hfail _ _ _ _ Ec E).
Qed.

(** A bounded greedy repetition before a continuation that fails on the
    class: the whole run is taken, and it must fit the bounds. *)
Lemma m_rep_bounded_eq (cl : cclass) (k : @kont A) :
  (forall p p' s c, k p s c = k p' s c) ->
  (forall p c t cap, class_mem false cl c = true -> k p (c :: t) cap = None) ->
  forall s lo hi prev cap,
    m_rep false cl lo (Some hi) prev s cap k =
    if ((lo <=? length s - length (dropWhile (class_mem false cl) s)) &&
        (length s - length (dropWhile (class_mem false cl) s) <=? hi))%nat
    then k None (dropWhile (class_mem false cl) s) cap
    else None.
Proof.
  intros Hk Hfail. induction s as [|c t IH]; intros lo hi prev cap.
  - cbn [m_rep dropWhile length Nat.sub].
    destruct lo; cbn [Nat.leb andb]; [apply Hk | reflexivity].
  - cbn [m_rep dropWhile].
    pose proof (dropWhile_length (class_mem false cl) t) as Hle.
    destruct (class_mem false cl c) eqn:Ec.
    + replace (length (c :: t) - length (dropWhile (class_mem false cl) t))%nat
        with (S (length t - length (dropWhile (class_mem false cl) t)))
        by (cbn [length]; lia).
      destruct hi as [|hi]; cbn [may_take andb option_map Nat.pred].
      * rewrite andb_false_r.
        destruct lo; [apply (Hfail _ _ _ _ Ec) | reflexivity].
      * rewrite IH.
        destruct lo as [|lo]; cbn [Nat.pred Nat.leb].
        -- destruct (length t - length (dropWhile (class_mem false cl) t) <=? hi)%nat;
             cbn [andb].
           ++ destruct (k None (dropWhile (class_mem false cl) t) cap);
                [reflexivity | apply (Hfail _ _ _ _ Ec)].
           ++ apply (Hfail _ _ _ _ Ec).
        -- destruct ((lo <=? length t - length (dropWhile (class_mem false cl) t)) &&
                     (length t - length (dropWhile (class_mem false cl) t) <=? hi))%nat;
             [|reflexivity].
           destruct (k None (dropWhile (class_mem false cl) t) cap); reflexivity.
    + cbn [andb]. rewrite Nat.sub_diag.
      destruct lo; cbn [Nat.leb andb]; [apply Hk | reflexivity].
Qed.
End MatcherReading.

(** A greedy repetition at the end of a pattern. *)
Lemma m_rep_last (cl : cclass) :
  forall s lo prev cap,
    m_rep false cl lo None prev s cap (fun _ s' c' => Some (s', c')) =
    if (lo <=? length s - length (dropWhile (class_mem false cl) s))%nat
    then Some (dropWhile (class_mem false cl) s, cap)
    else None.
Proof.
  induction s as [|c t IH]; intros lo prev cap.
  - cbn [m_rep dropWhile length Nat.sub]. destruct lo; reflexivity.
  - cbn [m_rep dropWhile may_take option_map]. rewrite andb_true_r.
    pose proof (dropWhile_length (class_mem false cl) t) as Hle.
    destruct (class_mem false cl c) eqn:Ec.
    + rewrite IH.
      replace (length (c :: t) - length (dropWhile (class_mem false cl) t))%nat
        with (S (length t - length (dropWhile (class_mem false cl) t)))
        by (cbn [length]; lia).
      destruct lo as [|lo]; cbn [Nat.pred Nat.leb]; [reflexivity|].
      destruct (lo <=? length t - length (dropWhile (class_mem false cl) t))%nat;
        reflexivity.
    + rewrite Nat.sub_diag. destruct lo; reflexivity.
Qed.

(** The end of the pattern: white space or the end of the text. *)
Lemma m_labelEnd (prev : option char) (s : str) (cap : option str) :
  m false (Seq (Alt (plus CSpace) Eol) Eps) prev s cap
    (fun _ s' c' => Some (s', c')) =
  option_map (fun rest => (rest, cap)) (labelEnd s).
Proof.
  cbn [m]. unfold plus. cbn [m]. rewrite m_rep_last. unfold labelEnd.
  change (class_mem false CSpace) with isWhiteSpace.
  destruct s as [|c t]; [reflexivity|].
  cbn [dropWhile]. destruct (isWhiteSpace c) eqn:Ec.
  - pose proof (dropWhile_length isWhiteSpace t) as Hle.
    replace (1 <=? length (c :: t) - length (dropWhile isWhiteSpace t))%nat
      with true; [reflexivity|].
    symmetry. apply Nat.leb_le. cbn [length]. lia.
  - rewrite Nat.sub_diag. reflexivity.
Qed.

Lemma isClosing_mem (c : char) :
  class_mem false (COneOf (lit ".:)]")) c = isClosing c.
Proof.
  unfold isClosing. cbn -[N.eqb].
  rewrite (N.eqb_sym 46 c), (N.eqb_sym 58 c), (N.eqb_sym 41 c), (N.eqb_sym 93 c).
  rewrite orb_false_r, !orb_assoc. reflexivity.
Qed.

Lemma isOpening_mem (c : char) :
  class_mem false (COneOf (lit "([")) c = isOpening c.
Proof.
  unfold isOpening. cbn -[N.eqb].
  rewrite (N.eqb_sym 40 c), (N.eqb_sym 91 c).
  rewrite orb_false_r. reflexivity.
Qed.

Lemma white_not_closing (c : char) : isWhiteSpace c = true -> isClosing c = false.
Proof.
  unfold isWhiteSpace, isClosing. intros H.
  destruct (c =? 46) eqn:E1; [apply N.eqb_eq in E1; subst c; discriminate H|].
  destruct (c =? 58) eqn:E2; [apply N.eqb_eq in E2; subst c; discriminate H|].
  destruct (c =? 41) eqn:E3; [apply N.eqb_eq in E3; subst c; discriminate H|].
  destruct (c =? 93) eqn:E4; [apply N.eqb_eq in E4; subst c; discriminate H|].
  reflexivity.
Qed.

Lemma white_not_opening (c : char) : isWhiteSpace c = true -> isOpening c = false.
Proof.
  unfold isWhiteSpace, isOpening. intros H.
  destruct (c =? 40) eqn:E1; [apply N.eqb_eq in E1; subst c; discriminate H|].
  destruct (c =? 91) eqn:E2; [apply N.eqb_eq in E2; subst c; discriminate H|].
  reflexivity.
Qed.

Lemma white_not_digit (c : char) : isWhiteSpace c = true -> isDigit c = false.
Proof.
  unfold isWhiteSpace, isDigit. intros H.
  destruct ((48 <=? c) && (c <=? 57)) eqn:E; [|reflexivity].
  apply andb_true_iff in E as [E1 E2].
  apply N.leb_le in E1, E2.
  repeat (apply orb_true_iff in H as [H|H]);
    repeat match goal with
           | H : _ && _ = true |- _ => apply andb_true_iff in H as [? ?]
           | H : (_ <=? _) = true |- _ => apply N.leb_le in H
           | H : (_ =? _) = true |- _ => apply N.eqb_eq in H
           end; lia.
Qed.

Lemma digit_not_closing (c : char) : isDigit c = true -> isClosing c = false.
Proof.
  unfold isDigit, isClosing. intros H.
  apply andb_true_iff in H as [H1 H2]. apply N.leb_le in H1, H2.
  repeat (apply orb_false_iff; split); apply N.eqb_neq; lia.
Qed.

Lemma opening_not_digit (c : char) : isOpening c = true -> isDigit c = false.
Proof.
  unfold isDigit, isOpening. intros H.
  apply orb_true_iff in H as [H|H]; apply N.eqb_eq in H; subst c; reflexivity.
Qed.

Lemma dropWhile_head {B : Type} (f : B -> bool) (s : list B) (c : B) (t : list B) :
  dropWhile f s = c :: t -> f c = false.
Proof.
  induction s as [|x s IH]; cbn [dropWhile]; [discriminate|].
  destruct (f x) eqn:E; [exact IH|].
  intros H. injection H as -> _. exact E.
Qed.

Lemma dropWhile_idem {B : Type} (f : B -> bool) (s : list B) :
  dropWhile f (dropWhile f s) = dropWhile f s.
Proof.
  destruct (dropWhile f s) as [|c t] eqn:E; [reflexivity|].
  cbn [dropWhile]. rewrite (dropWhile_head f s c t E). reflexivity.
Qed.

Lemma m_labelTail (prev : option char) (s : str) (cap : option str) :
  m false re_labelTail prev s cap (fun _ s' c' => Some (s', c')) =
  match
    match dropWhile isWhiteSpace s with
    | c :: t => if isClosing c then labelEnd t else None
    | [] => None
    end
  with
  | Some rest => Some (rest, cap)
  | None => option_map (fun rest => (rest, cap)) (labelEnd s)
  end.
Proof.
  unfold re_labelTail.
  change (cat [ Opt (cat [star CSpace; Cls (COneOf (lit ".:)]"))]);
                Alt (plus CSpace) Eol ])
    with (Seq (Opt (Seq (star CSpace) (Seq (Cls (COneOf (lit ".:)]"))) Eps)))
              (Seq (Alt (plus CSpace) Eol) Eps)).
  cbn [m]. unfold star, plus. cbn [m].
  rewrite (m_rep_greedy_eq CSpace).
  - cbn [Nat.leb]. change (class_mem false CSpace) with isWhiteSpace.
    destruct (dropWhile isWhiteSpace s) as [|c t] eqn:E.
    + pose proof (m_labelEnd prev s cap) as Hend. cbn [m] in Hend.
      unfold plus in Hend. cbn [m] in Hend. exact Hend.
    + rewrite isClosing_mem. destruct (isClosing c).
      * pose proof (m_labelEnd (Some c) t cap) as Hend. cbn [m] in Hend.
        unfold plus in Hend. cbn [m] in Hend. rewrite Hend.
        destruct (labelEnd t) as [rest|]; cbn [option_map]; [reflexivity|].
        pose proof (m_labelEnd prev s cap) as Hend'. cbn [m] in Hend'.
        unfold plus in Hend'. cbn [m] in Hend'. exact Hend'.
      * pose proof (m_labelEnd prev s cap) as Hend. cbn [m] in Hend.
        unfold plus in Hend. cbn [m] in Hend. exact Hend.
  - intros p p' s0 c0. destruct s0 as [|x t]; [reflexivity|].
    destruct (class_mem false (COneOf (lit ".:)]")) x); [|reflexivity].
    rewrite !m_rep_last. reflexivity.
  - intros p c t cap0 Hc. change (class_mem false CSpace c) with (isWhiteSpace c) in Hc.
    rewrite isClosing_mem, (white_not_closing c Hc). reflexivity.
Qed.

Lemma m_afterNumber (prev : option char) (s : str) (cap : option str) :
  m_rep false CDigit 1 (Some 3%nat) prev s cap
    (fun p' s' c' => m false re_labelTail p' s' c' (fun _ s'' c'' => Some (s'', c''))) =
  option_map (fun rest => (rest, cap)) (afterNumber s).
Proof.
  rewrite m_rep_bounded_eq.
  - change (class_mem false CDigit) with isDigit. unfold afterNumber. cbv zeta.
    destruct ((1 <=? length s - length (dropWhile isDigit s))%nat &&
              (length s - length (dropWhile isDigit s) <=? 3)%nat);
      [|reflexivity].
    rewrite m_labelTail.
    destruct (dropWhile isWhiteSpace (dropWhile isDigit s)) as [|c t];
      [reflexivity|].
    destruct (isClosing c); [|reflexivity].
    destruct (labelEnd t); reflexivity.
  - intros p p' s0 c0. rewrite !m_labelTail. reflexivity.
  - intros p c t cap0 Hc. change (class_mem false CDigit c) with (isDigit c) in Hc.
    rewrite m_labelTail.
    assert (Hw : isWhiteSpace c = false).
    { destruct (isWhiteSpace c) eqn:E; [|reflexivity].
      rewrite (white_not_digit c E) in Hc. discriminate Hc. }
    cbn [dropWhile labelEnd]. rewrite Hw, (digit_not_closing c Hc). reflexivity.
Qed.

Lemma afterNumber_head (c : char) (t : str) :
  isDigit c = false -> afterNumber (c :: t) = None.
Proof.
  intros H. unfold afterNumber. cbn [dropWhile]. rewrite H, Nat.sub_diag.
  reflexivity.
Qed.

Lemma m_whiteNumber (prev : option char) (s : str) (cap : option str) :
  m_rep false CSpace 0 None prev s cap
    (fun p' s' c' =>
       m_rep false CDigit 1 (Some 3%nat) p' s' c'
         (fun p' s' c' =>
            m false re_labelTail p' s' c' (fun _ s'' c'' => Some (s'', c'')))) =
  option_map (fun rest => (rest, cap)) (afterNumber (dropWhile isWhiteSpace s)).
Proof.
  rewrite m_rep_greedy_eq.
  - cbn [Nat.leb]. apply m_afterNumber.
  - intros p p' s0 c0. rewrite !m_afterNumber. reflexivity.
  - intros p c t cap0 Hc. rewrite m_afterNumber.
    change (class_mem false CSpace c) with (isWhiteSpace c) in Hc.
    rewrite (afterNumber_head c t (white_not_digit c Hc)). reflexivity.
Qed.

Lemma m_labelOpening (prev : option char) (s : str) (cap : option str) :
  m false re_labelOpening prev s cap (fun _ s' c' => Some (s', c')) =
  match
    match s with
    | c :: t =>
        if isOpening c
        then option_map (fun rest => (rest, cap))
               (afterNumber (dropWhile isWhiteSpace t))
        else None
    | [] => None
    end
  with
  | Some x => Some x
  | None => option_map (fun rest => (rest, cap))
              (afterNumber (dropWhile isWhiteSpace s))
  end.
Proof.
  unfold re_labelOpening.
  change (cat [ Opt (Cls (COneOf (lit "([")));
                star CSpace; Rep CDigit 1 (Some 3%nat);
                Opt (cat [star CSpace; Cls (COneOf (lit ".:)]"))]);
                Alt (plus CSpace) Eol ])
    with (Seq (Opt (Cls (COneOf (lit "(["))))
            (Seq (star CSpace)
               (Seq (Rep CDigit 1 (Some 3%nat)) re_labelTail))).
  unfold star. cbn [m]. rewrite m_whiteNumber.
  destruct s as [|c t]; [reflexivity|].
  rewrite isOpening_mem. destruct (isOpening c); [|reflexivity].
  rewrite m_whiteNumber. reflexivity.
Qed.

Lemma m_labelBody (prev : option char) (s : str) :
  m false re_labelBody prev s None (fun _ s' c' => Some (s', c')) =
  option_map (fun rest => (rest, None)) (afterLabel s).
Proof.
  change (m false re_labelBody prev s None (fun _ s' c' => Some (s', c')))
    with (m_rep false CSpace 0 None prev s None
            (fun p' s' c' =>
               m false re_labelOpening p' s' c' (fun _ s'' c'' => Some (s'', c'')))).
  rewrite m_rep_star_eq.
  - rewrite m_labelOpening. unfold afterLabel, afterOpening.
    change (class_mem false CSpace) with isWhiteSpace.
    destruct (dropWhile isWhiteSpace s) as [|c t] eqn:E; [reflexivity|].
    pose proof (dropWhile_head _ _ _ _ E) as Hc.
    destruct (isOpening c) eqn:Eo.
    + destruct (afterNumber (dropWhile isWhiteSpace t)) as [rest|];
        cbn [option_map]; [reflexivity|].
      cbn [dropWhile]. rewrite Hc.
      rewrite (afterNumber_head c t (opening_not_digit c Eo)). reflexivity.
    + cbn [dropWhile]. rewrite Hc. reflexivity.
  - intros p p' u cap. rewrite !m_labelOpening. reflexivity.
  - intros p c t cap Hc Hnone. rewrite m_labelOpening.
    rewrite m_labelOpening in Hnone.
    change (class_mem false CSpace) with isWhiteSpace in *.
    change (class_mem false CSpace c) with (isWhiteSpace c) in Hc.
    rewrite (white_not_opening c Hc). cbn [dropWhile]. rewrite Hc.
    rewrite dropWhile_idem in Hnone.
    destruct (dropWhile isWhiteSpace t) as [|x u] eqn:E.
    + exact Hnone.
    + destruct (isOpening x); [|exact Hnone].
      destruct (afterNumber (dropWhile isWhiteSpace u)); [discriminate Hnone|].
      exact Hnone.
Qed.

(** The match of the pattern of [stripLeadingNumber] is the label that
    [afterLabel] reads. *)
Lemma exec_leadingNumber (s : str) :
  exec false re_leadingNumber s =
  option_map (fun rest => mkMatch [] rest None) (afterLabel s).
Proof.
  unfold exec.
  change re_leadingNumber with (Seq Bol re_labelBody).
  assert (Hm : m false (Seq Bol re_labelBody) None s None
                 (fun _ s' c' => Some (s', c')) =
               option_map (fun rest => (rest, None)) (afterLabel s)).
  { cbn [m]. apply (m_labelBody None s). }
  destruct s as [|c t]; cbn [exec_from]; rewrite Hm.
  - destruct (afterLabel []); reflexivity.
  - destruct (afterLabel (c :: t)); cbn [option_map]; [reflexivity|].
    apply exec_from_anchored.
Qed.

Lemma stripLeadingNumber_afterLabel (s : str) :
  stripLeadingNumber s =
  match afterLabel s with Some rest => rest | None => s end.
Proof.
  unfold stripLeadingNumber, replace_first_empty. rewrite exec_leadingNumber.
  destruct s as [|c t]; [reflexivity|]. cbn [truthy negb].
  destruct (afterLabel (c :: t)); reflexivity.
Qed.

Lemma labelEnd_length (s rest : str) :
  labelEnd s = Some rest -> (length rest <= length s)%nat.
Proof.
  unfold labelEnd. destruct s as [|c t]; [intros H; injection H as <-; lia|].
  destruct (isWhiteSpace c) eqn:E; [|discriminate].
  intros H. injection H as <-. apply (dropWhile_length isWhiteSpace (c :: t)).
Qed.

Lemma afterNumber_shorter (s rest : str) :
  afterNumber s = Some rest -> (length rest < length s)%nat.
Proof.
  unfold afterNumber. cbv zeta.
  destruct ((1 <=? length s - length (dropWhile isDigit s))%nat &&
            (length s - length (dropWhile isDigit s) <=? 3)%nat) eqn:E;
    [|discriminate].
  apply andb_true_iff in E as [E _]. apply Nat.leb_le in E.
  pose proof (dropWhile_length isWhiteSpace (dropWhile isDigit s)) as Hw.
  destruct (dropWhile isWhiteSpace (dropWhile isDigit s)) as [|c t] eqn:Ed.
  - intros H. apply labelEnd_length in H. lia.
  - destruct (isClosing c).
    + destruct (labelEnd t) as [r|] eqn:El.
      * intros H. injection H as <-. apply labelEnd_length in El.
        cbn [length] in Hw. lia.
      * intros H. apply labelEnd_length in H. lia.
    + intros H. apply labelEnd_length in H. lia.
Qed.

Lemma afterOpening_length (s : str) : (length (afterOpening s) <= length s)%nat.
Proof.
  unfold afterOpening.
  pose proof (dropWhile_length isWhiteSpace s) as H.
  destruct (dropWhile isWhiteSpace s) as [|c t]; [cbn [length]; lia|].
  destruct (isOpening c); [|exact H].
  pose proof (dropWhile_length isWhiteSpace t). cbn [length] in H. lia.
Qed.

Lemma afterLabel_shorter (s rest : str) :
  afterLabel s = Some rest -> (length rest < length s)%nat.
Proof.
  unfold afterLabel. intros H. apply afterNumber_shorter in H.
  pose proof (afterOpening_length s). lia.
Qed.

Lemma afterLabel_beginsWithNumber (s : str) :
  beginsWithNumber s = false -> afterLabel s = None.
Proof.
  unfold beginsWithNumber, afterLabel.
  destruct (afterOpening s) as [|c t]; [reflexivity|].
  apply afterNumber_head.
Qed.

Lemma stripLeadingNumber_fixed (s : str) :
  stripLeadingNumber s = s <-> afterLabel s = None.
Proof.
  rewrite stripLeadingNumber_afterLabel.
  destruct (afterLabel s) as [rest|] eqn:E.
  - split; [|discriminate]. intros ->. apply afterLabel_shorter in E. lia.
  - split; reflexivity.
Qed.

Example afterLabel_examples :
  map afterLabel
    [ lit "1. In the name"; lit " (12) foo"; lit "[3]"; lit "1 .x"; lit "1 . x";
      lit "1.x"; lit "(12)x"; lit "1234 foo"; lit "foo 1." ]
  = [ Some (lit "In the name"); Some (lit "foo"); Some []; Some (lit ".x");
      Some (lit "x"); None; None; None; None ].
Proof. reflexivity. Qed.

Example beginsWithNumber_examples :
  map beginsWithNumber
    [ lit "1.x"; lit "(12)x"; lit " [ 7"; lit "1234 foo"; lit "foo 1.";
      lit "((1) x"; lit ".5" ]
  = [ true; true; true; true; false; false; false ].
Proof. reflexivity. Qed.

(** C4 (amended).  [stripLeadingNumber] removes the leading numeric label
    that [afterLabel] reads, with the white space that follows it, and
    nothing else.  A text is left unchanged exactly when it has no such
    label; a text that carries no leading number at all is among them.
    Stripping twice is the same as stripping once exactly when what the
    first stripping leaves has no such label, which is the case when it
    carries no leading number. *)
Theorem stripLeadingNumber_once_per_label :
  forall s : str,
    stripLeadingNumber s =
      match afterLabel s with Some rest => rest | None => s end /\
    (beginsWithNumber s = false -> stripLeadingNumber s = s) /\
    (stripLeadingNumber s = s <-> afterLabel s = None) /\
    (beginsWithNumber (stripLeadingNumber s) = false ->
     stripLeadingNumber (stripLeadingNumber s) = stripLeadingNumber s) /\
    (stripLeadingNumber (stripLeadingNumber s) = stripLeadingNumber s <->
     afterLabel (stripLeadingNumber s) = None).
Proof.
  intros s. split; [apply stripLeadingNumber_afterLabel|].
  split; [|split; [apply stripLeadingNumber_fixed|split]].
  - intros H. apply stripLeadingNumber_fixed, afterLabel_beginsWithNumber, H.
  - intros H. apply stripLeadingNumber_fixed, afterLabel_beginsWithNumber, H.
  - apply stripLeadingNumber_fixed.
Qed.

Lemma stripLeadingNumber_once_per_label_witness :
  (beginsWithNumber (lit "foo 1.") = false /\
   stripLeadingNumber (lit "foo 1.") = lit "foo 1.") /\
  (afterLabel (lit "1.x") = None /\ stripLeadingNumber (lit "1.x") = lit "1.x") /\
  (afterLabel (lit "(12) foo") = Some (lit "foo") /\
   stripLeadingNumber (lit "(12) foo") = lit "foo") /\
  (beginsWithNumber (stripLeadingNumber (lit "12. foo")) = false /\
   stripLeadingNumber (stripLeadingNumber (lit "12. foo")) =
   stripLeadingNumber (lit "12. foo")).
Proof.
  split; [|split; [|split]]; (split; [reflexivity|]).
  - apply (proj1 (proj2 (stripLeadingNumber_once_per_label (lit "foo 1.")))).
    reflexivity.
  - apply (proj1 (proj2 (proj2 (stripLeadingNumber_once_per_label (lit "1.x"))))).
    reflexivity.
  - rewrite (proj1 (stripLeadingNumber_once_per_label (lit "(12) foo"))).
    reflexivity.
  - apply (proj1 (proj2 (proj2 (proj2
             (stripLeadingNumber_once_per_label (lit "12. foo")))))).
    reflexivity.
Defined.

(** C4 (as stated) fails: "1 2 x" becomes "2 x", and that becomes "x". *)
Lemma stripLeadingNumber_not_idempotent :
  stripLeadingNumber (stripLeadingNumber (lit "1 2 x")) <>
  stripLeadingNumber (lit "1 2 x").
Proof. vm_compute. discriminate. Qed.

(** ** The entities and their code points *)










Lemma cleanText_nbsp_example :
  cleanText (lit "a&nbsp;&nbsp;b") = lit "a  b".
Proof. reflexivity. Qed.
